(** * journals-keyword-searching: author works pipeline

    A shallow embedding of [authors_works.py] (concurrent, cursor-paginated
    fetch and the per-pair export) and [authors_works_aggregate.py] (name
    normalisation and per-author aggregation), with the properties of the
    design document stated and settled against the code.

    Python values are modelled as follows.
    - A [str] is the list of its code points ([list Z]).
    - The interpreter's Unicode character database, which the code reaches
      through [unicodedata], [re] and the [str] methods, is a record of
      per-code-point tables ([UnicodeData]); the string algorithms built on
      it ([str.lower], [str.strip], NFKD, [int], ...) are written out.
    - [dict] and [set] are stdpp's [gmap] and [gset]. *)

From Stdlib Require Import ZArith String Ascii.
From stdpp Require Import gmap list sorting.

Open Scope Z_scope.

Set Warnings "-clear-no-such-hyp".

Abbreviation str := (list Z).

(** The code points of an ASCII literal. *)
Definition u (s : string) : str :=
  map (fun a => Z.of_nat (nat_of_ascii a)) (list_ascii_of_string s).

(** ** The Unicode character database *)

Record UnicodeData := {
  (** full compatibility decomposition of one code point, as NFKD expands it
      before canonical ordering (a code point without one maps to itself) *)
  decomposition : Z -> list Z;
  (** [unicodedata.combining]: the canonical combining class *)
  combining : Z -> Z;
  (** [str.isalnum] on one code point; [\w] of [re] is this or ['_'] *)
  isalnum : Z -> bool;
  (** [str.isspace] on one code point; also [\s] of [re] and what
      [str.strip()] removes *)
  isspace : Z -> bool;
  (** the decimal digit value, for code points of category Nd *)
  todecimal : Z -> option Z;
  (** full case mappings *)
  tolower : Z -> list Z;
  toupper : Z -> list Z;
  totitle : Z -> list Z;
  (** the Cased and Case_Ignorable properties, read by [str.lower] around a
      capital sigma *)
  cased : Z -> bool;
  case_ignorable : Z -> bool
}.

Module Py.
Section Builtins.
Variable U : UnicodeData.

(** *** [unicodedata.normalize('NFKD', s)] *)

(** One step of canonical ordering on the reversed text: the new code point
    moves back over the marks of a greater combining class. *)
Fixpoint bubble (c : Z) (racc : list Z) : list Z :=
  match racc with
  | d :: r =>
      if negb (combining U c =? 0) && negb (combining U d =? 0)
         && (combining U c <? combining U d)
      then d :: bubble c r
      else c :: racc
  | [] => [c]
  end.

Definition canonical_order (s : str) : str :=
  rev (fold_left (fun racc c => bubble c racc) s []).

Definition nfkd (s : str) : str :=
  canonical_order (flat_map (decomposition U) s).

(** *** [re] character classes *)

Definition hyphen : Z := 45.
Definition space : Z := 32.
Definition underscore : Z := 95.

Definition is_word (c : Z) : bool := isalnum U c || (c =? underscore).

(** *** [str.strip()] *)

Fixpoint lstrip (s : str) : str :=
  match s with
  | c :: r => if isspace U c then lstrip r else s
  | [] => []
  end.

Definition rstrip (s : str) : str := rev (lstrip (rev s)).

Definition strip (s : str) : str := rstrip (lstrip s).

(** *** [str.lower()] *)

Definition capital_sigma : Z := 931.
Definition small_sigma : Z := 963.
Definition small_final_sigma : Z := 962.

(** The first code point that is not case-ignorable. *)
Fixpoint skip_ignorable (s : str) : option Z :=
  match s with
  | c :: r => if case_ignorable U c then skip_ignorable r else Some c
  | [] => None
  end.

(** The Final_Sigma context: a cased letter before (over case-ignorable
    ones), none after. [before] is the preceding text, nearest first. *)
Definition final_sigma (before after : str) : bool :=
  match skip_ignorable before with
  | Some c =>
      cased U c &&
      match skip_ignorable after with
      | Some d => negb (cased U d)
      | None => true
      end
  | None => false
  end.

Definition lower_at (before : str) (c : Z) (after : str) : list Z :=
  if c =? capital_sigma
  then [if final_sigma before after then small_final_sigma else small_sigma]
  else tolower U c.

Fixpoint lower_from (before : str) (s : str) : str :=
  match s with
  | c :: r => lower_at before c r ++ lower_from (c :: before) r
  | [] => []
  end.

Definition lower (s : str) : str := lower_from [] s.

(** *** [str.upper()] *)

Definition upper (s : str) : str := flat_map (toupper U) s.

(** *** [str.capitalize()]: first code point in title case, the rest lowered *)

Definition capitalize (s : str) : str :=
  match s with
  | c :: r => totitle U c ++ lower_from [c] r
  | [] => []
  end.

(** *** [str.split()] without arguments: the maximal runs without white space *)

Fixpoint split_ws_from (cur : str) (s : str) : list str :=
  match s with
  | c :: r =>
      if isspace U c
      then (if cur is [] then split_ws_from [] r else rev cur :: split_ws_from [] r)
      else split_ws_from (c :: cur) r
  | [] => if cur is [] then [] else [rev cur]
  end.

Definition split_ws (s : str) : list str := split_ws_from [] s.

(** *** [int(s)] on a string, base 10

    [None] stands for [ValueError].  Code points below 127 are read as
    they are (white space is then that of C: blank and U+0009..U+000D);
    above, Unicode white space counts as a blank and Unicode decimal digits
    as their value.  One underscore may separate two digits.  The
    interpreter's limit on the number of digits is not modelled. *)

Definition int_space (c : Z) : bool :=
  if c <? 127 then (c =? 32) || ((9 <=? c) && (c <=? 13)) else isspace U c.

Definition int_digit (c : Z) : option Z :=
  if c <? 127
  then (if (48 <=? c) && (c <=? 57) then Some (c - 48) else None)
  else todecimal U c.

Fixpoint int_skip (s : str) : str :=
  match s with
  | c :: r => if int_space c then int_skip r else s
  | [] => []
  end.

(** The digits after the first; [after_underscore] tells that the preceding
    code point was an underscore.  Returns the value and the unread text. *)
Fixpoint int_digits (acc : Z) (after_underscore : bool) (s : str)
  : option (Z * str) :=
  match s with
  | c :: r =>
      match int_digit c with
      | Some d => int_digits (10 * acc + d) false r
      | None =>
          if c =? underscore
          then (if after_underscore then None else int_digits acc true r)
          else (if after_underscore then None else Some (acc, s))
      end
  | [] => if after_underscore then None else Some (acc, [])
  end.

Definition int_unsigned (s : str) : option Z :=
  match s with
  | c :: r =>
      match int_digit c with
      | Some d =>
          match int_digits d false r with
          | Some (v, rest) => if int_skip rest is [] then Some v else None
          | None => None
          end
      | None => None
      end
  | [] => None
  end.

Definition int (s : str) : option Z :=
  match int_skip s with
  | c :: r =>
      if c =? 43 then int_unsigned r
      else if c =? 45 then Z.opp <$> int_unsigned r
      else int_unsigned (c :: r)
  | [] => None
  end.

End Builtins.

(** *** [sep.join(parts)] *)

Fixpoint join (sep : str) (parts : list str) : str :=
  match parts with
  | [] => []
  | [p] => p
  | p :: ps => p ++ sep ++ join sep ps
  end.

(** *** [s.split(sep)] on a one-character separator *)

Fixpoint split_on_from (sep : Z) (cur : str) (s : str) : list str :=
  match s with
  | c :: r =>
      if c =? sep then rev cur :: split_on_from sep [] r
      else split_on_from sep (c :: cur) r
  | [] => [rev cur]
  end.

Definition split_on (sep : Z) (s : str) : list str := split_on_from sep [] s.

(** *** [s.replace(old, new)] for a non-empty [old]: the occurrences are
    found from the left and do not overlap.  [skip] counts the code points
    of a match still to be passed over. *)

Fixpoint is_prefix_of (p s : str) : bool :=
  match p, s with
  | [], _ => true
  | _ :: _, [] => false
  | c :: p', d :: s' => (c =? d) && is_prefix_of p' s'
  end.

Fixpoint replace_from (old new : str) (skip : nat) (s : str) : str :=
  match s with
  | c :: r =>
      match skip with
      | S k => replace_from old new k r
      | O =>
          if is_prefix_of old s
          then new ++ replace_from old new (pred (length old)) r
          else c :: replace_from old new 0 r
      end
  | [] => []
  end.

Definition replace (old new s : str) : str := replace_from old new 0 s.

(** *** [s.strip(chars)] *)

Definition in_chars (chars : str) (c : Z) : bool := bool_decide (c ∈ chars).

Fixpoint lstrip_chars (chars : str) (s : str) : str :=
  match s with
  | c :: r => if in_chars chars c then lstrip_chars chars r else s
  | [] => []
  end.

Definition strip_chars (chars : str) (s : str) : str :=
  rev (lstrip_chars chars (rev (lstrip_chars chars s))).

End Py.

(** ** [authors_works_aggregate.py]: the normaliser *)

Module Normalizer.
Section Normalizer.
Variable U : UnicodeData.

(** [''.join(c for c in name if not unicodedata.combining(c))] *)
Definition strip_combining (s : str) : str :=
  filter (fun c => combining U c = 0) s.

(** [re.sub(r'[^\w\s-]', '', name)] *)
Definition kept (c : Z) : bool :=
  Py.is_word U c || isspace U c || (c =? Py.hyphen).

Definition strip_punctuation (s : str) : str :=
  filter (fun c => kept c = true) s.

(** [re.sub(r'[-\s]+', ' ', name)]: [in_run] tells that the preceding code
    point already belonged to the run being replaced. *)
Definition is_sep (c : Z) : bool := (c =? Py.hyphen) || isspace U c.

Fixpoint collapse_from (in_run : bool) (s : str) : str :=
  match s with
  | c :: r =>
      if is_sep c
      then (if in_run then collapse_from true r
            else Py.space :: collapse_from true r)
      else c :: collapse_from false r
  | [] => []
  end.

Definition collapse (s : str) : str := collapse_from false s.

Definition normalize_name (name : str) : str :=
  match name with
  | [] => []
  | _ =>
      let name := Py.nfkd U name in
      let name := strip_combining name in
      let name := strip_punctuation name in
      let name := collapse name in
      Py.strip U (Py.lower U name)
  end.

(** *** Reading [normalize_name] *)

(** The decomposed text without its marks. *)
Definition letters (s : str) : str := strip_combining (Py.nfkd U s).

(** The steps after the removal of the marks. *)
Definition finish (s : str) : str :=
  Py.strip U (Py.lower U (collapse (strip_punctuation s))).

(** What [str.lower] can put for a code point: its lower case, and for the
    capital sigma either small sigma. *)
Definition lower_out (c : Z) : list Z :=
  if c =? Py.capital_sigma then [Py.small_sigma; Py.small_final_sigma]
  else tolower U c.

(** A code point that the steps leave as it is. *)
Definition stable (d : Z) : Prop :=
  decomposition U d = [d] ∧ combining U d = 0 ∧ Py.is_word U d = true ∧
  is_sep d = false ∧ tolower U d = [d] ∧ d <> Py.capital_sigma.

(** Two code points that lower to the same, and are alike for the
    punctuation step and for the context of a capital sigma. *)
Definition case_variant (a b : Z) : Prop :=
  a <> Py.capital_sigma ∧ b <> Py.capital_sigma ∧
  tolower U a = tolower U b ∧ kept a = kept b ∧
  is_sep a = false ∧ is_sep b = false ∧
  cased U a = cased U b ∧ case_ignorable U a = case_ignorable U b.

(** Two code points that [normalize_name] does not tell apart: the same,
    two separators (hyphen or white space), or two case variants. *)
Definition same_letter (a b : Z) : Prop :=
  a = b ∨ (is_sep a = true ∧ is_sep b = true) ∨ case_variant a b.

#[global] Instance stable_dec d : Decision (stable d).
Proof. unfold stable. apply _. Defined.

#[global] Instance case_variant_dec a b : Decision (case_variant a b).
Proof. unfold case_variant. apply _. Defined.

(** Capital ASCII letters in lower case. *)
Definition ascii_lower (c : Z) : Z :=
  if (65 <=? c) && (c <=? 90) then c + 32 else c.

(** Hyphens as blanks. *)
Definition hyphen_to_space (c : Z) : Z :=
  if c =? Py.hyphen then Py.space else c.

(** The properties of the character database that the results below rely
    on.  They hold of the Unicode data ([Latin1.laws] checks them on the
    table of this file). *)
Record UnicodeLaws : Prop := {
  (** decompositions are full *)
  law_decomposition : ∀ c d,
    d ∈ decomposition U c -> decomposition U d = [d];
  (** the lower case of a word character that is no mark and has no
      decomposition is made of stable word characters *)
  law_lower : ∀ c d,
    decomposition U c = [c] -> combining U c = 0 -> Py.is_word U c = true ->
    d ∈ lower_out c -> stable d;
  law_lower_nonempty : ∀ c,
    decomposition U c = [c] -> combining U c = 0 -> Py.is_word U c = true ->
    tolower U c <> [];
  (** the blank *)
  law_space :
    decomposition U Py.space = [Py.space] ∧ combining U Py.space = 0 ∧
    isspace U Py.space = true ∧ tolower U Py.space = [Py.space] ∧
    cased U Py.space = false;
  (** white space and the hyphen are no word characters *)
  law_isspace_word : ∀ c, isspace U c = true -> Py.is_word U c = false;
  law_hyphen :
    decomposition U Py.hyphen = [Py.hyphen] ∧ combining U Py.hyphen = 0 ∧
    Py.is_word U Py.hyphen = false;
  (** white space decomposes into white space *)
  law_isspace_decomposition : ∀ c d,
    isspace U c = true -> d ∈ decomposition U c ->
    combining U d = 0 ∧ isspace U d = true;
  (** the ASCII letters: no decomposition, and the capital is a case
      variant of the small one *)
  law_ascii_case : ∀ c,
    65 <= c <= 90 ->
    decomposition U c = [c] ∧ combining U c = 0 ∧
    decomposition U (c + 32) = [c + 32] ∧ combining U (c + 32) = 0 ∧
    case_variant c (c + 32)
}.

(** A text of blanks and of code points with [P], without two blanks in a
    row; it begins with a blank only if [blank_first]. *)
Inductive spaced (P : Z -> Prop) : bool -> str -> Prop :=
| spaced_nil b : spaced P b []
| spaced_blank x : spaced P false x -> spaced P true (Py.space :: x)
| spaced_letter b c x : P c -> spaced P true x -> spaced P b (c :: x).

End Normalizer.
End Normalizer.

(** ** [authors_works_aggregate.py]: the aggregator *)

(** Lexicographic order on code points: how [sorted] compares strings. *)
Fixpoint str_leb (a b : str) : bool :=
  match a, b with
  | [], _ => true
  | _ :: _, [] => false
  | c :: a', d :: b' => (c <? d) || ((c =? d) && str_leb a' b')
  end.

Definition str_le (a b : str) : Prop := str_leb a b = true.

#[global] Instance str_le_dec a b : Decision (str_le a b).
Proof. unfold str_le. apply _. Defined.

Module Aggregate.

(** One line of [authors_works.csv] as [csv.DictReader] yields it.  A column
    that the file lacks reads as the empty string through [row.get(k, '')];
    only for [cited_by_count], whose default is the number 0, the absent
    column ([None]) is told apart. *)
Record Row := {
  row_author_name : str;
  row_id : str;
  row_author_id : str;
  row_source_id : str;
  row_references_israel : str;
  row_cited_by_count : option str;
  row_publication_date : str;
  row_institutions : str;
  row_countries : str;
  row_affiliations_comment : str
}.

#[global] Instance Row_eq_dec : EqDecision Row.
Proof. solve_decision. Defined.

(** The value of the [defaultdict] [author_data] for one group. *)
Record AuthorData := {
  author_ids : gset str;
  work_ids : gset str;
  specific_work_ids : gset str;
  cited_by_per_work : gmap str Z;
  years : gset Z;
  source_ids : gset str;
  institutions : gset str;
  countries : gset str;
  affiliations : gset str
}.

Definition new_author_data : AuthorData :=
  {| author_ids := ∅; work_ids := ∅; specific_work_ids := ∅;
     cited_by_per_work := ∅; years := ∅; source_ids := ∅;
     institutions := ∅; countries := ∅; affiliations := ∅ |}.

(** The local variables of [aggregate_authors] that live across rows.
    [author_data_keys] is the insertion order of [author_data], which is
    the order in which the dictionary is iterated.  ([row_count] is only
    printed and is left out.) *)
Record State := {
  normalized_to_group_id : gmap str nat;
  name_to_group_id : gmap str nat;
  group_id_counter : nat;
  group_normalized_names : gmap nat str;
  author_data : gmap nat AuthorData;
  author_data_keys : list nat
}.

Definition initial : State :=
  {| normalized_to_group_id := ∅; name_to_group_id := ∅;
     group_id_counter := 0; group_normalized_names := ∅;
     author_data := ∅; author_data_keys := [] |}.

Section Aggregate.
Variable U : UnicodeData.

Abbreviation normalize_name := (Normalizer.normalize_name U).

(** Lines 61-74: the group of an author name (already stripped). *)
Definition resolve (st : State) (author_name : str) : nat * State :=
  match name_to_group_id st !! author_name with
  | Some group_id => (group_id, st)
  | None =>
      let normalized_name := normalize_name author_name in
      match normalized_to_group_id st !! normalized_name with
      | Some group_id =>
          (group_id,
           {| normalized_to_group_id := normalized_to_group_id st;
              name_to_group_id := <[author_name := group_id]> (name_to_group_id st);
              group_id_counter := group_id_counter st;
              group_normalized_names := group_normalized_names st;
              author_data := author_data st;
              author_data_keys := author_data_keys st |})
      | None =>
          let group_id := group_id_counter st in
          (group_id,
           {| normalized_to_group_id :=
                <[normalized_name := group_id]> (normalized_to_group_id st);
              name_to_group_id := <[author_name := group_id]> (name_to_group_id st);
              group_id_counter := S (group_id_counter st);
              group_normalized_names :=
                <[group_id := normalized_name]> (group_normalized_names st);
              author_data := author_data st;
              author_data_keys := author_data_keys st |})
      end
  end.

(** [for x in field.split(';'): x = x.strip(); if x: target.add(x)] *)
Definition add_split (field : str) (target : gset str) : gset str :=
  match field with
  | [] => target
  | _ =>
      fold_left
        (fun acc x => match Py.strip U x with [] => acc | x' => {[x']} ∪ acc end)
        (Py.split_on 59 field) target
  end.

(** [row.get('references_israel', '').lower() in ['yes', 'true', '1']] *)
Definition is_relevant (row : Row) : bool :=
  let v := Py.lower U (row_references_israel row) in
  bool_decide (v = u "yes") || bool_decide (v = u "true") || bool_decide (v = u "1").

(** [int(row.get('cited_by_count', 0))]; [None] is the exception caught *)
Definition cited_by (row : Row) : option Z :=
  match row_cited_by_count row with
  | Some s => Py.int U s
  | None => Some 0
  end.

(** Lines 98-105: the year to add, if any. *)
Definition year_of (row : Row) : option Z :=
  let pub_date := row_publication_date row in
  if (4 <=? length pub_date)%nat
  then match Py.int U (take 4 pub_date) with
       | Some year => if (1900 <=? year) && (year <=? 2100) then Some year else None
       | None => None
       end
  else None.

(** Lines 78-126: what one row adds to the data of its group. *)
Definition accumulate (row : Row) (work_id : str) (data : AuthorData) : AuthorData :=
  let author_id := Py.strip U (row_author_id row) in
  let source_id := Py.strip U (row_source_id row) in
  {| author_ids :=
       if author_id is [] then author_ids data else {[author_id]} ∪ author_ids data;
     work_ids := {[work_id]} ∪ work_ids data;
     specific_work_ids :=
       if is_relevant row then {[work_id]} ∪ specific_work_ids data
       else specific_work_ids data;
     cited_by_per_work :=
       match cited_by row with
       | Some n =>
           match cited_by_per_work data !! work_id with
           | Some _ => cited_by_per_work data
           | None => <[work_id := n]> (cited_by_per_work data)
           end
       | None => cited_by_per_work data
       end;
     years :=
       match year_of row with
       | Some year => {[year]} ∪ years data
       | None => years data
       end;
     source_ids :=
       if source_id is [] then source_ids data else {[source_id]} ∪ source_ids data;
     institutions := add_split (row_institutions row) (institutions data);
     countries := add_split (row_countries row) (countries data);
     affiliations := add_split (row_affiliations_comment row) (affiliations data) |}.

(** The body of the loop over the rows (lines 50-126). *)
Definition process_row (st : State) (row : Row) : State :=
  let author_name := Py.strip U (row_author_name row) in
  match author_name with
  | [] => st
  | _ =>
      let work_id := Py.strip U (row_id row) in
      match work_id with
      | [] => st
      | _ =>
          let '(group_id, st) := resolve st author_name in
          let '(data, keys) :=
            match author_data st !! group_id with
            | Some data => (data, author_data_keys st)
            | None => (new_author_data, author_data_keys st ++ [group_id])
            end in
          {| normalized_to_group_id := normalized_to_group_id st;
             name_to_group_id := name_to_group_id st;
             group_id_counter := group_id_counter st;
             group_normalized_names := group_normalized_names st;
             author_data := <[group_id := accumulate row work_id data]> (author_data st);
             author_data_keys := keys |}
      end
  end.

Definition process_rows (rows : list Row) : State :=
  fold_left process_row rows initial.

(** *** The output (lines 131-152) *)

Record OutputRow := {
  out_author_name : str;
  out_author_ids : str;
  out_works_count : nat;
  out_specific_works_count : nat;
  out_journals_count : nat;
  out_cited_by_count : Z;
  out_min_year : option Z;
  out_max_year : option Z;
  out_institutions : str;
  out_countries : str;
  out_affiliations_comment : str
}.

(** [';'.join(sorted(xs))] *)
Definition join_sorted (xs : gset str) : str :=
  Py.join [59] (merge_sort str_le (elements xs)).

(** [' '.join(word.capitalize() for word in normalized_name.split())] *)
Definition title_case_name (normalized_name : str) : str :=
  match normalized_name with
  | [] => []
  | _ => Py.join [Py.space] (map (Py.capitalize U) (Py.split_ws U normalized_name))
  end.

(** [sum(data['cited_by_per_work'].values())] *)
Definition sum_values (m : gmap str Z) : Z :=
  map_fold (fun _ v acc => v + acc) 0 m.

Definition output_row (st : State) (group_id : nat) (data : AuthorData) : OutputRow :=
  let years_list := merge_sort Z.le (elements (years data)) in
  let normalized_name := default [] (group_normalized_names st !! group_id) in
  {| out_author_name := title_case_name normalized_name;
     out_author_ids := join_sorted (author_ids data);
     out_works_count := size (work_ids data);
     out_specific_works_count := size (specific_work_ids data);
     out_journals_count := size (source_ids data);
     out_cited_by_count := sum_values (cited_by_per_work data);
     out_min_year := head years_list;
     out_max_year := last years_list;
     out_institutions := join_sorted (institutions data);
     out_countries := join_sorted (countries data);
     out_affiliations_comment := join_sorted (affiliations data) |}.

(** [output_rows.sort(key=..., reverse=True)]: a stable sort, greatest
    [works_count] first. *)
Fixpoint insert_by_works_count (x : OutputRow) (l : list OutputRow) : list OutputRow :=
  match l with
  | y :: l' =>
      if (out_works_count y <=? out_works_count x)%nat then x :: l
      else y :: insert_by_works_count x l'
  | [] => [x]
  end.

Definition sort_by_works_count (l : list OutputRow) : list OutputRow :=
  foldr insert_by_works_count [] l.

Definition output_rows (st : State) : list OutputRow :=
  sort_by_works_count
    (omap (fun group_id => output_row st group_id <$> author_data st !! group_id)
          (author_data_keys st)).

Definition aggregate_authors (rows : list Row) : list OutputRow :=
  output_rows (process_rows rows).

(** *** The run of the loop, row by row

    A sighting is a row that passes the two guards, with the group it is
    routed to. *)

Record Sighting := {
  s_group : nat;
  s_name : str;      (* the stripped author name *)
  s_work_id : str;   (* the stripped work id *)
  s_row : Row
}.

Definition sighting (st : State) (row : Row) : option Sighting :=
  match Py.strip U (row_author_name row) with
  | [] => None
  | _ =>
      match Py.strip U (row_id row) with
      | [] => None
      | _ =>
          Some {| s_group := fst (resolve st (Py.strip U (row_author_name row)));
                  s_name := Py.strip U (row_author_name row);
                  s_work_id := Py.strip U (row_id row);
                  s_row := row |}
      end
  end.

Fixpoint sightings_from (st : State) (rows : list Row) : list Sighting :=
  match rows with
  | row :: rest =>
      match sighting st row with
      | Some s => s :: sightings_from (process_row st row) rest
      | None => sightings_from (process_row st row) rest
      end
  | [] => []
  end.

Definition sightings (rows : list Row) : list Sighting :=
  sightings_from initial rows.

(** The canonical keys sighted. *)
Definition keys_of (tr : list Sighting) : gset str :=
  list_to_set (map (fun s => normalize_name (s_name s)) tr).

Definition of_work (g : nat) (w : str) (s : Sighting) : Prop :=
  s_group s = g ∧ s_work_id s = w.

#[global] Instance of_work_dec g w s : Decision (of_work g w s).
Proof. unfold of_work. apply _. Defined.

(** The citation count of the first row of a group and work id whose
    count is an integer. *)
Definition first_cited_by (g : nat) (w : str) (tr : list Sighting) : option Z :=
  head (omap (fun s => cited_by (s_row s)) (filter (of_work g w) tr)).

(** The citation count of the first row of a group and work id. *)
Definition first_row_cited_by (g : nat) (w : str) (tr : list Sighting) : option Z :=
  head (filter (of_work g w) tr) ≫= (fun s => cited_by (s_row s)).

(** A row is absorbed by a state when its author name is cached and the
    data of its group are left as they are by accumulating the row again
    (or when the row does not pass the guards). *)
Definition absorbed (row : Row) (st : State) : Prop :=
  Py.strip U (row_author_name row) = [] ∨ Py.strip U (row_id row) = [] ∨
  ∃ g data,
    name_to_group_id st !! Py.strip U (row_author_name row) = Some g ∧
    author_data st !! g = Some data ∧
    accumulate row (Py.strip U (row_id row)) data = data.

End Aggregate.

Definition sum_over (X : gset str) (f : str -> Z) : Z :=
  foldr (fun w acc => f w + acc) 0 (elements X).

(** A list without the repetitions of its earlier elements. *)
Fixpoint first_occurrences_from {A} `{EqDecision A} (seen l : list A) : list A :=
  match l with
  | x :: r =>
      if decide (x ∈ seen) then first_occurrences_from seen r
      else x :: first_occurrences_from (x :: seen) r
  | [] => []
  end.

Definition first_occurrences {A} `{EqDecision A} (l : list A) : list A :=
  first_occurrences_from [] l.

(** A row sequence with one row per [(work_id, author_id)]: the first. *)
Fixpoint first_per_pair_from (seen : list (str * str)) (rows : list Row) : list Row :=
  match rows with
  | row :: rest =>
      if decide ((row_id row, row_author_id row) ∈ seen)
      then first_per_pair_from seen rest
      else row :: first_per_pair_from ((row_id row, row_author_id row) :: seen) rest
  | [] => []
  end.

Definition first_per_pair (rows : list Row) : list Row :=
  first_per_pair_from [] rows.

(** The rows of the output before they are sorted: one for each group, in
    the order in which [author_data] is iterated. *)
Definition rows_in_group_order (U : UnicodeData) (st : State) : list OutputRow :=
  omap (fun group_id => output_row U st group_id <$> author_data st !! group_id)
       (author_data_keys st).

(** The order of the output: greater [works_count] first. *)
Definition by_works_count (x y : OutputRow) : Prop :=
  (out_works_count y <= out_works_count x)%nat.

(** A row that passes the two guards of the loop (lines 53-59). *)
Definition passes_guards (U : UnicodeData) (row : Row) : Prop :=
  Py.strip U (row_author_name row) <> [] ∧ Py.strip U (row_id row) <> [].

#[global] Instance passes_guards_dec U row : Decision (passes_guards U row).
Proof. unfold passes_guards. apply _. Defined.

(** The sightings of a canonical key. *)
Definition of_key (U : UnicodeData) (k : str) (s : Sighting) : Prop :=
  Normalizer.normalize_name U (s_name s) = k.

#[global] Instance of_key_dec U k s : Decision (of_key U k s).
Proof. unfold of_key. apply _. Defined.

End Aggregate.

(** ** [authors_works.py] *)

(** *** The affiliation columns of a row (lines 85-103) *)

Module Columns.

(** An institution of an authorship; [i_display_name] is [None] when the
    name is absent or [null]. *)
Record Institution := {
  i_display_name : option str
}.

(** What lines 85-103 read of an authorship.  An institution or a string
    that is [null] is [None]; a missing or [null]
    [raw_affiliation_strings] reads as the empty list. *)
Record Affiliated := {
  as_institutions : list (option Institution);
  as_countries : list (option str);
  as_raw_affiliation_strings : list (option str)
}.

(** A string that is neither [null] nor empty. *)
Definition truthy_str (x : option str) : option str :=
  match x with
  | Some (c :: r) => Some (c :: r)
  | _ => None
  end.

Definition all_institutions (authorship : Affiliated) : list str :=
  omap (fun inst =>
          match inst with
          | Some i => truthy_str (i_display_name i)
          | None => None
          end)
       (as_institutions authorship).

Definition all_countries (authorship : Affiliated) : list str :=
  omap truthy_str (as_countries authorship).

Definition view_further : str := u "View further author information".

Definition all_affiliations (authorship : Affiliated) : list str :=
  match all_institutions authorship with
  | [] =>
      omap (fun affiliation =>
              match truthy_str affiliation with
              | Some a => if bool_decide (a = view_further) then None else Some a
              | None => None
              end)
           (as_raw_affiliation_strings authorship)
  | _ => []
  end.

(** [';'.join(sorted(xs))] *)
Definition sorted_join (xs : list str) : str :=
  Py.join [59] (merge_sort str_le xs).

Record AffiliationColumns := {
  col_institutions : str;
  col_countries : str;
  col_affiliations_comment : str
}.

Definition affiliation_columns (authorship : Affiliated) : AffiliationColumns :=
  {| col_institutions := sorted_join (all_institutions authorship);
     col_countries := sorted_join (all_countries authorship);
     col_affiliations_comment :=
       match all_institutions authorship with
       | [] => sorted_join (all_affiliations authorship)
       | _ => []
       end |}.

End Columns.

(** The works of the API, as far as the code reads them.  A field holds
    [None] for JSON [null]; an absent string field is the empty string that
    [.get(k, '')] puts in its place, an absent array the empty list. *)
Module Json.

Record Author := {
  a_id : option str
}.

(** [as_author] is [None] when [authorship.get('author', {})] is falsy:
    absent, [null] or an empty object.  [as_institutions] and [as_countries]
    are [None] for [null], which the loops of lines 87 and 92 cannot
    iterate; a missing or [null] [raw_affiliation_strings] reads as the
    empty list (line 96). *)
Record Authorship := {
  as_author : option Author;
  as_raw_author_name : option str;
  as_institutions : option (list (option Columns.Institution));
  as_countries : option (list (option str));
  as_raw_affiliation_strings : list (option str)
}.

(** The source of the primary location of a work. *)
Record Source := {
  so_id : option str;
  so_display_name : option str
}.

Record Keyword := {
  kw_display_name : option str
}.

(** [w_source] is [None] when the primary location or its source is falsy
    (absent, [null] or empty); [w_keywords] is [None] for [null], and so is
    a keyword of the list that is [null]; [w_authorships] is the array of
    the authorships of the work, empty when absent. *)
Record Work := {
  w_id : option str;
  w_doi : option str;
  w_title : option str;
  w_publication_date : option str;
  w_source : option Source;
  w_authorships : list Authorship;
  w_cited_by_count : option Z;
  w_keywords : option (list (option Keyword))
}.

#[global] Instance Institution_eq_dec : EqDecision Columns.Institution.
Proof. solve_decision. Defined.
#[global] Instance Author_eq_dec : EqDecision Author.
Proof. solve_decision. Defined.
#[global] Instance Authorship_eq_dec : EqDecision Authorship.
Proof. solve_decision. Defined.
#[global] Instance Source_eq_dec : EqDecision Source.
Proof. solve_decision. Defined.
#[global] Instance Keyword_eq_dec : EqDecision Keyword.
Proof. solve_decision. Defined.
#[global] Instance Work_eq_dec : EqDecision Work.
Proof. solve_decision. Defined.

End Json.

(** *** The fetch engine (lines 115-167) *)

Module Fetch.
Import Json.

Definition CONCURRENCY : nat := 5.
Definition RATE_LIMIT : nat := 10.

(** What one [GET /works] answers: the HTTP status, [data.get('results', [])]
    and [meta.get('next_cursor')]. *)
Record Response := {
  status : Z;
  results : list Work;
  next_cursor : option str
}.

(** The upstream API: the answer to the request number [page] (from 0) of
    an author's pagination, made with a cursor. *)
Definition Server : Type := str -> nat -> str -> Response.

Inductive Event :=
| Acquire                              (* a permit of [rate_limiter] taken *)
| Request (cursor : str) (status : Z)  (* [session.get] and its status *)
| Warning (status : Z)                 (* the warning printed *)
| Release.                             (* the permit given back *)

#[global] Instance Event_eq_dec : EqDecision Event.
Proof. solve_decision. Defined.

(** How one turn of [while cursor:] ends. *)
Inductive Iteration :=
| Continue (cursor : option str) (all_works : list Work)
| Break (all_works : list Work).

(** [cursor = next_cursor if next_cursor else None] *)
Definition truthy (next_cursor : option str) : option str :=
  match next_cursor with
  | Some (c :: r) => Some (c :: r)
  | _ => None
  end.

(** The body of the loop (lines 128-143). *)
Definition iteration (server : Server) (author_id : str) (page : nat)
    (cursor : str) (all_works : list Work) : Iteration * list Event :=
  let response := server author_id page cursor in
  if status response =? 200
  then
    let all_works := all_works ++ results response in
    let cursor' := truthy (next_cursor response) in
    if (length (results response) <? 200)%nat
    then (Break all_works, [Request cursor (status response)])
    else (Continue cursor' all_works, [Request cursor (status response)])
  else
    (Break all_works,
     [Request cursor (status response); Warning (status response)]).

(** The loop of [fetch_author_works]; [None] when [fuel] turns do not end it. *)
Fixpoint paginate (fuel : nat) (server : Server) (author_id : str) (page : nat)
    (cursor : option str) (all_works : list Work)
  : option (list Work * list Event) :=
  match cursor with
  | None => Some (all_works, [])
  | Some c =>
      match fuel with
      | O => None
      | S fuel' =>
          match iteration server author_id page c all_works with
          | (Break all_works', events) => Some (all_works', events)
          | (Continue cursor' all_works', events) =>
              match paginate fuel' server author_id (S page) cursor' all_works' with
              | Some (w, events') => Some (w, events ++ events')
              | None => None
              end
          end
      end
  end.

(** [fetch_author_works] run on its own: the works returned and what
    happened, in order. *)
Definition fetch_author_works (fuel : nat) (server : Server) (author_id : str)
  : option (list Work * list Event) :=
  match paginate fuel server author_id 0 (Some (u "*")) [] with
  | Some (all_works, events) => Some (all_works, Acquire :: events ++ [Release])
  | None => None
  end.

(** The coroutine [fetch_single_author_works] between two suspensions. *)
Inductive Task :=
| WaitSemaphore      (* before [async with semaphore] *)
| WaitRateLimiter    (* before [async with rate_limiter] *)
| Paginating (cursor : option str) (all_works : list Work) (page : nat)
| Returned (all_works : list Work).

(** The event loop: the two semaphores, the coroutines of [gather] in the
    order of [author_ids], and the events so far with the coroutine of each. *)
Record Machine := {
  semaphore : nat;
  rate_limiter : nat;
  tasks : list Task;
  log : list (nat * Event)
}.

Definition start (author_ids : list str) : Machine :=
  {| semaphore := CONCURRENCY; rate_limiter := RATE_LIMIT;
     tasks := map (fun _ => WaitSemaphore) author_ids; log := [] |}.

(** The coroutine [i] runs to its next suspension.  A coroutine that waits
    for a semaphore without permits stays where it is. *)
Definition step (server : Server) (author_ids : list str) (i : nat) (m : Machine)
  : Machine :=
  match tasks m !! i, author_ids !! i with
  | Some t, Some author_id =>
      match t with
      | WaitSemaphore =>
          match semaphore m with
          | S n =>
              {| semaphore := n; rate_limiter := rate_limiter m;
                 tasks := <[i := WaitRateLimiter]> (tasks m); log := log m |}
          | O => m
          end
      | WaitRateLimiter =>
          match rate_limiter m with
          | S n =>
              {| semaphore := semaphore m; rate_limiter := n;
                 tasks := <[i := Paginating (Some (u "*")) [] 0]> (tasks m);
                 log := log m ++ [(i, Acquire)] |}
          | O => m
          end
      | Paginating None all_works _ =>
          {| semaphore := S (semaphore m); rate_limiter := S (rate_limiter m);
             tasks := <[i := Returned all_works]> (tasks m);
             log := log m ++ [(i, Release)] |}
      | Paginating (Some c) all_works page =>
          match iteration server author_id page c all_works with
          | (Break all_works', events) =>
              {| semaphore := S (semaphore m); rate_limiter := S (rate_limiter m);
                 tasks := <[i := Returned all_works']> (tasks m);
                 log := log m ++ map (pair i) events ++ [(i, Release)] |}
          | (Continue cursor' all_works', events) =>
              {| semaphore := semaphore m; rate_limiter := rate_limiter m;
                 tasks := <[i := Paginating cursor' all_works' (S page)]> (tasks m);
                 log := log m ++ map (pair i) events |}
          end
      | Returned _ => m
      end
  | _, _ => m
  end.

(** A schedule names the coroutine that runs at each turn of the loop. *)
Definition run (server : Server) (author_ids : list str) (schedule : list nat)
    (m : Machine) : Machine :=
  fold_left (fun m i => step server author_ids i m) schedule m.

Definition returned (t : Task) : option (list Work) :=
  match t with
  | Returned all_works => Some all_works
  | _ => None
  end.

(** [gather]: the results in the order of the coroutines, once all returned. *)
Definition gather (m : Machine) : option (list (list Work)) :=
  mapM returned (tasks m).

(** Lines 162-165. *)
Definition collect (author_ids : list str) (all_author_works : list (list Work))
  : gmap str (list Work) :=
  fold_left
    (fun d '(author_id, works) =>
       match works with [] => d | _ => <[author_id := works]> d end)
    (zip author_ids all_author_works) ∅.

(** [enrich_authors_with_all_works] under a schedule; [None] while some
    coroutine has not returned. *)
Definition enrich_authors_with_all_works (server : Server)
    (author_ids : list str) (schedule : list nat) : option (gmap str (list Work)) :=
  collect author_ids <$> gather (run server author_ids schedule (start author_ids)).

(** *** Reading the events *)

(** The events of the coroutine [i]. *)
Definition events_of (i : nat) (l : list (nat * Event)) : list Event :=
  map snd (filter (fun e => fst e = i) l).

Definition is_acquire (e : Event) : bool :=
  match e with Acquire => true | _ => false end.

Definition is_request (e : Event) : bool :=
  match e with Request _ _ => true | _ => false end.

Definition is_warning (e : Event) : bool :=
  match e with Warning _ => true | _ => false end.

Definition count (p : Event -> bool) (events : list Event) : nat :=
  length (filter (fun e => p e = true) events).

Definition acquisitions : list Event -> nat := count is_acquire.
Definition requests : list Event -> nat := count is_request.
Definition warnings : list Event -> nat := count is_warning.

(** The loop of [fetch_author_works], entered with the cursor ['*'], is at
    the top of its turn number [page] with this cursor and these works,
    after these events. *)
Inductive reaches (server : Server) (author_id : str)
  : nat -> option str -> list Work -> list Event -> Prop :=
| reaches_start : reaches server author_id 0 (Some (u "*")) [] []
| reaches_next page c all_works events cursor' all_works' events' :
    reaches server author_id page (Some c) all_works events ->
    iteration server author_id page c all_works
      = (Continue cursor' all_works', events') ->
    reaches server author_id (S page) cursor' all_works' (events ++ events').

(** What the events of a coroutine are, by its state. *)
Definition task_ok (server : Server) (author_id : str) (t : Task)
    (events : list Event) : Prop :=
  match t with
  | WaitSemaphore | WaitRateLimiter => events = []
  | Paginating cursor all_works page =>
      ∃ events', events = Acquire :: events' ∧
                 reaches server author_id page cursor all_works events'
  | Returned all_works =>
      ∃ fuel, fetch_author_works fuel server author_id = Some (all_works, events)
  end.

(** Every coroutine is where its own fetch, run alone, would be. *)
Definition machine_ok (server : Server) (author_ids : list str) (m : Machine) : Prop :=
  ∀ i t a, tasks m !! i = Some t -> author_ids !! i = Some a ->
    task_ok server a t (events_of i (log m)).

(** The entry of [author_works_dict] for works fetched. *)
Definition entry (works : list Work) : option (list Work) :=
  match works with
  | [] => None
  | _ => Some works
  end.

(** *** The permits in use *)

(** A coroutine inside [async with semaphore] (line 153). *)
Definition holds_semaphore (t : Task) : bool :=
  match t with
  | WaitRateLimiter | Paginating _ _ _ => true
  | WaitSemaphore | Returned _ => false
  end.

(** A coroutine inside [async with rate_limiter] (line 116). *)
Definition holds_rate_limiter (t : Task) : bool :=
  match t with
  | Paginating _ _ _ => true
  | WaitSemaphore | WaitRateLimiter | Returned _ => false
  end.

(** A coroutine that has not returned yet. *)
Definition unreturned (t : Task) : bool :=
  match t with
  | Returned _ => false
  | WaitSemaphore | WaitRateLimiter | Paginating _ _ _ => true
  end.

Definition holders (p : Task -> bool) (m : Machine) : nat :=
  length (filter (fun t => p t = true) (tasks m)).

(** The permits left and the coroutines inside make up the permits of each
    semaphore. *)
Definition permits_accounted (m : Machine) : Prop :=
  (semaphore m + holders holds_semaphore m = CONCURRENCY)%nat ∧
  (rate_limiter m + holders holds_rate_limiter m = RATE_LIMIT)%nat.

(** *** The pages of a fetch *)

(** The cursor of the request number [page] of an author: ['*'] for the
    first, then the [next_cursor] of the answer before; [None] when that
    answer has none. *)
Fixpoint cursor_at (server : Server) (author_id : str) (page : nat) : option str :=
  match page with
  | O => Some (u "*")
  | S p =>
      match cursor_at server author_id p with
      | Some c => truthy (next_cursor (server author_id p c))
      | None => None
      end
  end.

Definition response_at (server : Server) (author_id : str) (page : nat)
  : option Response :=
  server author_id page <$> cursor_at server author_id page.

(** An answer after which the loop makes another request: status 200, no
    fewer than 200 results, and a cursor. *)
Definition goes_on (r : Response) : bool :=
  (status r =? 200) && (200 <=? length (results r))%nat &&
  bool_decide (is_Some (truthy (next_cursor r))).

(** The request number [n] is the last: the answers before it go on, its
    own does not. *)
Definition last_page (server : Server) (author_id : str) (n : nat) : Prop :=
  (∀ i, (i < n)%nat -> goes_on <$> response_at server author_id i = Some true) ∧
  goes_on <$> response_at server author_id n = Some false.

(** The results of an answer that are kept: those of a status 200. *)
Definition kept_results (r : Response) : list Work :=
  if status r =? 200 then results r else [].

(** The results kept of the requests [0] to [n]. *)
Definition works_through (server : Server) (author_id : str) (n : nat) : list Work :=
  flat_map (fun page => from_option kept_results [] (response_at server author_id page))
           (seq 0 (S n)).

End Fetch.

(** *** The per-pair export ([main], lines 170-226) *)

Module Pairs.
Import Json.

Definition openalex_prefix : str := u "https://openalex.org/".

(** [(x or '').replace('https://openalex.org/', '')] *)
Definition short_id (x : option str) : str :=
  Py.replace openalex_prefix [] (default [] x).

(** A line of [authors_works.csv], column by column.  A column that the
    code copies from the work ([doi], [title], [publication_date],
    [journal_name], [cited_by_count]) holds [None] when the work has [null]
    there. *)
Record Row := {
  row_id : str;
  row_doi : option str;
  row_title : option str;
  row_publication_date : option str;
  row_source_id : str;
  row_journal_name : option str;
  row_author_name : str;
  row_author_id : str;
  row_additional_author_names : str;
  row_institutions : str;
  row_countries : str;
  row_affiliations_comment : str;
  row_cited_by_count : option Z;
  row_keywords : str;
  row_references_israel : str
}.

(** The quotes that [strip] takes off a raw author name (line 63). *)
Definition quotes : str := [39; 34; 699; 700; 39; 701; 96; 180].

(** Lines 72-83: the names of the other authors of the work. *)
Definition other_authors (item : Work) (current_author_id : str) : list str :=
  omap (fun other_authorship =>
          match as_author other_authorship with
          | Some other_author =>
              if bool_decide (short_id (a_id other_author) = current_author_id)
              then None
              else
                match as_raw_author_name other_authorship with
                | Some (c :: r) => Some (Py.strip_chars quotes (c :: r))
                | _ => None
                end
          | None => None
          end)
       (w_authorships item).

(** Lines 106-107: the names of the keywords that have one; [None] when a
    keyword is [null]. *)
Definition keyword_names (keywords : list (option Keyword)) : option (list str) :=
  omap id <$>
    mapM (fun kw : option Keyword =>
            match kw with
            | Some k => Some (Columns.truthy_str (kw_display_name k))
            | None => None
            end)
         keywords.

(** [_extract_work_data_for_author]; [None] when it raises: on [.replace]
    of a [null] id of the work (line 52) or of its source (line 59), on
    [author_id] read before any assignment (line 70), on the loop over
    [null] institutions, countries or keywords (lines 87, 92, 107) and on a
    [null] keyword (line 107). *)
Definition _extract_work_data_for_author (item : Work) (authorship : Authorship)
    (search_work_ids : gset str) : option Row :=
  match w_id item with
  | None => None
  | Some item_id =>
      let id := Py.replace openalex_prefix [] item_id in
      match
        match w_source item with
        | Some source => Py.replace openalex_prefix [] <$> so_id source
        | None => Some []
        end
      with
      | None => None
      | Some source_id =>
          let journal_name :=
            match w_source item with
            | Some source => so_display_name source
            | None => Some []
            end in
          let author_name :=
            match as_raw_author_name authorship with
            | Some (c :: r) => Py.strip_chars quotes (c :: r)
            | _ => []
            end in
          match as_author authorship with
          | None => None
          | Some author =>
              let author_id :=
                match a_id author with
                | Some (c :: r) => Py.replace openalex_prefix [] (c :: r)
                | _ => []
                end in
              match as_institutions authorship, as_countries authorship with
              | Some institutions, Some countries =>
                  let columns :=
                    Columns.affiliation_columns
                      {| Columns.as_institutions := institutions;
                         Columns.as_countries := countries;
                         Columns.as_raw_affiliation_strings :=
                           as_raw_affiliation_strings authorship |} in
                  match w_keywords item ≫= keyword_names with
                  | None => None
                  | Some names =>
                      Some {| row_id := id;
                              row_doi := w_doi item;
                              row_title := w_title item;
                              row_publication_date := w_publication_date item;
                              row_source_id := source_id;
                              row_journal_name := journal_name;
                              row_author_name := author_name;
                              row_author_id := author_id;
                              row_additional_author_names :=
                                Py.join [59] (other_authors item author_id);
                              row_institutions := Columns.col_institutions columns;
                              row_countries := Columns.col_countries columns;
                              row_affiliations_comment :=
                                Columns.col_affiliations_comment columns;
                              row_cited_by_count := w_cited_by_count item;
                              row_keywords := Py.join [59] names;
                              row_references_israel :=
                                if bool_decide (id ∈ search_work_ids)
                                then u "Yes" else u "No" |}
                  end
              | _, _ => None
              end
          end
      end
  end.

(** [_load_search_results_work_ids] over the items of all files; [None]
    when an id is [null]. *)
Fixpoint _load_search_results_work_ids (json_data : list Work) : option (gset str) :=
  match json_data with
  | item :: rest =>
      match w_id item with
      | None => None
      | Some item_id =>
          let work_id := Py.replace openalex_prefix [] item_id in
          match _load_search_results_work_ids rest with
          | Some work_ids =>
              Some (match work_id with [] => work_ids | _ => {[work_id]} ∪ work_ids end)
          | None => None
          end
      end
  | [] => Some ∅
  end.

(** Lines 186-192: the author ids of the search results. *)
Definition authorship_author_id (authorship : Authorship) : option str :=
  match as_author authorship with
  | Some author =>
      match short_id (a_id author) with
      | [] => None
      | author_id => Some author_id
      end
  | None => None
  end.

Definition search_author_ids (json_data : list Work) : gset str :=
  list_to_set (omap authorship_author_id (flat_map w_authorships json_data)).

(** [_extract_author_works]: a dictionary in insertion order. *)
Fixpoint append_item (author_id : str) (item : Work)
    (author_works : list (str * list Work)) : list (str * list Work) :=
  match author_works with
  | (k, items) :: rest =>
      if bool_decide (k = author_id) then (k, items ++ [item]) :: rest
      else (k, items) :: append_item author_id item rest
  | [] => [(author_id, [item])]
  end.

Definition _extract_author_works (json_data : list Work) : list (str * list Work) :=
  fold_left
    (fun author_works item =>
       fold_left
         (fun author_works authorship =>
            match as_author authorship with
            | Some author =>
                match a_id author with
                | Some (c :: r) =>
                    match Py.replace openalex_prefix [] (c :: r) with
                    | [] => author_works
                    | author_id => append_item author_id item author_works
                    end
                | _ => author_works
                end
            | None => author_works
            end)
         (w_authorships item) author_works)
    json_data [].

(** The state of the loops of lines 204-225. *)
Record Output := {
  seen_work_author_pairs : gset (str * str);
  output_rows : list Row
}.

(** A loop whose body may raise. *)
Fixpoint for_each {A S : Type} (body : S -> A -> option S) (xs : list A) (s : S)
  : option S :=
  match xs with
  | x :: rest =>
      match body s x with
      | Some s' => for_each body rest s'
      | None => None
      end
  | [] => Some s
  end.

(** Lines 214-225, for one authorship of a work. *)
Definition visit_authorship (search_ids : gset str) (search_work_ids : gset str)
    (work : Work) (work_id : str) (out : Output) (authorship : Authorship)
  : option Output :=
  match as_author authorship with
  | None => Some out
  | Some author =>
      let current_author_id := short_id (a_id author) in
      if bool_decide (current_author_id ∈ search_ids)
      then
        let pair_key := (work_id, current_author_id) in
        if bool_decide (pair_key ∈ seen_work_author_pairs out)
        then Some out
        else
          match _extract_work_data_for_author work authorship search_work_ids with
          | Some work_data =>
              Some {| seen_work_author_pairs := {[pair_key]} ∪ seen_work_author_pairs out;
                      output_rows :=
                        match row_id work_data with
                        | [] => output_rows out
                        | _ => output_rows out ++ [work_data]
                        end |}
          | None => None
          end
      else Some out
  end.

(** Lines 210-225, for one work. *)
Definition visit_work (search_ids : gset str) (search_work_ids : gset str)
    (out : Output) (work : Work) : option Output :=
  match short_id (w_id work) with
  | [] => Some out
  | work_id =>
      for_each (visit_authorship search_ids search_work_ids work work_id)
               (w_authorships work) out
  end.

(** Lines 207-225, for one author of the search results. *)
Definition visit_author (all_author_works : gmap str (list Work))
    (search_ids : gset str) (search_work_ids : gset str)
    (out : Output) (author_id : str) : option Output :=
  match all_author_works !! author_id with
  | Some works => for_each (visit_work search_ids search_work_ids) works out
  | None => Some out
  end.

(** [main]: from the items of the search results and the works fetched for
    their authors to the rows written; [None] when it raises. *)
Definition main (all_json_data : list Work)
    (all_author_works : gmap str (list Work)) : option (list Row) :=
  match _load_search_results_work_ids all_json_data with
  | None => None
  | Some search_work_ids =>
      let search_ids := search_author_ids all_json_data in
      let unique_author_ids := map fst (_extract_author_works all_json_data) in
      output_rows <$>
        for_each (visit_author all_author_works search_ids search_work_ids)
                 unique_author_ids
                 {| seen_work_author_pairs := ∅; output_rows := [] |}
  end.

(** The [(work_id, author_id)] pair of a row. *)
Definition pair_of (row : Row) : str * str := (row_id row, row_author_id row).

(** What holds of the rows and of the set of pairs seen, all along the
    loops: the rows have distinct pairs, all of them seen, and author ids of
    the search results. *)
Definition rows_ok (search_ids : gset str) (out : Output) : Prop :=
  NoDup (map pair_of (output_rows out)) ∧
  ∀ row, row ∈ output_rows out ->
    pair_of row ∈ seen_work_author_pairs out ∧ row_author_id row ∈ search_ids.

(** The authorships of the items, each with its item, in the order in which
    the loops of lines 33-34 meet them. *)
Definition edges (json_data : list Work) : list (Work * Authorship) :=
  flat_map (fun item => map (pair item) (w_authorships item)) json_data.

(** The items of an author: one for each authorship of the author, in
    order. *)
Definition items_of (author_id : str) (json_data : list Work) : list Work :=
  map fst (filter (fun e => authorship_author_id (snd e) = Some author_id)
                  (edges json_data)).

(** The set of pairs seen covers no pair without a row. *)
Definition covered (out : Output) : Prop :=
  ∀ p, p ∈ seen_work_author_pairs out -> ∃ row, row ∈ output_rows out ∧ pair_of row = p.

(** Where a row comes from: an authorship of a work fetched for an author of
    the search results. *)
Definition source_of (unique_author_ids : list str)
    (all_author_works : gmap str (list Work)) (search_work_ids : gset str)
    (row : Row) : Prop :=
  ∃ author_id works work authorship,
    author_id ∈ unique_author_ids ∧
    all_author_works !! author_id = Some works ∧
    work ∈ works ∧ authorship ∈ w_authorships work ∧
    _extract_work_data_for_author work authorship search_work_ids = Some row.

End Pairs.

(** ** A concrete character database

    The Unicode 14 data of U+0000..U+00FF (Basic Latin and Latin-1
    Supplement), of the combining diacritical marks U+0300..U+036F and of the
    few code points their decompositions and case mappings reach (U+0178,
    U+0399, U+039C, U+03A3, U+03B9, U+03BC, U+03C2, U+03C3, U+2044).  Code
    points outside this repertoire get the entry of an unassigned one; the
    examples below stay inside it. *)

Module Latin1.

Record entry := E {
  e_decomposition : list Z;
  e_combining : Z;
  e_isalnum : bool;
  e_isspace : bool;
  e_todecimal : option Z;
  e_tolower : list Z;
  e_toupper : list Z;
  e_totitle : list Z;
  e_cased : bool;
  e_case_ignorable : bool
}.

Definition unassigned (c : Z) : entry :=
  E [c] 0 false false None [c] [c] [c] false false.

Definition table : list (Z * entry) := [
  (9, E [9] 0 false true None [9] [9] [9] false false);
  (10, E [10] 0 false true None [10] [10] [10] false false);
  (11, E [11] 0 false true None [11] [11] [11] false false);
  (12, E [12] 0 false true None [12] [12] [12] false false);
  (13, E [13] 0 false true None [13] [13] [13] false false);
  (28, E [28] 0 false true None [28] [28] [28] false false);
  (29, E [29] 0 false true None [29] [29] [29] false false);
  (30, E [30] 0 false true None [30] [30] [30] false false);
  (31, E [31] 0 false true None [31] [31] [31] false false);
  (32, E [32] 0 false true None [32] [32] [32] false false);
  (39, E [39] 0 false false None [39] [39] [39] false true);
  (46, E [46] 0 false false None [46] [46] [46] false true);
  (48, E [48] 0 true false (Some 0) [48] [48] [48] false false);
  (49, E [49] 0 true false (Some 1) [49] [49] [49] false false);
  (50, E [50] 0 true false (Some 2) [50] [50] [50] false false);
  (51, E [51] 0 true false (Some 3) [51] [51] [51] false false);
  (52, E [52] 0 true false (Some 4) [52] [52] [52] false false);
  (53, E [53] 0 true false (Some 5) [53] [53] [53] false false);
  (54, E [54] 0 true false (Some 6) [54] [54] [54] false false);
  (55, E [55] 0 true false (Some 7) [55] [55] [55] false false);
  (56, E [56] 0 true false (Some 8) [56] [56] [56] false false);
  (57, E [57] 0 true false (Some 9) [57] [57] [57] false false);
  (58, E [58] 0 false false None [58] [58] [58] false true);
  (65, E [65] 0 true false None [97] [65] [65] true false);
  (66, E [66] 0 true false None [98] [66] [66] true false);
  (67, E [67] 0 true false None [99] [67] [67] true false);
  (68, E [68] 0 true false None [100] [68] [68] true false);
  (69, E [69] 0 true false None [101] [69] [69] true false);
  (70, E [70] 0 true false None [102] [70] [70] true false);
  (71, E [71] 0 true false None [103] [71] [71] true false);
  (72, E [72] 0 true false None [104] [72] [72] true false);
  (73, E [73] 0 true false None [105] [73] [73] true false);
  (74, E [74] 0 true false None [106] [74] [74] true false);
  (75, E [75] 0 true false None [107] [75] [75] true false);
  (76, E [76] 0 true false None [108] [76] [76] true false);
  (77, E [77] 0 true false None [109] [77] [77] true false);
  (78, E [78] 0 true false None [110] [78] [78] true false);
  (79, E [79] 0 true false None [111] [79] [79] true false);
  (80, E [80] 0 true false None [112] [80] [80] true false);
  (81, E [81] 0 true false None [113] [81] [81] true false);
  (82, E [82] 0 true false None [114] [82] [82] true false);
  (83, E [83] 0 true false None [115] [83] [83] true false);
  (84, E [84] 0 true false None [116] [84] [84] true false);
  (85, E [85] 0 true false None [117] [85] [85] true false);
  (86, E [86] 0 true false None [118] [86] [86] true false);
  (87, E [87] 0 true false None [119] [87] [87] true false);
  (88, E [88] 0 true false None [120] [88] [88] true false);
  (89, E [89] 0 true false None [121] [89] [89] true false);
  (90, E [90] 0 true false None [122] [90] [90] true false);
  (94, E [94] 0 false false None [94] [94] [94] false true);
  (96, E [96] 0 false false None [96] [96] [96] false true);
  (97, E [97] 0 true false None [97] [65] [65] true false);
  (98, E [98] 0 true false None [98] [66] [66] true false);
  (99, E [99] 0 true false None [99] [67] [67] true false);
  (100, E [100] 0 true false None [100] [68] [68] true false);
  (101, E [101] 0 true false None [101] [69] [69] true false);
  (102, E [102] 0 true false None [102] [70] [70] true false);
  (103, E [103] 0 true false None [103] [71] [71] true false);
  (104, E [104] 0 true false None [104] [72] [72] true false);
  (105, E [105] 0 true false None [105] [73] [73] true false);
  (106, E [106] 0 true false None [106] [74] [74] true false);
  (107, E [107] 0 true false None [107] [75] [75] true false);
  (108, E [108] 0 true false None [108] [76] [76] true false);
  (109, E [109] 0 true false None [109] [77] [77] true false);
  (110, E [110] 0 true false None [110] [78] [78] true false);
  (111, E [111] 0 true false None [111] [79] [79] true false);
  (112, E [112] 0 true false None [112] [80] [80] true false);
  (113, E [113] 0 true false None [113] [81] [81] true false);
  (114, E [114] 0 true false None [114] [82] [82] true false);
  (115, E [115] 0 true false None [115] [83] [83] true false);
  (116, E [116] 0 true false None [116] [84] [84] true false);
  (117, E [117] 0 true false None [117] [85] [85] true false);
  (118, E [118] 0 true false None [118] [86] [86] true false);
  (119, E [119] 0 true false None [119] [87] [87] true false);
  (120, E [120] 0 true false None [120] [88] [88] true false);
  (121, E [121] 0 true false None [121] [89] [89] true false);
  (122, E [122] 0 true false None [122] [90] [90] true false);
  (133, E [133] 0 false true None [133] [133] [133] false false);
  (160, E [32] 0 false true None [160] [160] [160] false false);
  (168, E [32; 776] 0 false false None [168] [168] [168] false true);
  (170, E [97] 0 true false None [170] [170] [170] true false);
  (173, E [173] 0 false false None [173] [173] [173] false true);
  (175, E [32; 772] 0 false false None [175] [175] [175] false true);
  (178, E [50] 0 true false None [178] [178] [178] false false);
  (179, E [51] 0 true false None [179] [179] [179] false false);
  (180, E [32; 769] 0 false false None [180] [180] [180] false true);
  (181, E [956] 0 true false None [181] [924] [924] true false);
  (183, E [183] 0 false false None [183] [183] [183] false true);
  (184, E [32; 807] 0 false false None [184] [184] [184] false true);
  (185, E [49] 0 true false None [185] [185] [185] false false);
  (186, E [111] 0 true false None [186] [186] [186] true false);
  (188, E [49; 8260; 52] 0 true false None [188] [188] [188] false false);
  (189, E [49; 8260; 50] 0 true false None [189] [189] [189] false false);
  (190, E [51; 8260; 52] 0 true false None [190] [190] [190] false false);
  (192, E [65; 768] 0 true false None [224] [192] [192] true false);
  (193, E [65; 769] 0 true false None [225] [193] [193] true false);
  (194, E [65; 770] 0 true false None [226] [194] [194] true false);
  (195, E [65; 771] 0 true false None [227] [195] [195] true false);
  (196, E [65; 776] 0 true false None [228] [196] [196] true false);
  (197, E [65; 778] 0 true false None [229] [197] [197] true false);
  (198, E [198] 0 true false None [230] [198] [198] true false);
  (199, E [67; 807] 0 true false None [231] [199] [199] true false);
  (200, E [69; 768] 0 true false None [232] [200] [200] true false);
  (201, E [69; 769] 0 true false None [233] [201] [201] true false);
  (202, E [69; 770] 0 true false None [234] [202] [202] true false);
  (203, E [69; 776] 0 true false None [235] [203] [203] true false);
  (204, E [73; 768] 0 true false None [236] [204] [204] true false);
  (205, E [73; 769] 0 true false None [237] [205] [205] true false);
  (206, E [73; 770] 0 true false None [238] [206] [206] true false);
  (207, E [73; 776] 0 true false None [239] [207] [207] true false);
  (208, E [208] 0 true false None [240] [208] [208] true false);
  (209, E [78; 771] 0 true false None [241] [209] [209] true false);
  (210, E [79; 768] 0 true false None [242] [210] [210] true false);
  (211, E [79; 769] 0 true false None [243] [211] [211] true false);
  (212, E [79; 770] 0 true false None [244] [212] [212] true false);
  (213, E [79; 771] 0 true false None [245] [213] [213] true false);
  (214, E [79; 776] 0 true false None [246] [214] [214] true false);
  (216, E [216] 0 true false None [248] [216] [216] true false);
  (217, E [85; 768] 0 true false None [249] [217] [217] true false);
  (218, E [85; 769] 0 true false None [250] [218] [218] true false);
  (219, E [85; 770] 0 true false None [251] [219] [219] true false);
  (220, E [85; 776] 0 true false None [252] [220] [220] true false);
  (221, E [89; 769] 0 true false None [253] [221] [221] true false);
  (222, E [222] 0 true false None [254] [222] [222] true false);
  (223, E [223] 0 true false None [223] [83; 83] [83; 115] true false);
  (224, E [97; 768] 0 true false None [224] [192] [192] true false);
  (225, E [97; 769] 0 true false None [225] [193] [193] true false);
  (226, E [97; 770] 0 true false None [226] [194] [194] true false);
  (227, E [97; 771] 0 true false None [227] [195] [195] true false);
  (228, E [97; 776] 0 true false None [228] [196] [196] true false);
  (229, E [97; 778] 0 true false None [229] [197] [197] true false);
  (230, E [230] 0 true false None [230] [198] [198] true false);
  (231, E [99; 807] 0 true false None [231] [199] [199] true false);
  (232, E [101; 768] 0 true false None [232] [200] [200] true false);
  (233, E [101; 769] 0 true false None [233] [201] [201] true false);
  (234, E [101; 770] 0 true false None [234] [202] [202] true false);
  (235, E [101; 776] 0 true false None [235] [203] [203] true false);
  (236, E [105; 768] 0 true false None [236] [204] [204] true false);
  (237, E [105; 769] 0 true false None [237] [205] [205] true false);
  (238, E [105; 770] 0 true false None [238] [206] [206] true false);
  (239, E [105; 776] 0 true false None [239] [207] [207] true false);
  (240, E [240] 0 true false None [240] [208] [208] true false);
  (241, E [110; 771] 0 true false None [241] [209] [209] true false);
  (242, E [111; 768] 0 true false None [242] [210] [210] true false);
  (243, E [111; 769] 0 true false None [243] [211] [211] true false);
  (244, E [111; 770] 0 true false None [244] [212] [212] true false);
  (245, E [111; 771] 0 true false None [245] [213] [213] true false);
  (246, E [111; 776] 0 true false None [246] [214] [214] true false);
  (248, E [248] 0 true false None [248] [216] [216] true false);
  (249, E [117; 768] 0 true false None [249] [217] [217] true false);
  (250, E [117; 769] 0 true false None [250] [218] [218] true false);
  (251, E [117; 770] 0 true false None [251] [219] [219] true false);
  (252, E [117; 776] 0 true false None [252] [220] [220] true false);
  (253, E [121; 769] 0 true false None [253] [221] [221] true false);
  (254, E [254] 0 true false None [254] [222] [222] true false);
  (255, E [121; 776] 0 true false None [255] [376] [376] true false);
  (376, E [89; 776] 0 true false None [255] [376] [376] true false);
  (768, E [768] 230 false false None [768] [768] [768] false true);
  (769, E [769] 230 false false None [769] [769] [769] false true);
  (770, E [770] 230 false false None [770] [770] [770] false true);
  (771, E [771] 230 false false None [771] [771] [771] false true);
  (772, E [772] 230 false false None [772] [772] [772] false true);
  (773, E [773] 230 false false None [773] [773] [773] false true);
  (774, E [774] 230 false false None [774] [774] [774] false true);
  (775, E [775] 230 false false None [775] [775] [775] false true);
  (776, E [776] 230 false false None [776] [776] [776] false true);
  (777, E [777] 230 false false None [777] [777] [777] false true);
  (778, E [778] 230 false false None [778] [778] [778] false true);
  (779, E [779] 230 false false None [779] [779] [779] false true);
  (780, E [780] 230 false false None [780] [780] [780] false true);
  (781, E [781] 230 false false None [781] [781] [781] false true);
  (782, E [782] 230 false false None [782] [782] [782] false true);
  (783, E [783] 230 false false None [783] [783] [783] false true);
  (784, E [784] 230 false false None [784] [784] [784] false true);
  (785, E [785] 230 false false None [785] [785] [785] false true);
  (786, E [786] 230 false false None [786] [786] [786] false true);
  (787, E [787] 230 false false None [787] [787] [787] false true);
  (788, E [788] 230 false false None [788] [788] [788] false true);
  (789, E [789] 232 false false None [789] [789] [789] false true);
  (790, E [790] 220 false false None [790] [790] [790] false true);
  (791, E [791] 220 false false None [791] [791] [791] false true);
  (792, E [792] 220 false false None [792] [792] [792] false true);
  (793, E [793] 220 false false None [793] [793] [793] false true);
  (794, E [794] 232 false false None [794] [794] [794] false true);
  (795, E [795] 216 false false None [795] [795] [795] false true);
  (796, E [796] 220 false false None [796] [796] [796] false true);
  (797, E [797] 220 false false None [797] [797] [797] false true);
  (798, E [798] 220 false false None [798] [798] [798] false true);
  (799, E [799] 220 false false None [799] [799] [799] false true);
  (800, E [800] 220 false false None [800] [800] [800] false true);
  (801, E [801] 202 false false None [801] [801] [801] false true);
  (802, E [802] 202 false false None [802] [802] [802] false true);
  (803, E [803] 220 false false None [803] [803] [803] false true);
  (804, E [804] 220 false false None [804] [804] [804] false true);
  (805, E [805] 220 false false None [805] [805] [805] false true);
  (806, E [806] 220 false false None [806] [806] [806] false true);
  (807, E [807] 202 false false None [807] [807] [807] false true);
  (808, E [808] 202 false false None [808] [808] [808] false true);
  (809, E [809] 220 false false None [809] [809] [809] false true);
  (810, E [810] 220 false false None [810] [810] [810] false true);
  (811, E [811] 220 false false None [811] [811] [811] false true);
  (812, E [812] 220 false false None [812] [812] [812] false true);
  (813, E [813] 220 false false None [813] [813] [813] false true);
  (814, E [814] 220 false false None [814] [814] [814] false true);
  (815, E [815] 220 false false None [815] [815] [815] false true);
  (816, E [816] 220 false false None [816] [816] [816] false true);
  (817, E [817] 220 false false None [817] [817] [817] false true);
  (818, E [818] 220 false false None [818] [818] [818] false true);
  (819, E [819] 220 false false None [819] [819] [819] false true);
  (820, E [820] 1 false false None [820] [820] [820] false true);
  (821, E [821] 1 false false None [821] [821] [821] false true);
  (822, E [822] 1 false false None [822] [822] [822] false true);
  (823, E [823] 1 false false None [823] [823] [823] false true);
  (824, E [824] 1 false false None [824] [824] [824] false true);
  (825, E [825] 220 false false None [825] [825] [825] false true);
  (826, E [826] 220 false false None [826] [826] [826] false true);
  (827, E [827] 220 false false None [827] [827] [827] false true);
  (828, E [828] 220 false false None [828] [828] [828] false true);
  (829, E [829] 230 false false None [829] [829] [829] false true);
  (830, E [830] 230 false false None [830] [830] [830] false true);
  (831, E [831] 230 false false None [831] [831] [831] false true);
  (832, E [768] 230 false false None [832] [832] [832] false true);
  (833, E [769] 230 false false None [833] [833] [833] false true);
  (834, E [834] 230 false false None [834] [834] [834] false true);
  (835, E [787] 230 false false None [835] [835] [835] false true);
  (836, E [776; 769] 230 false false None [836] [836] [836] false true);
  (837, E [837] 240 false false None [837] [921] [921] false true);
  (838, E [838] 230 false false None [838] [838] [838] false true);
  (839, E [839] 220 false false None [839] [839] [839] false true);
  (840, E [840] 220 false false None [840] [840] [840] false true);
  (841, E [841] 220 false false None [841] [841] [841] false true);
  (842, E [842] 230 false false None [842] [842] [842] false true);
  (843, E [843] 230 false false None [843] [843] [843] false true);
  (844, E [844] 230 false false None [844] [844] [844] false true);
  (845, E [845] 220 false false None [845] [845] [845] false true);
  (846, E [846] 220 false false None [846] [846] [846] false true);
  (847, E [847] 0 false false None [847] [847] [847] false true);
  (848, E [848] 230 false false None [848] [848] [848] false true);
  (849, E [849] 230 false false None [849] [849] [849] false true);
  (850, E [850] 230 false false None [850] [850] [850] false true);
  (851, E [851] 220 false false None [851] [851] [851] false true);
  (852, E [852] 220 false false None [852] [852] [852] false true);
  (853, E [853] 220 false false None [853] [853] [853] false true);
  (854, E [854] 220 false false None [854] [854] [854] false true);
  (855, E [855] 230 false false None [855] [855] [855] false true);
  (856, E [856] 232 false false None [856] [856] [856] false true);
  (857, E [857] 220 false false None [857] [857] [857] false true);
  (858, E [858] 220 false false None [858] [858] [858] false true);
  (859, E [859] 230 false false None [859] [859] [859] false true);
  (860, E [860] 233 false false None [860] [860] [860] false true);
  (861, E [861] 234 false false None [861] [861] [861] false true);
  (862, E [862] 234 false false None [862] [862] [862] false true);
  (863, E [863] 233 false false None [863] [863] [863] false true);
  (864, E [864] 234 false false None [864] [864] [864] false true);
  (865, E [865] 234 false false None [865] [865] [865] false true);
  (866, E [866] 233 false false None [866] [866] [866] false true);
  (867, E [867] 230 false false None [867] [867] [867] false true);
  (868, E [868] 230 false false None [868] [868] [868] false true);
  (869, E [869] 230 false false None [869] [869] [869] false true);
  (870, E [870] 230 false false None [870] [870] [870] false true);
  (871, E [871] 230 false false None [871] [871] [871] false true);
  (872, E [872] 230 false false None [872] [872] [872] false true);
  (873, E [873] 230 false false None [873] [873] [873] false true);
  (874, E [874] 230 false false None [874] [874] [874] false true);
  (875, E [875] 230 false false None [875] [875] [875] false true);
  (876, E [876] 230 false false None [876] [876] [876] false true);
  (877, E [877] 230 false false None [877] [877] [877] false true);
  (878, E [878] 230 false false None [878] [878] [878] false true);
  (879, E [879] 230 false false None [879] [879] [879] false true);
  (921, E [921] 0 true false None [953] [921] [921] true false);
  (924, E [924] 0 true false None [956] [924] [924] true false);
  (931, E [931] 0 true false None [963] [931] [931] true false);
  (953, E [953] 0 true false None [953] [921] [921] true false);
  (956, E [956] 0 true false None [956] [924] [924] true false);
  (962, E [962] 0 true false None [962] [931] [931] true false);
  (963, E [963] 0 true false None [963] [931] [931] true false)
].

Fixpoint find_entry (c : Z) (t : list (Z * entry)) : option entry :=
  match t with
  | (k, e) :: r => if k =? c then Some e else find_entry c r
  | [] => None
  end.

Definition entry_of (c : Z) : entry :=
  match find_entry c table with
  | Some e => e
  | None => unassigned c
  end.

Definition data : UnicodeData := {|
  decomposition c := e_decomposition (entry_of c);
  combining c := e_combining (entry_of c);
  isalnum c := e_isalnum (entry_of c);
  isspace c := e_isspace (entry_of c);
  todecimal c := e_todecimal (entry_of c);
  tolower c := e_tolower (entry_of c);
  toupper c := e_toupper (entry_of c);
  totitle c := e_totitle (entry_of c);
  cased c := e_cased (entry_of c);
  case_ignorable c := e_case_ignorable (entry_of c)
|}.

End Latin1.

(** ** Sample inputs *)

Module Examples.

Definition row (author_name id author_id cited_by_count institutions : string)
  : Aggregate.Row :=
  {| Aggregate.row_author_name := u author_name;
     Aggregate.row_id := u id;
     Aggregate.row_author_id := u author_id;
     Aggregate.row_source_id := u "S1";
     Aggregate.row_references_israel := u "Yes";
     Aggregate.row_cited_by_count := Some (u cited_by_count);
     Aggregate.row_publication_date := u "2020-05-17";
     Aggregate.row_institutions := u institutions;
     Aggregate.row_countries := u "IL";
     Aggregate.row_affiliations_comment := [] |}.

(** The same author and work twice; the first citation count is no integer. *)
Definition rows_unreadable_count : list Aggregate.Row :=
  [row "A. Author" "W1" "A1" "n/a" "MIT"; row "A. Author" "W1" "A1" "5" "MIT"].

(** The same [(work_id, author_id)] twice, with two affiliations. *)
Definition rows_same_pair : list Aggregate.Row :=
  [row "A. Author" "W1" "A1" "5" "MIT"; row "A. Author" "W1" "A1" "5" "Yale"].

(** Two spellings of one author, on two works. *)
Definition rows_two_spellings : list Aggregate.Row :=
  [row "J. Smith" "W1" "A1" "3" "MIT"; row "j smith" "W2" "A1" "4" "MIT"].

(** A row with a white-space author name. *)
Definition row_blank_name : Aggregate.Row := row "   " "W1" "A1" "5" "MIT".

(** Some work of the API. *)
Definition work (id : string) : Json.Work :=
  {| Json.w_id := Some (u id); Json.w_doi := Some []; Json.w_title := Some [];
     Json.w_publication_date := Some []; Json.w_source := None;
     Json.w_authorships := []; Json.w_cited_by_count := Some 0;
     Json.w_keywords := Some [] |}.

(** A server with two pages for every author: 200 works and a cursor, then
    one work and no cursor. *)
Definition server_two_pages : Fetch.Server :=
  fun author_id page cursor =>
    match page with
    | O => {| Fetch.status := 200; Fetch.results := replicate 200 (work "W1");
              Fetch.next_cursor := Some (u "c2") |}
    | _ => {| Fetch.status := 200; Fetch.results := [work "W2"];
              Fetch.next_cursor := None |}
    end.

(** A server that fails on the second page of author A1 and serves the
    [works_b] in one page to every other author. *)
Definition server_failing (works_b : list Json.Work) : Fetch.Server :=
  fun author_id page cursor =>
    if bool_decide (author_id = u "A1")
    then match page with
         | O => {| Fetch.status := 200; Fetch.results := replicate 200 (work "W1");
                   Fetch.next_cursor := Some (u "c2") |}
         | _ => {| Fetch.status := 500; Fetch.results := [];
                   Fetch.next_cursor := None |}
         end
    else {| Fetch.status := 200; Fetch.results := works_b;
            Fetch.next_cursor := None |}.

(** A server whose every answer is a full page with a cursor. *)
Definition server_endless : Fetch.Server :=
  fun author_id page cursor =>
    {| Fetch.status := 200; Fetch.results := replicate 200 (work "W1");
       Fetch.next_cursor := Some (u "more") |}.

(** An authorship with an author, a raw name and one institution. *)
Definition authorship (author_id raw_author_name institution : string)
  : Json.Authorship :=
  {| Json.as_author := Some {| Json.a_id := Some (u author_id) |};
     Json.as_raw_author_name := Some (u raw_author_name);
     Json.as_institutions :=
       Some [Some {| Columns.i_display_name := Some (u institution) |}];
     Json.as_countries := Some [Some (u "IL")];
     Json.as_raw_affiliation_strings := [Some (u institution)] |}.

Definition journal : Json.Source :=
  {| Json.so_id := Some (u "https://openalex.org/S1");
     Json.so_display_name := Some (u "A Journal") |}.

(** A work with two authorships of author A1 and one of author A9. *)
Definition work_of_two : Json.Work :=
  {| Json.w_id := Some (u "https://openalex.org/W1");
     Json.w_doi := Some (u "https://doi.org/10.1/w1");
     Json.w_title := Some (u "A Title");
     Json.w_publication_date := Some (u "2020-05-17");
     Json.w_source := Some journal;
     Json.w_authorships :=
       [ authorship "https://openalex.org/A1" "A. Author" "MIT";
         authorship "https://openalex.org/A9" "'N. Other'" "Yale";
         authorship "https://openalex.org/A1" "Author, A." "MIT" ];
     Json.w_cited_by_count := Some 3;
     Json.w_keywords :=
       Some [ Some {| Json.kw_display_name := Some (u "History") |};
              Some {| Json.kw_display_name := None |};
              Some {| Json.kw_display_name := Some (u "Press") |} ] |}.

(** The row of [work_of_two] and its first authorship. *)
Definition row_of_two : Pairs.Row :=
  {| Pairs.row_id := u "W1";
     Pairs.row_doi := Some (u "https://doi.org/10.1/w1");
     Pairs.row_title := Some (u "A Title");
     Pairs.row_publication_date := Some (u "2020-05-17");
     Pairs.row_source_id := u "S1";
     Pairs.row_journal_name := Some (u "A Journal");
     Pairs.row_author_name := u "A. Author";
     Pairs.row_author_id := u "A1";
     Pairs.row_additional_author_names := u "N. Other";
     Pairs.row_institutions := u "MIT";
     Pairs.row_countries := u "IL";
     Pairs.row_affiliations_comment := [];
     Pairs.row_cited_by_count := Some 3;
     Pairs.row_keywords := u "History;Press";
     Pairs.row_references_israel := u "No" |}.

(** The same work, but the id of its source is [null]. *)
Definition work_null_source_id : Json.Work :=
  {| Json.w_id := Some (u "https://openalex.org/W1");
     Json.w_doi := Some []; Json.w_title := Some [];
     Json.w_publication_date := Some [];
     Json.w_source :=
       Some {| Json.so_id := None; Json.so_display_name := Some (u "A Journal") |};
     Json.w_authorships := [ authorship "https://openalex.org/A1" "A. Author" "MIT" ];
     Json.w_cited_by_count := Some 3;
     Json.w_keywords := Some [] |}.

(** The search results: one work, by author A1 alone. *)
Definition search_results : list Json.Work :=
  [ {| Json.w_id := Some (u "https://openalex.org/W0");
       Json.w_doi := Some []; Json.w_title := Some [];
       Json.w_publication_date := Some []; Json.w_source := None;
       Json.w_authorships := [ authorship "https://openalex.org/A1" "A. Author" "MIT" ];
       Json.w_cited_by_count := Some 1;
       Json.w_keywords := Some [] |} ].

(** A server that answers every request with the same single page. *)
Definition server_one_page (works : list Json.Work) : Fetch.Server :=
  fun author_id page cursor =>
    {| Fetch.status := 200; Fetch.results := works; Fetch.next_cursor := None |}.

End Examples.

(** * Properties *)

(** ** The aggregator *)

Module AggregateTheory.
Import Aggregate.

Section Theory.
Variable U : UnicodeData.

Abbreviation normalize_name := (Normalizer.normalize_name U).

Lemma lstrip_blank (s : str) :
  Forall (fun c => isspace U c = true) s -> Py.lstrip U s = [].
Proof.
  induction 1 as [|c s Hc _ IH]; simpl; [done|]. by rewrite Hc.
Qed.

Lemma strip_blank (s : str) :
  Forall (fun c => isspace U c = true) s -> Py.strip U s = [].
Proof.
  intros H. unfold Py.strip, Py.rstrip. by rewrite (lstrip_blank _ H).
Qed.

Lemma sighting_None st row :
  sighting U st row = None ->
  Py.strip U (row_author_name row) = [] ∨ Py.strip U (row_id row) = [].
Proof.
  unfold sighting.
  destruct (Py.strip U (row_author_name row)); [by left|].
  destruct (Py.strip U (row_id row)); [by right|done].
Qed.

Lemma process_row_skipped st row :
  Py.strip U (row_author_name row) = [] ∨ Py.strip U (row_id row) = [] ->
  process_row U st row = st.
Proof.
  unfold process_row. intros [-> | H]; [done|].
  rewrite H. by destruct (Py.strip U (row_author_name row)).
Qed.

Lemma sighting_Some st row s :
  sighting U st row = Some s ->
  s_name s = Py.strip U (row_author_name row) ∧
  s_work_id s = Py.strip U (row_id row) ∧
  s_row s = row ∧ s_name s <> [] ∧ s_work_id s <> [] ∧
  s_group s = fst (resolve U st (s_name s)).
Proof.
  unfold sighting.
  destruct (Py.strip U (row_author_name row)) eqn:Hn; [done|].
  destruct (Py.strip U (row_id row)) eqn:Hw; [done|].
  intros [= <-]. simpl. by repeat split.
Qed.

(** The state after a sighted row, in terms of [resolve] and [accumulate]. *)
Lemma process_row_sighted st row s :
  sighting U st row = Some s ->
  let st' := snd (resolve U st (s_name s)) in
  let g := s_group s in
  process_row U st row =
    {| normalized_to_group_id := normalized_to_group_id st';
       name_to_group_id := name_to_group_id st';
       group_id_counter := group_id_counter st';
       group_normalized_names := group_normalized_names st';
       author_data :=
         <[g := accumulate U row (s_work_id s)
                  (default new_author_data (author_data st' !! g))]> (author_data st');
       author_data_keys :=
         match author_data st' !! g with
         | Some _ => author_data_keys st'
         | None => author_data_keys st' ++ [g]
         end |}.
Proof.
  intros Hs. destruct (sighting_Some _ _ _ Hs) as (Hn & Hw & _ & Hn0 & Hw0 & Hg).
  cbv zeta. unfold process_row. rewrite <- Hn, <- Hw, Hg.
  destruct (s_name s) eqn:En; [done|]. destruct (s_work_id s) eqn:Ew; [done|].
  destruct (resolve U st (z :: l)) as [g st']. simpl.
  by destruct (author_data st' !! g).
Qed.

Lemma resolve_author_data st name :
  author_data (snd (resolve U st name)) = author_data st ∧
  author_data_keys (snd (resolve U st name)) = author_data_keys st.
Proof.
  unfold resolve. destruct (name_to_group_id st !! name); [done|].
  by destruct (normalized_to_group_id st !! _).
Qed.

Lemma sightings_from_app st rows1 rows2 :
  sightings_from U st (rows1 ++ rows2) =
  sightings_from U st rows1 ++ sightings_from U (fold_left (process_row U) rows1 st) rows2.
Proof.
  revert st. induction rows1 as [|r rows1 IH]; intros st; simpl; [done|].
  rewrite IH. by destruct (sighting U st r).
Qed.

Lemma sightings_snoc rows row :
  sightings U (rows ++ [row]) =
  sightings U rows ++ option_list (sighting U (process_rows U rows) row).
Proof.
  unfold sightings. rewrite sightings_from_app. by f_equal.
Qed.

Lemma process_rows_snoc rows row :
  process_rows U (rows ++ [row]) = process_row U (process_rows U rows) row.
Proof. unfold process_rows. by rewrite fold_left_app. Qed.

Lemma keys_of_snoc tr s :
  keys_of U (tr ++ [s]) = {[normalize_name (s_name s)]} ∪ keys_of U tr.
Proof.
  unfold keys_of. rewrite map_app, list_to_set_app_L. simpl. set_solver.
Qed.

Lemma elem_of_keys_of tr k :
  k ∈ keys_of U tr <-> ∃ s, s ∈ tr ∧ normalize_name (s_name s) = k.
Proof.
  unfold keys_of. rewrite elem_of_list_to_set, list_elem_of_fmap. naive_solver.
Qed.

(** What holds of the state after the rows sighted as [tr]. *)
Record invariant (st : State) (tr : list Sighting) : Prop := {
  inv_names : ∀ k g,
    normalized_to_group_id st !! k = Some g <-> group_normalized_names st !! g = Some k;
  inv_below : ∀ k g,
    normalized_to_group_id st !! k = Some g -> (g < group_id_counter st)%nat;
  inv_cache : ∀ n g,
    name_to_group_id st !! n = Some g ->
    normalized_to_group_id st !! normalize_name n = Some g;
  inv_keys : dom (normalized_to_group_id st) = keys_of U tr;
  inv_counter : group_id_counter st = size (keys_of U tr);
  inv_trace : ∀ s, s ∈ tr ->
    normalized_to_group_id st !! normalize_name (s_name s) = Some (s_group s);
  inv_data : ∀ g, is_Some (author_data st !! g) <-> ∃ s, s ∈ tr ∧ s_group s = g;
  inv_order : ∀ g, g ∈ author_data_keys st <-> is_Some (author_data st !! g)
}.

Lemma invariant_initial : invariant initial [].
Proof.
  split; simpl; try done.
  - intros s Hs. by apply elem_of_nil in Hs.
  - intros g. rewrite lookup_empty. split; [by intros [? ?]|].
    intros (s & Hs & _). by apply elem_of_nil in Hs.
  - intros g. rewrite lookup_empty, elem_of_nil. split; [done|by intros [? ?]].
Qed.

(** [resolve] reuses the group of a known key and numbers a new key with
    the counter. *)
Lemma resolve_spec st tr name :
  invariant st tr ->
  let k := normalize_name name in
  let g := fst (resolve U st name) in
  let st' := snd (resolve U st name) in
  (normalized_to_group_id st !! k = Some g ∧
   normalized_to_group_id st' = normalized_to_group_id st ∧
   group_normalized_names st' = group_normalized_names st ∧
   group_id_counter st' = group_id_counter st
   ∨
   normalized_to_group_id st !! k = None ∧ g = group_id_counter st ∧
   normalized_to_group_id st' = <[k := g]> (normalized_to_group_id st) ∧
   group_normalized_names st' = <[g := k]> (group_normalized_names st) ∧
   group_id_counter st' = S (group_id_counter st)) ∧
  (∀ n g', name_to_group_id st' !! n = Some g' ->
     n = name ∧ g' = g ∨ name_to_group_id st !! n = Some g') ∧
  name_to_group_id st' !! name = Some g.
Proof.
  intros Inv k g st'. subst g st'. unfold resolve.
  destruct (name_to_group_id st !! name) as [g|] eqn:Hc; simpl.
  { split; [left; split_and!; try done; by apply (inv_cache _ _ Inv)|].
    split; [by right|done]. }
  fold k. destruct (normalized_to_group_id st !! k) as [g|] eqn:Hk; simpl.
  - split; [by left|]. split; [|by rewrite lookup_insert_eq].
    intros n g'. rewrite lookup_insert. case_decide; naive_solver.
  - split; [by right|]. split; [|by rewrite lookup_insert_eq].
    intros n g'. rewrite lookup_insert. case_decide; naive_solver.
Qed.

Lemma invariant_step st tr row :
  invariant st tr ->
  invariant (process_row U st row) (tr ++ option_list (sighting U st row)).
Proof.
  intros Inv. destruct (sighting U st row) as [s|] eqn:Hs; simpl.
  2:{ rewrite app_nil_r, process_row_skipped; [done|by apply (sighting_None st)]. }
  rewrite (process_row_sighted _ _ _ Hs). cbv zeta.
  destruct (sighting_Some _ _ _ Hs) as (_ & _ & _ & _ & _ & Hg).
  destruct (resolve_spec st tr (s_name s) Inv) as (Hcase & Hcache & _).
  destruct (resolve_author_data st (s_name s)) as [Hd Ho].
  rewrite <- Hg in Hcase, Hcache.
  set (st' := snd (resolve U st (s_name s))) in *.
  set (k := normalize_name (s_name s)) in *.
  assert (Hkeys : dom (normalized_to_group_id st') = keys_of U (tr ++ [s])).
  { rewrite keys_of_snoc. fold k. rewrite <- (inv_keys _ _ Inv).
    destruct Hcase as [(Hk & -> & _)|(Hk & _ & -> & _)].
    - apply elem_of_dom_2 in Hk. set_solver.
    - by rewrite dom_insert_L. }
  assert (Hlook : normalized_to_group_id st' !! k = Some (s_group s)).
  { destruct Hcase as [(Hk & -> & _)|(Hk & _ & -> & _)]; [done|].
    by rewrite lookup_insert_eq. }
  assert (Hmono : ∀ k' g', normalized_to_group_id st !! k' = Some g' ->
                           normalized_to_group_id st' !! k' = Some g').
  { intros k' g' H. destruct Hcase as [(Hk & -> & _)|(Hk & _ & -> & _)]; [done|].
    rewrite lookup_insert_ne; [done|]. intros <-. congruence. }
  split; simpl.
  - intros k' g'. destruct Hcase as [(Hk & -> & -> & _)|(Hk & Hgc & -> & -> & _)].
    + apply (inv_names _ _ Inv).
    + destruct (decide (k = k')) as [<-|Hkk], (decide (s_group s = g')) as [<-|Hgg].
      * by rewrite !lookup_insert_eq.
      * rewrite lookup_insert_eq, lookup_insert_ne by done.
        split; [congruence|]. intros H. apply (inv_names _ _ Inv) in H. congruence.
      * rewrite lookup_insert_eq, lookup_insert_ne by done.
        split; [|congruence]. intros H. apply (inv_below _ _ Inv) in H. lia.
      * rewrite !lookup_insert_ne by done. apply (inv_names _ _ Inv).
  - intros k' g'. destruct Hcase as [(Hk & -> & _ & ->)|(Hk & Hgc & -> & _ & ->)].
    + apply (inv_below _ _ Inv).
    + rewrite lookup_insert. case_decide; [intros [= <-]; lia|].
      intros Hl. apply (inv_below _ _ Inv) in Hl. lia.
  - intros n g' H. destruct (Hcache _ _ H) as [[-> ->]|H']; [done|].
    apply Hmono. by apply (inv_cache _ _ Inv).
  - done.
  - rewrite keys_of_snoc. fold k.
    destruct Hcase as [(Hk & _ & _ & ->)|(Hk & Hgc & _ & _ & ->)].
    + rewrite (inv_counter _ _ Inv). f_equal.
      apply elem_of_dom_2 in Hk. rewrite (inv_keys _ _ Inv) in Hk. set_solver.
    + rewrite (inv_counter _ _ Inv), size_union, size_singleton; [done|].
      apply not_elem_of_dom in Hk. rewrite (inv_keys _ _ Inv) in Hk. set_solver.
  - intros s'. rewrite elem_of_app, list_elem_of_singleton. intros [H| ->]; [|done].
    apply Hmono. by apply (inv_trace _ _ Inv).
  - intros g. rewrite Hd, lookup_insert. case_decide as Hgg.
    + subst g. split; [|by eauto]. intros _. exists s. split; [|done].
      rewrite elem_of_app, list_elem_of_singleton. by right.
    + rewrite (inv_data _ _ Inv). split; intros (s' & Hin & Hg').
      * exists s'. split; [|done]. rewrite elem_of_app. by left.
      * exists s'. split; [|done].
        rewrite elem_of_app, list_elem_of_singleton in Hin.
        destruct Hin as [?| ->]; [done|congruence].
  - intros g. rewrite Hd, Ho, lookup_insert.
    destruct (author_data st !! s_group s) as [d|] eqn:Hdg.
    + rewrite (inv_order _ _ Inv). case_decide; [subst; split; eauto|done].
    + rewrite elem_of_app, list_elem_of_singleton, (inv_order _ _ Inv).
      case_decide; [subst; split; eauto|]. split; [|by left].
      intros [?|?]; [done|congruence].
Qed.

Lemma invariant_rows rows : invariant (process_rows U rows) (sightings U rows).
Proof.
  induction rows as [|row rows IH] using rev_ind; [apply invariant_initial|].
  rewrite process_rows_snoc, sightings_snoc. by apply invariant_step.
Qed.

Lemma elem_of_insert_by_works_count x y l :
  x ∈ insert_by_works_count y l <-> x = y ∨ x ∈ l.
Proof.
  induction l as [|z l IH]; simpl.
  - rewrite list_elem_of_singleton, elem_of_nil. tauto.
  - destruct (_ <=? _)%nat.
    + by rewrite elem_of_cons.
    + rewrite !elem_of_cons, IH. tauto.
Qed.

Lemma elem_of_sort_by_works_count x l :
  x ∈ sort_by_works_count l <-> x ∈ l.
Proof.
  induction l as [|y l IH]; simpl; [done|].
  by rewrite elem_of_insert_by_works_count, elem_of_cons, IH.
Qed.

Lemma split_snoc {A} (l1 l2 t : list A) (x y : A) :
  l1 ++ x :: l2 = t ++ [y] ->
  (l2 = [] ∧ l1 = t ∧ x = y) ∨ (∃ l2', l2 = l2' ++ [y] ∧ t = l1 ++ x :: l2').
Proof.
  destruct l2 as [|z l2 _] using rev_ind.
  - intros H. left. apply app_inj_tail in H. naive_solver.
  - intros H. right. exists l2.
    change (l1 ++ x :: l2 ++ [z]) with (l1 ++ (x :: l2) ++ [z]) in H.
    rewrite app_assoc in H. apply app_inj_tail in H. naive_solver.
Qed.

(** A new key is numbered with the count of the keys before it. *)
Lemma first_sighting_numbered rows tr1 s tr2 :
  sightings U rows = tr1 ++ s :: tr2 ->
  normalize_name (s_name s) ∉ keys_of U tr1 ->
  s_group s = size (keys_of U tr1).
Proof.
  revert tr1 s tr2. induction rows as [|row rows IH] using rev_ind; intros tr1 s tr2.
  { intros H. by destruct tr1. }
  rewrite sightings_snoc.
  destruct (sighting U (process_rows U rows) row) as [s0|] eqn:Hs0; simpl.
  2:{ rewrite app_nil_r. apply IH. }
  intros Hsplit Hnew. symmetry in Hsplit.
  apply split_snoc in Hsplit as [(_ & -> & ->)|(tr2' & _ & Ht)].
  2:{ by apply (IH _ _ _ Ht). }
  pose proof (invariant_rows rows) as Inv.
  destruct (sighting_Some _ _ _ Hs0) as (_ & _ & _ & _ & _ & Hg).
  destruct (resolve_spec _ _ (s_name s0) Inv) as ([(Hk & _)|(_ & Hc & _)] & _).
  - apply elem_of_dom_2 in Hk. by rewrite (inv_keys _ _ Inv) in Hk.
  - by rewrite Hg, Hc, (inv_counter _ _ Inv).
Qed.

(** C9 (amended). A row whose author name is empty or made of white space
    only raises no error and is passed over: it is no sighting, the state
    is left as it was, and the output is that of the rows without it. *)
Theorem blank_author_name_skipped (row : Row) :
  Forall (fun c => isspace U c = true) (row_author_name row) ->
  (∀ st, sighting U st row = None ∧ process_row U st row = st) ∧
  (∀ rows1 rows2,
     aggregate_authors U (rows1 ++ row :: rows2) = aggregate_authors U (rows1 ++ rows2)).
Proof.
  intros Hblank. apply strip_blank in Hblank.
  assert (Hskip : ∀ st, process_row U st row = st).
  { intros st. apply process_row_skipped. by left. }
  split.
  - intros st. split; [|done]. unfold sighting. by rewrite Hblank.
  - intros rows1 rows2. unfold aggregate_authors, process_rows.
    rewrite !fold_left_app. simpl. by rewrite Hskip.
Qed.

(** *** Citation counts *)

Lemma filter_none {A} (P : A -> Prop) `{∀ x, Decision (P x)} (l : list A) :
  (∀ x, x ∈ l -> ¬ P x) -> filter P l = [].
Proof.
  induction l as [|x l IH]; intros Hl; [done|].
  rewrite filter_cons, decide_False; [|apply Hl; by left].
  apply IH. intros y Hy. apply Hl. by right.
Qed.

Lemma sum_values_insert (m : gmap str Z) w v :
  m !! w = None -> sum_values (<[w := v]> m) = v + sum_values m.
Proof.
  intros H. unfold sum_values. rewrite map_fold_insert_L; [done| |done].
  intros. lia.
Qed.

Lemma sum_over_insert (X : gset str) (f : str -> Z) w :
  w ∉ X -> sum_over ({[w]} ∪ X) f = f w + sum_over X f.
Proof.
  intros H. unfold sum_over.
  change (f w + foldr (fun w acc => f w + acc) 0 (elements X))
    with (foldr (fun w acc => f w + acc) 0 (w :: elements X)).
  apply (foldr_permutation_proper (=)); [intros ? ? ? ->; done|intros; lia|].
  by apply elements_union_singleton.
Qed.

Lemma sum_over_ext (X : gset str) (f f' : str -> Z) :
  (∀ w, w ∈ X -> f w = f' w) -> sum_over X f = sum_over X f'.
Proof.
  intros H. unfold sum_over.
  assert (Hel : ∀ w, w ∈ elements X -> f w = f' w).
  { intros w Hw. apply H. by apply elem_of_elements. }
  induction (elements X) as [|w l IH]; simpl; [done|].
  rewrite IH, Hel; [done|by left|]. intros w' Hw'. apply Hel. by right.
Qed.

(** The sum of the values of a dictionary, as a sum over any set that holds
    its keys. *)
Lemma sum_values_sum_over (m : gmap str Z) (X : gset str) :
  dom m ⊆ X -> sum_values m = sum_over X (fun w => default 0 (m !! w)).
Proof.
  revert m. induction X as [|w X Hw IH] using set_ind_L; intros m Hdom.
  - assert (m = ∅) as -> by (apply dom_empty_inv_L; set_solver).
    unfold sum_values, sum_over. by rewrite map_fold_empty, elements_empty.
  - rewrite sum_over_insert by done.
    destruct (m !! w) as [v|] eqn:Hm; simpl.
    + rewrite <- (insert_delete_id m w v Hm) at 1.
      rewrite sum_values_insert by apply lookup_delete_eq.
      rewrite (IH (delete w m)).
      * f_equal. apply sum_over_ext. intros w' Hw'.
        rewrite lookup_delete_ne; [done|]. by intros ->.
      * rewrite dom_delete_L. set_solver.
    + rewrite (IH m); [done|]. apply not_elem_of_dom in Hm. set_solver.
Qed.

Lemma first_cited_by_snoc g w tr s :
  first_cited_by U g w (tr ++ [s]) =
  match first_cited_by U g w tr with
  | Some n => Some n
  | None => if decide (of_work g w s) then cited_by U (s_row s) else None
  end.
Proof.
  unfold first_cited_by. rewrite filter_app, omap_app, head_app.
  destruct (head _); [done|]. rewrite filter_cons, filter_nil.
  case_decide; simpl; [|done]. by destruct (cited_by U (s_row s)).
Qed.

(** What the data of a group hold after the rows sighted as [tr]. *)
Record data_invariant (st : State) (tr : list Sighting) : Prop := {
  di_work_ids : ∀ g data w, author_data st !! g = Some data ->
    (w ∈ work_ids data <-> ∃ s, s ∈ tr ∧ of_work g w s);
  di_cited : ∀ g data w, author_data st !! g = Some data ->
    cited_by_per_work data !! w = first_cited_by U g w tr;
  di_cited_dom : ∀ g data, author_data st !! g = Some data ->
    dom (cited_by_per_work data) ⊆ work_ids data
}.

Lemma data_invariant_step st tr row :
  invariant st tr -> data_invariant st tr ->
  data_invariant (process_row U st row) (tr ++ option_list (sighting U st row)).
Proof.
  intros Inv DI. destruct (sighting U st row) as [s|] eqn:Hs; simpl.
  2:{ rewrite app_nil_r, process_row_skipped; [done|by apply (sighting_None st)]. }
  pose proof (process_row_sighted _ _ _ Hs) as Hp. cbv zeta in Hp.
  destruct (resolve_author_data st (s_name s)) as [Hd _]. rewrite Hd in Hp.
  destruct (sighting_Some _ _ _ Hs) as (_ & _ & Hrow & _ & _ & _).
  set (g0 := s_group s) in *. set (w0 := s_work_id s) in *.
  set (d0 := default new_author_data (author_data st !! g0)) in *.
  assert (Hold_w : ∀ w, w ∈ work_ids d0 <-> ∃ s', s' ∈ tr ∧ of_work g0 w s').
  { intros w. subst d0. destruct (author_data st !! g0) as [d|] eqn:Hd0; simpl.
    - by apply (di_work_ids _ _ DI).
    - split; [set_solver|]. intros (s' & Hin & Hg & _).
      assert (is_Some (author_data st !! g0)) as [? ?]; [|congruence].
      apply (inv_data _ _ Inv). by exists s'. }
  assert (Hold_c : ∀ w, cited_by_per_work d0 !! w = first_cited_by U g0 w tr).
  { intros w. subst d0. destruct (author_data st !! g0) as [d|] eqn:Hd0; simpl.
    - by apply (di_cited _ _ DI).
    - rewrite lookup_empty. unfold first_cited_by.
      rewrite filter_none; [done|]. intros s' Hin [Hg _].
      assert (is_Some (author_data st !! g0)) as [? ?]; [|congruence].
      apply (inv_data _ _ Inv). by exists s'. }
  assert (Hold_d : dom (cited_by_per_work d0) ⊆ work_ids d0).
  { subst d0. destruct (author_data st !! g0) as [d|] eqn:Hd0; simpl.
    - by apply (di_cited_dom _ _ DI g0).
    - set_solver. }
  split; intros g data; rewrite Hp; simpl; rewrite lookup_insert; case_decide as Hg.
  - subst g. intros w [= <-]. simpl. rewrite elem_of_union, elem_of_singleton, Hold_w.
    split.
    + intros [-> | (s' & Hin & Hof)].
      * exists s. split; [set_solver|done].
      * exists s'. split; [set_solver|done].
    + intros (s' & Hin & Hof). apply elem_of_app in Hin as [Hin|Hin].
      * right. by exists s'.
      * apply list_elem_of_singleton in Hin as ->. left. by destruct Hof.
  - intros w Hdata. rewrite (di_work_ids _ _ DI g data w Hdata).
    split; intros (s' & Hin & Hof); exists s'; (split; [|done]).
    + set_solver.
    + apply elem_of_app in Hin as [Hin|Hin]; [done|].
      apply list_elem_of_singleton in Hin as ->. by destruct Hof.
  - subst g. intros w [= <-]. simpl. rewrite first_cited_by_snoc, <- Hold_c, Hrow.
    destruct (cited_by U row) as [n|] eqn:Hn.
    + destruct (cited_by_per_work d0 !! w0) as [v|] eqn:Hw0.
      * destruct (cited_by_per_work d0 !! w) eqn:Hw; [done|].
        case_decide as Hof; [|done]. destruct Hof as [_ Hof]. fold w0 in Hof. congruence.
      * rewrite lookup_insert. case_decide as Hww.
        -- subst w. rewrite Hw0. rewrite decide_True; done.
        -- destruct (cited_by_per_work d0 !! w); [done|].
           rewrite decide_False; [done|]. intros [_ Hof]. by apply Hww.
    + destruct (cited_by_per_work d0 !! w); [done|]. by case_decide.
  - intros w Hdata. rewrite first_cited_by_snoc, <- (di_cited _ _ DI g data w Hdata).
    destruct (cited_by_per_work data !! w); [done|].
    rewrite decide_False; [done|]. intros [Hof _]. by apply Hg.
  - intros [= <-]. simpl.
    destruct (cited_by U row); [|set_solver].
    destruct (cited_by_per_work d0 !! w0); [set_solver|].
    rewrite dom_insert_L. set_solver.
  - apply (di_cited_dom _ _ DI).
Qed.

Lemma data_invariant_rows rows :
  data_invariant (process_rows U rows) (sightings U rows).
Proof.
  induction rows as [|row rows IH] using rev_ind.
  - split; intros g data; unfold process_rows; simpl; by rewrite lookup_empty.
  - rewrite process_rows_snoc, sightings_snoc.
    apply data_invariant_step; [apply invariant_rows|done].
Qed.

Lemma first_row_cited_by_eq g w tr :
  (∀ s, s ∈ tr -> is_Some (cited_by U (s_row s))) ->
  first_cited_by U g w tr = first_row_cited_by U g w tr.
Proof.
  intros Hall. unfold first_cited_by, first_row_cited_by.
  induction tr as [|s tr IH]; [done|].
  rewrite filter_cons. case_decide.
  - simpl. destruct (Hall s) as [n Hn]; [by left|]. by rewrite Hn.
  - apply IH. intros s' Hs'. apply Hall. by right.
Qed.

(** C3 (amended). The [cited_by_count] of an author group is the sum, over
    the distinct work ids attributed to the group, of one citation value
    each: that of the first row of the group and work id whose count reads
    as an integer (nothing when no row of them does), however often the
    work id recurs.  When every count reads as an integer, this is the value
    of the first row seen for the group and work id. *)
Theorem cited_by_count_first_integer_value (rows : list Row) (g : nat)
    (data : AuthorData) :
  author_data (process_rows U rows) !! g = Some data ->
  let tr := sightings U rows in
  (∀ w, w ∈ work_ids data <-> ∃ s, s ∈ tr ∧ of_work g w s) ∧
  out_cited_by_count (output_row U (process_rows U rows) g data)
  = sum_over (work_ids data) (fun w => default 0 (first_cited_by U g w tr)) ∧
  ((∀ s, s ∈ tr -> is_Some (cited_by U (s_row s))) ->
   ∀ w, first_cited_by U g w tr = first_row_cited_by U g w tr).
Proof.
  intros Hdata tr. pose proof (data_invariant_rows rows) as DI.
  split_and!.
  - intros w. by apply (di_work_ids _ _ DI).
  - simpl. rewrite (sum_values_sum_over _ (work_ids data)).
    + apply sum_over_ext. intros w _. by rewrite (di_cited _ _ DI g data w Hdata).
    + by apply (di_cited_dom _ _ DI g).
  - intros Hall w. by apply first_row_cited_by_eq.
Qed.

(** *** Repeated rows *)

Lemma add_split_fold (l : list str) (X : gset str) :
  fold_left
    (fun acc x => match Py.strip U x with [] => acc | x' => {[x']} ∪ acc end) l X
  = fold_left
      (fun acc x => match Py.strip U x with [] => acc | x' => {[x']} ∪ acc end) l ∅
    ∪ X.
Proof.
  revert X. induction l as [|x l IH]; intros X; simpl; [set_solver|].
  rewrite IH. rewrite (IH (match Py.strip U x with [] => ∅ | _ => _ end)).
  destruct (Py.strip U x); set_solver.
Qed.

Lemma add_split_union (field : str) (X : gset str) :
  add_split U field X = add_split U field ∅ ∪ X.
Proof.
  unfold add_split. destruct field; [set_solver|]. apply add_split_fold.
Qed.

Lemma add_split_idempotent (field : str) (X : gset str) :
  add_split U field (add_split U field X) = add_split U field X.
Proof.
  rewrite (add_split_union field (add_split U field X)), (add_split_union field X).
  generalize (add_split U field ∅). intros Y. set_solver.
Qed.

Lemma add_split_absorbed_mono (field field' : str) (X : gset str) :
  add_split U field X = X ->
  add_split U field (add_split U field' X) = add_split U field' X.
Proof.
  rewrite (add_split_union field (add_split U field' X)), (add_split_union field' X),
    (add_split_union field X).
  generalize (add_split U field ∅), (add_split U field' ∅). intros Y Y'. set_solver.
Qed.

Lemma cited_absorbed (m : gmap str Z) (o : option Z) w :
  match o with
  | Some n => match m !! w with Some _ => m | None => <[w := n]> m end
  | None => m
  end = m <-> o = None ∨ is_Some (m !! w).
Proof.
  destruct o as [n|]; [|naive_solver].
  destruct (m !! w) as [v|] eqn:Hm; [naive_solver|].
  split; [|intros [?|[? ?]]; done].
  intros H. apply (f_equal (fun m => m !! w)) in H.
  rewrite lookup_insert_eq in H. congruence.
Qed.

(** Accumulating a row twice is accumulating it once. *)
Lemma accumulate_idempotent row w data :
  accumulate U row w (accumulate U row w data) = accumulate U row w data.
Proof.
  unfold accumulate. simpl. f_equal.
  - destruct (Py.strip U (row_author_id row)); set_solver.
  - set_solver.
  - destruct (is_relevant U row); set_solver.
  - apply cited_absorbed. destruct (cited_by U row) as [n|]; [right|by left].
    destruct (cited_by_per_work data !! w) eqn:Hw; [by rewrite Hw|].
    by rewrite lookup_insert_eq.
  - destruct (year_of U row); set_solver.
  - destruct (Py.strip U (row_source_id row)); set_solver.
  - apply add_split_idempotent.
  - apply add_split_idempotent.
  - apply add_split_idempotent.
Qed.

(** A row that adds nothing still adds nothing after another row. *)
Lemma accumulate_absorbed_mono row w row' w' data :
  accumulate U row w data = data ->
  accumulate U row w (accumulate U row' w' data) = accumulate U row' w' data.
Proof.
  destruct data as [ai wi swi cpw ys si ins cs afs].
  unfold accumulate. simpl. intros [= H1 H2 H3 H4 H5 H6 H7 H8 H9]. f_equal.
  - destruct (Py.strip U (row_author_id row)), (Py.strip U (row_author_id row'));
      set_solver.
  - set_solver.
  - destruct (is_relevant U row), (is_relevant U row'); set_solver.
  - apply cited_absorbed. apply cited_absorbed in H4 as [H4|[v H4]]; [by left|right].
    destruct (cited_by U row') as [n'|]; [|by rewrite H4].
    destruct (cpw !! w') eqn:Hw'; [by rewrite H4|].
    rewrite lookup_insert. case_decide; eauto.
  - destruct (year_of U row), (year_of U row'); set_solver.
  - destruct (Py.strip U (row_source_id row)), (Py.strip U (row_source_id row'));
      set_solver.
  - by apply add_split_absorbed_mono.
  - by apply add_split_absorbed_mono.
  - by apply add_split_absorbed_mono.
Qed.

Lemma resolve_cached st name g :
  name_to_group_id st !! name = Some g -> resolve U st name = (g, st).
Proof. intros H. unfold resolve. by rewrite H. Qed.

Lemma resolve_cache_mono st name n g :
  name_to_group_id st !! n = Some g ->
  name_to_group_id (snd (resolve U st name)) !! n = Some g.
Proof.
  intros H. unfold resolve.
  destruct (name_to_group_id st !! name) eqn:Hc; [done|].
  assert (name <> n) by congruence.
  destruct (normalized_to_group_id st !! _); simpl; by rewrite lookup_insert_ne.
Qed.

Lemma resolve_caches st name :
  name_to_group_id (snd (resolve U st name)) !! name = Some (fst (resolve U st name)).
Proof.
  unfold resolve. destruct (name_to_group_id st !! name) eqn:Hc; [done|].
  destruct (normalized_to_group_id st !! _); simpl; by rewrite lookup_insert_eq.
Qed.

Lemma absorbed_fixed row st : absorbed U row st -> process_row U st row = st.
Proof.
  intros [H|[H|(g & data & Hn & Hd & Ha)]];
    [apply process_row_skipped; by left|apply process_row_skipped; by right|].
  unfold process_row.
  destruct (Py.strip U (row_author_name row)) eqn:En; [done|].
  destruct (Py.strip U (row_id row)) eqn:Ew; [done|].
  rewrite (resolve_cached _ _ _ Hn), Hd, Ha, insert_id by done. by destruct st.
Qed.

Lemma absorbed_self row st : absorbed U row (process_row U st row).
Proof.
  destruct (sighting U st row) as [s|] eqn:Hs.
  2:{ apply sighting_None in Hs. unfold absorbed. tauto. }
  right. right. rewrite (process_row_sighted _ _ _ Hs). cbv zeta. simpl.
  destruct (sighting_Some _ _ _ Hs) as (Hn & Hw & _ & _ & _ & Hg).
  rewrite <- Hn, <- Hw. exists (s_group s). eexists. split_and!.
  - rewrite Hg. apply resolve_caches.
  - apply lookup_insert_eq.
  - apply accumulate_idempotent.
Qed.

Lemma absorbed_mono row row' st :
  absorbed U row st -> absorbed U row (process_row U st row').
Proof.
  intros [H|[H|(g & data & Hn & Hd & Ha)]]; [by left|by right; left|].
  destruct (sighting U st row') as [s|] eqn:Hs.
  2:{ rewrite process_row_skipped; [|by apply (sighting_None st)].
      right. right. by exists g, data. }
  right. right. rewrite (process_row_sighted _ _ _ Hs). cbv zeta. simpl.
  destruct (resolve_author_data st (s_name s)) as [Hd' _]. rewrite Hd'.
  exists g. destruct (decide (s_group s = g)) as [->|Hg].
  - eexists. split_and!; [by apply resolve_cache_mono|apply lookup_insert_eq|].
    rewrite Hd. simpl. by apply accumulate_absorbed_mono.
  - exists data. split_and!; [by apply resolve_cache_mono| |done].
    by rewrite lookup_insert_ne.
Qed.

Lemma first_occurrences_from_fold seen rows st :
  (∀ row, row ∈ seen -> absorbed U row st) ->
  fold_left (process_row U) (first_occurrences_from seen rows) st
  = fold_left (process_row U) rows st.
Proof.
  revert seen st. induction rows as [|row rows IH]; intros seen st Hseen; [done|].
  simpl. case_decide as Hin.
  - rewrite (absorbed_fixed row st) by auto. by apply IH.
  - simpl. apply IH. intros row' [->|Hin']%elem_of_cons.
    + apply absorbed_self.
    + apply absorbed_mono. auto.
Qed.

(** C8 (amended). The aggregated output of a row sequence in which rows are
    repeated (a row equal, in every column read, to an earlier one) is the
    output of the sequence without the repetitions. *)
Theorem aggregate_repeated_rows (rows : list Row) :
  aggregate_authors U rows = aggregate_authors U (first_occurrences rows).
Proof.
  unfold aggregate_authors, process_rows, first_occurrences.
  rewrite first_occurrences_from_fold; [done|].
  intros row Hrow. by apply elem_of_nil in Hrow.
Qed.

End Theory.

(** The end-to-end example of the design document: "J. Smith" and "j smith"
    on two works make one group of two works. *)
Example two_spellings_one_group :
  let rows := Examples.rows_two_spellings in
  map s_group (sightings Latin1.data rows) = [0; 0]%nat ∧
  map (fun r => (out_author_name r, out_works_count r, out_cited_by_count r))
      (aggregate_authors Latin1.data rows)
  = [(u "J Smith", 2%nat, 7)].
Proof. split; by vm_compute. Qed.

(** C3, as stated, fails: the first row seen for the group and work id has
    a citation count that is no integer, and the group's [cited_by_count] is
    the 5 of the second row, not the value of the first. *)
Lemma cited_by_count_not_first_row :
  let rows := Examples.rows_unreadable_count in
  let st := process_rows Latin1.data rows in
  let tr := sightings Latin1.data rows in
  first_row_cited_by Latin1.data 0 (u "W1") tr = None ∧
  ∃ data, author_data st !! 0%nat = Some data ∧
    work_ids data = {[u "W1"]} ∧
    out_cited_by_count (output_row Latin1.data st 0 data) = 5 ∧
    out_cited_by_count (output_row Latin1.data st 0 data)
    <> sum_over (work_ids data)
         (fun w => default 0 (first_row_cited_by Latin1.data 0 w tr)).
Proof.
  split; [by vm_compute|]. eexists. split; [by vm_compute|].
  split; [by vm_compute|]. split; [by vm_compute|]. by vm_compute.
Qed.

Lemma cited_by_count_first_integer_value_witness :
  let rows := Examples.rows_unreadable_count in
  let st := process_rows Latin1.data rows in
  let tr := sightings Latin1.data rows in
  let data := default new_author_data (author_data st !! 0%nat) in
  out_cited_by_count (output_row Latin1.data st 0 data)
  = sum_over (work_ids data)
      (fun w => default 0 (first_cited_by Latin1.data 0 w tr)).
Proof.
  intros rows st tr data.
  refine (proj1 (proj2
    (cited_by_count_first_integer_value Latin1.data rows 0 data _))).
  by vm_compute.
Defined.

(** C8, as stated, fails: two rows of one [(work_id, author_id)] pair that
    differ in their affiliation aggregate to both affiliations, the first of
    them alone to one. *)
Lemma aggregate_same_pair_differs :
  let rows := Examples.rows_same_pair in
  map (fun r => (row_id r, row_author_id r)) rows = [(u "W1", u "A1"); (u "W1", u "A1")] ∧
  first_per_pair rows = [Examples.row "A. Author" "W1" "A1" "5" "MIT"] ∧
  map out_institutions (aggregate_authors Latin1.data rows) = [u "MIT;Yale"] ∧
  map out_institutions (aggregate_authors Latin1.data (first_per_pair rows)) = [u "MIT"] ∧
  aggregate_authors Latin1.data rows
  <> aggregate_authors Latin1.data (first_per_pair rows).
Proof.
  split_and!; by vm_compute.
Qed.

(** C9, as stated, fails: a row with a white-space author name is routed
    to no group, and there is no output row for it. *)
Lemma blank_author_name_no_group :
  let row := Examples.row_blank_name in
  Forall (fun c => isspace Latin1.data c = true) (row_author_name row) ∧
  sightings Latin1.data [row] = [] ∧
  author_data (process_rows Latin1.data [row]) = ∅ ∧
  aggregate_authors Latin1.data [row] = [].
Proof.
  split_and!; try by vm_compute. repeat constructor.
Qed.

Lemma blank_author_name_skipped_witness :
  process_row Latin1.data initial Examples.row_blank_name = initial.
Proof.
  refine (proj2 (proj1
    (blank_author_name_skipped Latin1.data Examples.row_blank_name _) initial)).
  repeat constructor.
Defined.

End AggregateTheory.

(** ** The fetch engine *)

Module FetchTheory.
Import Json Fetch.

Section Theory.
Variable server : Server.

(** *** One fetch *)

Lemma paginate_more_fuel fuel fuel' a page cursor all_works r :
  paginate fuel server a page cursor all_works = Some r ->
  (fuel <= fuel')%nat ->
  paginate fuel' server a page cursor all_works = Some r.
Proof.
  revert fuel' page cursor all_works r.
  induction fuel as [|fuel IH]; intros fuel' page cursor all_works r.
  - destruct cursor; simpl; [done|]. intros [= <-] _. by destruct fuel'.
  - destruct cursor as [c|]; simpl; [|intros [= <-] _; by destruct fuel'].
    destruct fuel' as [|fuel']; [lia|]. simpl.
    destruct (iteration server a page c all_works) as [[cursor' w'|w'] ev]; [|done].
    destruct (paginate fuel server a (S page) cursor' w') as [[w ev']|] eqn:Hp; [|done].
    intros [= <-] Hle. by rewrite (IH fuel' _ _ _ _ Hp) by lia.
Qed.

(** The outcome of a fetch does not depend on the fuel that suffices. *)
Lemma fetch_author_works_deterministic fuel fuel' a r r' :
  fetch_author_works fuel server a = Some r ->
  fetch_author_works fuel' server a = Some r' ->
  r = r'.
Proof.
  unfold fetch_author_works.
  destruct (paginate fuel _ _ _ _ _) as [[w ev]|] eqn:H1; [|done].
  destruct (paginate fuel' _ _ _ _ _) as [[w' ev']|] eqn:H2; [|done].
  intros [= <-] [= <-].
  apply (paginate_more_fuel _ (fuel `max` fuel')) in H1; [|lia].
  apply (paginate_more_fuel _ (fuel `max` fuel')) in H2; [|lia].
  congruence.
Qed.

Lemma count_app p l1 l2 : count p (l1 ++ l2) = (count p l1 + count p l2)%nat.
Proof. unfold count. by rewrite filter_app, length_app. Qed.

Lemma iteration_events a page c all_works it events :
  iteration server a page c all_works = (it, events) ->
  acquisitions events = 0%nat ∧ requests events = 1%nat.
Proof.
  unfold iteration. destruct (status _ =? 200); [destruct (_ <? _)%nat|];
    by intros [= <- <-].
Qed.

Lemma paginate_events fuel a page cursor all_works w events :
  paginate fuel server a page cursor all_works = Some (w, events) ->
  acquisitions events = 0%nat ∧
  (requests events = 0%nat <-> cursor = None).
Proof.
  revert page cursor all_works w events.
  induction fuel as [|fuel IH]; intros page cursor all_works w events.
  - destruct cursor; simpl; [done|]. by intros [= <- <-].
  - destruct cursor as [c|]; simpl; [|by intros [= <- <-]].
    destruct (iteration server a page c all_works) as [[cursor' w'|w'] ev] eqn:Hit.
    + destruct (paginate fuel server a (S page) cursor' w') as [[w0 ev']|] eqn:Hp; [|done].
      intros [= <- <-]. destruct (iteration_events _ _ _ _ _ _ Hit) as [Ha Hr].
      destruct (IH _ _ _ _ _ Hp) as [Ha' _].
      unfold acquisitions, requests in *. rewrite !count_app, Ha, Ha', Hr.
      split; [done|]. split; [lia|done].
    + intros [= <- <-]. destruct (iteration_events _ _ _ _ _ _ Hit) as [Ha Hr].
      split; [done|]. rewrite Hr. split; [lia|done].
Qed.

Lemma fetch_author_works_events fuel a w events :
  fetch_author_works fuel server a = Some (w, events) ->
  acquisitions events = 1%nat ∧ (1 <= requests events)%nat ∧
  head events = Some Acquire ∧ last events = Some Release.
Proof.
  unfold fetch_author_works.
  destruct (paginate fuel _ _ _ _ _) as [[w' ev]|] eqn:Hp; [|done].
  intros [= <- <-]. destruct (paginate_events _ _ _ _ _ _ _ Hp) as [Ha Hr].
  change (Acquire :: ev ++ [Release]) with ([Acquire] ++ ev ++ [Release]).
  unfold acquisitions, requests in *. rewrite !count_app, Ha.
  split_and!; [done| |done|].
  - destruct (count is_request ev) eqn:E; [|lia]. by pose proof (proj1 Hr eq_refl).
  - by rewrite app_assoc, last_snoc.
Qed.

(** *** The coroutines under a schedule *)

Lemma reaches_paginate a page cursor all_works events fuel w events' :
  reaches server a page cursor all_works events ->
  paginate fuel server a page cursor all_works = Some (w, events') ->
  ∃ fuel', paginate fuel' server a 0 (Some (u "*")) [] = Some (w, events ++ events').
Proof.
  intros Hr. revert fuel w events'.
  induction Hr as [|page c all_works events cursor' all_works' ev Hr IH Hit];
    intros fuel w events' Hp.
  - by exists fuel.
  - destruct (IH (S fuel) w (ev ++ events')) as [fuel' Hf].
    + simpl. by rewrite Hit, Hp.
    + exists fuel'. by rewrite <- app_assoc.
Qed.

Lemma reaches_no_acquire a page cursor all_works events :
  reaches server a page cursor all_works events ->
  acquisitions events = 0%nat ∧ requests events = page.
Proof.
  induction 1 as [|page c all_works events cursor' all_works' ev Hr [IHa IHr] Hit];
    [done|].
  destruct (iteration_events _ _ _ _ _ _ Hit) as [Ha Hq].
  unfold acquisitions, requests in *. rewrite !count_app. lia.
Qed.

Lemma events_of_app i l1 l2 : events_of i (l1 ++ l2) = events_of i l1 ++ events_of i l2.
Proof. unfold events_of. by rewrite filter_app, map_app. Qed.

Lemma events_of_tagged i j events :
  events_of i (map (pair j) events) = if decide (j = i) then events else [].
Proof.
  unfold events_of. induction events as [|e events IH]; simpl; [by case_decide|].
  rewrite filter_cons. simpl. case_decide; simpl; by rewrite IH.
Qed.

Section Batch.
Variable author_ids : list str.

Abbreviation machine_ok := (Fetch.machine_ok server author_ids).

Lemma machine_ok_start : machine_ok (start author_ids).
Proof.
  intros i t a. unfold start. simpl. rewrite list_lookup_fmap.
  destruct (author_ids !! i); [|done]. by intros [= <-].
Qed.

Lemma machine_ok_step i m : machine_ok m -> machine_ok (step server author_ids i m).
Proof.
  intros Hok. unfold step.
  destruct (tasks m !! i) as [t|] eqn:Ht; [|done].
  destruct (author_ids !! i) as [a|] eqn:Ha; [|done].
  pose proof (Hok i t a Ht Ha) as Hi.
  assert (Hlt : (i < length (tasks m))%nat) by (by apply lookup_lt_Some in Ht).
  assert (Hother : ∀ (t' : Task) (new : list Event) j t0 a0,
    <[i := t']> (tasks m) !! j = Some t0 -> author_ids !! j = Some a0 ->
    task_ok server a t' (events_of i (log m) ++ new) ->
    task_ok server a0 t0 (events_of j (log m ++ map (pair i) new))).
  { intros t' new j t0 a0 Hj Ha0 Hnew. rewrite events_of_app, events_of_tagged.
    destruct (decide (i = j)) as [<-|Hij].
    - rewrite list_lookup_insert_eq in Hj by done. congruence.
    - rewrite app_nil_r. rewrite list_lookup_insert_ne in Hj by done. by apply Hok. }
  destruct t as [| |[c|] all_works page|all_works]; [| | | |done].
  - destruct (semaphore m); [done|]. intros j t0 a0 Hj Ha0. simpl in *.
    rewrite <- (app_nil_r (log m)). apply (Hother WaitRateLimiter [] j t0 a0 Hj Ha0).
    by rewrite app_nil_r.
  - destruct (rate_limiter m); [done|]. intros j t0 a0 Hj Ha0. simpl in *.
    apply (Hother _ [Acquire] j t0 a0 Hj Ha0). simpl in Hi. rewrite Hi. simpl.
    exists []. split; [done|]. constructor.
  - destruct (iteration server a page c all_works) as [[cursor' w'|w'] ev] eqn:Hit;
      intros j t0 a0 Hj Ha0; simpl in *; destruct Hi as (ev0 & Hev & Hr).
    + apply (Hother _ ev j t0 a0 Hj Ha0). rewrite Hev. simpl.
      exists (ev0 ++ ev). split; [done|]. by eapply reaches_next.
    + change (map (pair i) ev ++ [(i, Release)])
        with (map (pair i) ev ++ map (pair i) [Release]).
      rewrite <- map_app. apply (Hother _ _ j t0 a0 Hj Ha0). rewrite Hev. simpl.
      destruct (reaches_paginate _ _ _ _ _ 1 w' ev Hr) as [fuel Hf].
      { simpl. by rewrite Hit. }
      exists fuel. unfold fetch_author_works. rewrite Hf.
      by rewrite <- !app_assoc.
  - intros j t0 a0 Hj Ha0; simpl in *; destruct Hi as (ev0 & Hev & Hr).
    apply (Hother _ [Release] j t0 a0 Hj Ha0). rewrite Hev. simpl.
    destruct (reaches_paginate _ _ _ _ _ 0 all_works [] Hr) as [fuel Hf]; [done|].
    exists fuel. unfold fetch_author_works. rewrite Hf. by rewrite app_nil_r.
Qed.

Lemma machine_ok_run schedule m :
  machine_ok m -> machine_ok (run server author_ids schedule m).
Proof.
  revert m. induction schedule as [|i schedule IH]; intros m Hok; [done|].
  simpl. apply IH. by apply machine_ok_step.
Qed.

Lemma run_app s1 s2 m :
  run server author_ids (s1 ++ s2) m
  = run server author_ids s2 (run server author_ids s1 m).
Proof. unfold run. by rewrite fold_left_app. Qed.

Lemma run_cons i schedule m :
  run server author_ids (i :: schedule) m
  = run server author_ids schedule (step server author_ids i m).
Proof. done. Qed.

Lemma length_tasks_step i m :
  length (tasks (step server author_ids i m)) = length (tasks m).
Proof.
  unfold step. destruct (tasks m !! i) as [t|]; [|done].
  destruct (author_ids !! i) as [a|]; [|done].
  destruct t as [| |[c|] w page|w]; simpl; try done.
  - destruct (semaphore m); simpl; by rewrite ?length_insert.
  - destruct (rate_limiter m); simpl; by rewrite ?length_insert.
  - destruct (iteration server a page c w) as [[? ?|?] ?]; simpl; by rewrite length_insert.
  - by rewrite length_insert.
Qed.

Lemma length_tasks_run schedule m :
  length (tasks (run server author_ids schedule m)) = length (tasks m).
Proof.
  revert m. induction schedule as [|i schedule IH]; intros m; [done|].
  simpl. by rewrite IH, length_tasks_step.
Qed.

Lemma length_tasks_run_start schedule :
  length (tasks (run server author_ids schedule (start author_ids)))
  = length author_ids.
Proof. rewrite length_tasks_run. unfold start. simpl. by rewrite length_map. Qed.

Lemma run_returned n i m w :
  tasks m !! i = Some (Returned w) ->
  run server author_ids (replicate n i) m = m.
Proof.
  intros H. induction n as [|n IH]; [done|]. simpl.
  unfold step at 1. rewrite H. by destruct (author_ids !! i).
Qed.

(** A coroutine inside the loop returns what [paginate] returns, within as
    many turns as [paginate] needs fuel, and gives both permits back. *)
Lemma run_paginating fuel i a m page cursor w0 w events :
  tasks m !! i = Some (Paginating cursor w0 page) ->
  author_ids !! i = Some a ->
  paginate fuel server a page cursor w0 = Some (w, events) ->
  let m' := run server author_ids (replicate (S fuel) i) m in
  tasks m' = <[i := Returned w]> (tasks m) ∧
  semaphore m' = S (semaphore m) ∧ rate_limiter m' = S (rate_limiter m).
Proof.
  revert m page cursor w0 events.
  induction fuel as [|fuel IH]; intros m page cursor w0 events Ht Ha Hp.
  - destruct cursor; [done|]. simpl in Hp. injection Hp as <- <-.
    simpl. unfold step. by rewrite Ht, Ha.
  - assert (Hlt : (i < length (tasks m))%nat) by (by apply lookup_lt_Some in Ht).
    cbv zeta. change (replicate (S (S fuel)) i) with (i :: replicate (S fuel) i).
    destruct cursor as [c|].
    + simpl in Hp. rewrite run_cons. unfold step at 1 2 3. rewrite Ht, Ha.
      destruct (iteration server a page c w0) as [[cursor' w'|w'] ev] eqn:Hit.
      * destruct (paginate fuel server a (S page) cursor' w') as [[w1 ev1]|] eqn:Hp';
          [|done].
        injection Hp as <- <-.
        match goal with |- context [run _ _ _ ?x] => set (m1 := x) end.
        destruct (IH m1 (S page) cursor' w' ev1) as (H1 & H2 & H3); [|done|done|].
        { subst m1. simpl. by rewrite list_lookup_insert_eq. }
        rewrite H1, H2, H3. subst m1. simpl. by rewrite list_insert_insert_eq.
      * injection Hp as <- <-.
        rewrite (run_returned _ _ _ w'); [done|].
        simpl. by rewrite list_lookup_insert_eq.
    + simpl in Hp. injection Hp as <- <-.
      rewrite run_cons. unfold step at 1 2 3. rewrite Ht, Ha.
      rewrite (run_returned _ _ _ w0); [done|].
      simpl. by rewrite list_lookup_insert_eq.
Qed.

Lemma step_wait_semaphore i a m n :
  tasks m !! i = Some WaitSemaphore -> author_ids !! i = Some a ->
  semaphore m = S n ->
  step server author_ids i m
  = {| semaphore := n; rate_limiter := rate_limiter m;
       tasks := <[i := WaitRateLimiter]> (tasks m); log := log m |}.
Proof. intros Ht Ha Hs. unfold step. by rewrite Ht, Ha, Hs. Qed.

Lemma step_wait_rate_limiter i a m n :
  tasks m !! i = Some WaitRateLimiter -> author_ids !! i = Some a ->
  rate_limiter m = S n ->
  step server author_ids i m
  = {| semaphore := semaphore m; rate_limiter := n;
       tasks := <[i := Paginating (Some (u "*")) [] 0]> (tasks m);
       log := log m ++ [(i, Acquire)] |}.
Proof. intros Ht Ha Hs. unfold step. by rewrite Ht, Ha, Hs. Qed.

(** A coroutine that has not begun, scheduled alone while both semaphores
    have a permit, returns the works of its fetch and leaves the semaphores
    as they were. *)
Lemma run_task fuel i a m w events :
  tasks m !! i = Some WaitSemaphore ->
  author_ids !! i = Some a ->
  (0 < semaphore m)%nat -> (0 < rate_limiter m)%nat ->
  fetch_author_works fuel server a = Some (w, events) ->
  let m' := run server author_ids (replicate (fuel + 3) i) m in
  tasks m' = <[i := Returned w]> (tasks m) ∧
  semaphore m' = semaphore m ∧ rate_limiter m' = rate_limiter m.
Proof.
  intros Ht Ha Hs Hr Hf.
  assert (Hlt : (i < length (tasks m))%nat) by (by apply lookup_lt_Some in Ht).
  unfold fetch_author_works in Hf.
  destruct (paginate fuel server a 0 (Some (u "*")) []) as [[w' ev]|] eqn:Hp; [|done].
  injection Hf as <- <-.
  replace (fuel + 3)%nat with (S (S (S fuel))) by lia.
  change (replicate (S (S (S fuel))) i) with ([i; i] ++ replicate (S fuel) i).
  cbv zeta. rewrite run_app.
  set (m2 := run server author_ids [i; i] m).
  destruct (semaphore m) as [|sem] eqn:Es; [lia|].
  destruct (rate_limiter m) as [|rate] eqn:Er; [lia|].
  assert (H2 : tasks m2 = <[i := Paginating (Some (u "*")) [] 0]> (tasks m)
               ∧ semaphore m2 = sem ∧ rate_limiter m2 = rate).
  { subst m2. rewrite !run_cons. rewrite (step_wait_semaphore i a m sem) by done.
    rewrite (step_wait_rate_limiter i a _ rate); simpl;
      [|by rewrite list_lookup_insert_eq|done|done].
    by rewrite list_insert_insert_eq. }
  destruct H2 as (T2 & S2 & R2).
  destruct (run_paginating fuel i a m2 0 (Some (u "*")) [] w' ev) as (H1 & H3 & H4);
    [|done|done|].
  { rewrite T2. by rewrite list_lookup_insert_eq. }
  rewrite H1, H3, H4, T2, S2, R2. by rewrite list_insert_insert_eq.
Qed.

(** Scheduling the coroutines one after the other, each for as long as its
    fetch takes, makes the first [k] of them return. *)
Lemma run_first k :
  (k <= length author_ids)%nat ->
  (∀ a, a ∈ author_ids -> ∃ fuel r, fetch_author_works fuel server a = Some r) ->
  ∃ schedule,
    let m := run server author_ids schedule (start author_ids) in
    semaphore m = CONCURRENCY ∧ rate_limiter m = RATE_LIMIT ∧
    (∀ i, (i < k)%nat -> ∃ w, tasks m !! i = Some (Returned w)) ∧
    (∀ i, (k <= i < length author_ids)%nat -> tasks m !! i = Some WaitSemaphore).
Proof.
  intros Hk Hall. induction k as [|k IH].
  - exists []. simpl. split_and!; [done|done|lia|].
    intros i Hi. rewrite list_lookup_fmap.
    destruct (lookup_lt_is_Some_2 author_ids i) as [a ->]; [lia|done].
  - destruct IH as (schedule & Hs & Hr & Hdone & Hwait); [lia|].
    destruct (lookup_lt_is_Some_2 author_ids k) as [a Ha]; [lia|].
    destruct (Hall a) as (fuel & [w ev] & Hf); [by eapply list_elem_of_lookup_2|].
    exists (schedule ++ replicate (fuel + 3) k). cbv zeta. rewrite run_app.
    set (m := run server author_ids schedule (start author_ids)) in *.
    destruct (run_task fuel k a m w ev) as (T & S & R);
      [apply Hwait; lia|done|rewrite Hs; unfold CONCURRENCY; lia
      |rewrite Hr; unfold RATE_LIMIT; lia|done|].
    assert (Hlen : length (tasks m) = length author_ids).
    { subst m. apply length_tasks_run_start. }
    rewrite T, S, R. split_and!; [done|done| |].
    + intros i Hi. destruct (decide (i = k)) as [->|Hne].
      * exists w. rewrite list_lookup_insert_eq; [done|lia].
      * rewrite list_lookup_insert_ne by done. apply Hdone. lia.
    + intros i Hi. rewrite list_lookup_insert_ne by lia. apply Hwait. lia.
Qed.

(** [gather] ends under some schedule when every fetch of the batch ends. *)
Lemma enrich_completes :
  (∀ a, a ∈ author_ids -> ∃ fuel r, fetch_author_works fuel server a = Some r) ->
  ∃ schedule, is_Some (enrich_authors_with_all_works server author_ids schedule).
Proof.
  intros Hall.
  destruct (run_first (length author_ids)) as (schedule & _ & _ & Hdone & _);
    [done|done|].
  exists schedule. unfold enrich_authors_with_all_works, gather.
  apply fmap_is_Some, mapM_is_Some, Forall_lookup. intros i t Ht. simpl.
  destruct (Hdone i) as [w Hw]; [|rewrite Ht in Hw; by injection Hw as ->].
  apply lookup_lt_Some in Ht. by rewrite length_tasks_run_start in Ht.
Qed.

Lemma collect_fold_lookup (R : str -> list Work -> Prop) (a : str)
    (wa : list Work) (ids : list str) (rs : list (list Work))
    (d : gmap str (list Work)) :
  Forall2 R ids rs ->
  (∀ w, R a w -> w = wa) ->
  let d' :=
    fold_left
      (fun d '(author_id, works) =>
         match works with [] => d | _ => <[author_id := works]> d end)
      (zip ids rs) d in
  (a ∈ ids -> d' !! a = match entry wa with Some w => Some w | None => d !! a end) ∧
  (a ∉ ids -> d' !! a = d !! a).
Proof.
  intros HR Hu. revert d. induction HR as [|x w ids rs Hxw HR IH]; intros d; cbv zeta.
  { split; [by intros ?%elem_of_nil|done]. }
  change (zip (x :: ids) (w :: rs)) with ((x, w) :: zip ids rs).
  cbn [fold_left]. destruct (IH (match w with [] => d | _ => <[x := w]> d end))
    as [IHin IHout].
  destruct (decide (a = x)) as [->|Hne].
  - apply Hu in Hxw as ->. split; [intros _|by intros []; left].
    destruct (decide (x ∈ ids)) as [Hin|Hin].
    + rewrite (IHin Hin). destruct wa; simpl; [done|]. done.
    + rewrite (IHout Hin). destruct wa; simpl; [done|]. by rewrite lookup_insert_eq.
  - assert (Hd : (match w with [] => d | _ => <[x := w]> d end) !! a = d !! a).
    { destruct w; [done|]. by rewrite lookup_insert_ne. }
    split.
    + intros [?|Hin]%elem_of_cons; [done|]. by rewrite (IHin Hin), Hd.
    + intros Hin. rewrite IHout, Hd; [done|]. intros ?. apply Hin. by right.
Qed.

(** Whatever the schedule, the dictionary returned holds for each author
    the works of the author's own fetch, when there are any. *)
Lemma enrich_lookup schedule m a fuel w events :
  enrich_authors_with_all_works server author_ids schedule = Some m ->
  a ∈ author_ids ->
  fetch_author_works fuel server a = Some (w, events) ->
  m !! a = entry w.
Proof.
  unfold enrich_authors_with_all_works, gather. intros Hm Ha Hf.
  apply fmap_Some in Hm as (rs & Hrs & ->). apply mapM_Some in Hrs.
  set (mf := run server author_ids schedule (start author_ids)) in *.
  assert (Hok : machine_ok mf) by apply machine_ok_run, machine_ok_start.
  assert (HR : Forall2 (fun a w => ∃ fuel ev, fetch_author_works fuel server a = Some (w, ev))
                 author_ids rs).
  { apply Forall2_same_length_lookup. split.
    - apply Forall2_length in Hrs. rewrite <- Hrs. subst mf.
      by rewrite length_tasks_run_start.
    - intros i a' w' Ha' Hw'.
      destruct (Forall2_lookup_r _ _ _ _ _ Hrs Hw') as (t & Ht & Hret).
      destruct t; try done. injection Hret as ->.
      destruct (Hok i _ a' Ht Ha') as [fuel' Hf']. eauto. }
  unfold collect. destruct (collect_fold_lookup _ a w _ _ ∅ HR) as [Hin _].
  - intros w' (fuel' & ev' & Hf').
    by injection (fetch_author_works_deterministic _ _ _ _ _ Hf' Hf).
  - rewrite (Hin Ha), lookup_empty. by destruct (entry w).
Qed.

End Batch.

(** C2 (amended). A fetch takes one permit of the rate limiter for the
    whole pagination of its entity, before the first page request, and gives
    it back after the last: whatever the number of page requests (at least
    one), the number of acquisitions is one.  Under every schedule of the
    batch, a coroutine has taken no permit before it enters the loop and
    exactly one from then on, while its page requests are as many as the
    turns of the loop it has made. *)
Theorem one_permit_per_fetch :
  (∀ fuel a works events,
     fetch_author_works fuel server a = Some (works, events) ->
     acquisitions events = 1%nat ∧ (1 <= requests events)%nat ∧
     head events = Some Acquire ∧ last events = Some Release) ∧
  (∀ author_ids schedule i t,
     let m := run server author_ids schedule (start author_ids) in
     tasks m !! i = Some t ->
     match t with
     | WaitSemaphore | WaitRateLimiter =>
         acquisitions (events_of i (log m)) = 0%nat ∧
         requests (events_of i (log m)) = 0%nat
     | Paginating _ _ page =>
         acquisitions (events_of i (log m)) = 1%nat ∧
         requests (events_of i (log m)) = page
     | Returned _ =>
         acquisitions (events_of i (log m)) = 1%nat ∧
         (1 <= requests (events_of i (log m)))%nat
     end).
Proof.
  split; [apply fetch_author_works_events|].
  intros author_ids schedule i t m Ht.
  assert (Hok : Fetch.machine_ok server author_ids m)
    by apply machine_ok_run, machine_ok_start.
  destruct (lookup_lt_is_Some_2 author_ids i) as [a Ha].
  { apply lookup_lt_Some in Ht. subst m.
    by rewrite length_tasks_run_start in Ht. }
  specialize (Hok i t a Ht Ha). destruct t as [| |cursor w page|w]; simpl in Hok.
  - by rewrite Hok.
  - by rewrite Hok.
  - destruct Hok as (ev & -> & Hr). apply reaches_no_acquire in Hr as [Hacq Hreq].
    change (Acquire :: ev) with ([Acquire] ++ ev).
    unfold acquisitions, requests in *. rewrite !count_app, Hacq, Hreq. done.
  - destruct Hok as [fuel Hf]. apply fetch_author_works_events in Hf. tauto.
Qed.

(** C1. Let the fetch of A get a non-success status on its second page,
    after one successful page, and let the fetch of B succeed fully.  Then
    the batch completes under some schedule (given that the fetches of the
    other entities, if any, end), and under every schedule under which it
    completes the mapping returned holds the first page of A and the full
    record sequence of B: the failure of A takes nothing from B.  (The
    mapping has an entry for the entities with records only, so that the
    records of a B without any are the absent entry.) *)
Theorem partial_failure_is_isolated (A B : str) (author_ids : list str) (c : str)
    (fuel : nat) (works_b : list Work) (events_b : list Event) :
  let page1 := server A 0%nat (u "*") in
  A ∈ author_ids -> B ∈ author_ids ->
  status page1 = 200 -> (200 <= length (results page1))%nat ->
  truthy (next_cursor page1) = Some c ->
  status (server A 1%nat c) <> 200 ->
  fetch_author_works fuel server B = Some (works_b, events_b) ->
  warnings events_b = 0%nat ->
  ((∀ a, a ∈ author_ids -> a <> A -> a <> B ->
      ∃ fuel r, fetch_author_works fuel server a = Some r) ->
   ∃ schedule, is_Some (enrich_authors_with_all_works server author_ids schedule)) ∧
  (∀ schedule m,
     enrich_authors_with_all_works server author_ids schedule = Some m ->
     m !! A = Some (results page1) ∧
     m !! B = entry works_b ∧
     (works_b <> [] -> m !! B = Some works_b)).
Proof.
  intros page1 HA HB Hs Hlen Hc Hfail Hfb _.
  assert (Hfa : fetch_author_works 2 server A
                = Some (results page1,
                        [Acquire; Request (u "*") 200;
                         Request c (status (server A 1%nat c));
                         Warning (status (server A 1%nat c)); Release])).
  { unfold fetch_author_works. simpl. unfold iteration. fold page1.
    rewrite Hs, Hc. simpl.
    destruct (length (results page1) <? 200)%nat eqn:E; [apply Nat.ltb_lt in E; lia|].
    destruct (status (server A 1%nat c) =? 200) eqn:E'; [apply Z.eqb_eq in E'; done|].
    done. }
  split.
  - intros Hothers. apply enrich_completes. intros a Ha.
    destruct (decide (a = A)) as [->|HnA]; [eauto|].
    destruct (decide (a = B)) as [->|HnB]; [eauto|]. auto.
  - intros schedule m Hm. split_and!.
    + rewrite (enrich_lookup _ _ _ _ _ _ _ Hm HA Hfa).
      destruct (results page1); [simpl in Hlen; lia|done].
    + apply (enrich_lookup _ _ _ _ _ _ _ Hm HB Hfb).
    + intros Hne. rewrite (enrich_lookup _ _ _ _ _ _ _ Hm HB Hfb).
      by destruct works_b.
Qed.

End Theory.

(** C2, as stated, fails: a fetch of two pages makes two page requests and
    takes one permit. *)
Lemma two_requests_one_permit :
  ∃ works events,
    fetch_author_works 2 Examples.server_two_pages (u "A1") = Some (works, events) ∧
    events = [Acquire; Request (u "*") 200; Request (u "c2") 200; Release] ∧
    requests events = 2%nat ∧ acquisitions events = 1%nat ∧
    acquisitions events <> requests events.
Proof. eexists _, _. split; [by vm_compute|]. by split_and!. Qed.

Lemma one_permit_per_fetch_witness :
  let m := run Examples.server_two_pages [u "A1"; u "B2"] [0; 1; 0; 0; 1; 0; 1; 1]%nat
             (start [u "A1"; u "B2"]) in
  acquisitions (events_of 1 (log m)) = 1%nat ∧
  (1 <= requests (events_of 1 (log m)))%nat.
Proof.
  intros m.
  refine (proj2 (one_permit_per_fetch Examples.server_two_pages)
            [u "A1"; u "B2"] [0; 1; 0; 0; 1; 0; 1; 1]%nat 1%nat
            (Returned (replicate 200 (Examples.work "W1") ++ [Examples.work "W2"])) _).
  by vm_compute.
Defined.

(** An entity whose fetch succeeds with no record at all has no entry in
    the mapping returned. *)
Example no_entry_without_records :
  let server := Examples.server_failing [] in
  let A := u "A1" in
  let B := u "B2" in
  status (server A 0%nat (u "*")) = 200 ∧
  length (results (server A 0%nat (u "*"))) = 200%nat ∧
  status (server A 1%nat (u "c2")) = 500 ∧
  fetch_author_works 1 server B = Some ([], [Acquire; Request (u "*") 200; Release]) ∧
  ∃ m, enrich_authors_with_all_works server [A; B] [0; 1; 0; 1; 0; 1; 0]%nat = Some m ∧
       m !! A = Some (replicate 200 (Examples.work "W1")) ∧
       m !! B = None.
Proof.
  split_and!; try by vm_compute.
  eexists. split; [by vm_compute|]. split; by vm_compute.
Qed.

Lemma partial_failure_is_isolated_witness :
  let works_b := [Examples.work "W7"; Examples.work "W8"] in
  let server := Examples.server_failing works_b in
  (∃ schedule,
     is_Some (enrich_authors_with_all_works server [u "A1"; u "B2"] schedule)) ∧
  (∀ schedule m,
     enrich_authors_with_all_works server [u "A1"; u "B2"] schedule = Some m ->
     m !! u "A1" = Some (replicate 200 (Examples.work "W1")) ∧
     m !! u "B2" = Some works_b).
Proof.
  intros works_b server.
  destruct (partial_failure_is_isolated server (u "A1") (u "B2") [u "A1"; u "B2"]
              (u "c2") 1 works_b [Acquire; Request (u "*") 200; Release])
    as [Hc Hs]; try by vm_compute.
  - set_solver.
  - set_solver.
  - split; [apply Hc; intros a Ha; set_solver|].
    intros schedule m Hm. destruct (Hs schedule m Hm) as (HA & _ & HB).
    split; [exact HA|]. by apply HB.
Defined.

End FetchTheory.

(** ** The per-pair export *)

Module PairsTheory.
Import Json Pairs.

(** What a loop that ends without raising has kept ([I]), how its state has
    moved ([le]) and what it has brought about for each element ([Q]). *)
Lemma for_each_post {A S : Type} (I : S -> Prop) (le : S -> S -> Prop)
    (Q : A -> S -> Prop) (body : S -> A -> option S) (xs : list A) (s s' : S) :
  (∀ s, le s s) ->
  (∀ s1 s2 s3, le s1 s2 -> le s2 s3 -> le s1 s3) ->
  (∀ x s1 s2, Q x s1 -> le s1 s2 -> Q x s2) ->
  (∀ s1 x s2, x ∈ xs -> I s1 -> body s1 x = Some s2 -> I s2 ∧ le s1 s2 ∧ Q x s2) ->
  I s -> for_each body xs s = Some s' ->
  I s' ∧ le s s' ∧ ∀ x, x ∈ xs -> Q x s'.
Proof.
  intros Hrefl Htrans Hmono. revert s.
  induction xs as [|x xs IH]; intros s Hbody Hs Hrun; simpl in Hrun.
  - injection Hrun as <-. split_and!; [done|done|by intros x ?%elem_of_nil].
  - destruct (body s x) as [s1|] eqn:Hb; [|done].
    destruct (Hbody s x s1) as (H1 & Hle1 & Hq1); [by left|done|done|].
    destruct (IH s1) as (H2 & Hle2 & Hq2); [|done|done|].
    { intros s0 x0 s2 Hx0. apply Hbody. by right. }
    split_and!; [done|by eapply Htrans|].
    intros x0 [->|Hin]%elem_of_cons; [by eapply Hmono|by apply Hq2].
Qed.

Lemma for_each_invariant {A S : Type} (P : S -> Prop) (body : S -> A -> option S)
    (xs : list A) (s s' : S) :
  (∀ s1 x s2, x ∈ xs -> P s1 -> body s1 x = Some s2 -> P s2) ->
  P s -> for_each body xs s = Some s' -> P s'.
Proof.
  intros Hbody Hs Hrun.
  destruct (for_each_post P (fun _ _ => True) (fun _ _ => True) body xs s s')
    as (H & _); try done.
  intros s1 x s2 Hx H1 Hb. split; [|done]. by eapply Hbody.
Qed.

(** A loop whose every turn leaves the state as it is. *)
Lemma for_each_unchanged {A S : Type} (body : S -> A -> option S) (xs : list A) (s : S) :
  (∀ x, x ∈ xs -> body s x = Some s) -> for_each body xs s = Some s.
Proof.
  induction xs as [|x xs IH]; intros H; simpl; [done|].
  rewrite H by (by left). apply IH. intros y Hy. apply H. by right.
Qed.

Lemma replace_nil old new : Py.replace old new [] = [].
Proof. done. Qed.

(** The author id of a row is the one [main] has looked up. *)
Lemma extracted_author_id (author : Author) :
  match a_id author with
  | Some (c :: r) => Py.replace openalex_prefix [] (c :: r)
  | _ => []
  end = short_id (a_id author).
Proof. unfold short_id. by destruct (a_id author) as [[|c r]|]. Qed.

Lemma short_id_work work :
  short_id (w_id work) <> [] ->
  ∃ item_id, w_id work = Some item_id ∧
             short_id (w_id work) = Py.replace openalex_prefix [] item_id.
Proof. unfold short_id. destruct (w_id work) as [item_id|]; [eauto|done]. Qed.

(** When [_extract_work_data_for_author] raises. *)
Lemma extract_raises_iff item authorship search_work_ids :
  _extract_work_data_for_author item authorship search_work_ids = None <->
  w_id item = None ∨
  (∃ source, w_source item = Some source ∧ so_id source = None) ∨
  as_author authorship = None ∨
  as_institutions authorship = None ∨ as_countries authorship = None ∨
  w_keywords item = None ∨
  (∃ keywords, w_keywords item = Some keywords ∧ None ∈ keywords).
Proof.
  unfold _extract_work_data_for_author.
  assert (Hk : ∀ keywords, keyword_names keywords = None <-> None ∈ keywords).
  { intros keywords. unfold keyword_names.
    rewrite fmap_None, mapM_None, Exists_exists. split.
    - intros ([k|] & Hin & Hnone); [discriminate Hnone|exact Hin].
    - intros Hin. by exists None. }
  destruct (w_id item) as [item_id|]; [|by split; [intros _; auto|]].
  destruct (w_source item) as [source|]; simpl.
  - destruct (so_id source) as [sid|] eqn:Es; simpl.
    2:{ split; [intros _|done]. right. left. by eauto. }
    destruct (as_author authorship) as [author|]; [|by split; [intros _; auto 10|]].
    destruct (as_institutions authorship) as [insts|]; [|by split; [intros _; auto 10|]].
    destruct (as_countries authorship) as [cs|]; [|by split; [intros _; auto 10|]].
    destruct (w_keywords item) as [keywords|]; simpl; [|by split; [intros _; auto 10|]].
    specialize (Hk keywords). destruct (keyword_names keywords) as [names|].
    + split; [done|].
      intros [?|[(? & [= <-] & ?)|[?|[?|[?|[?|(? & [= <-] & Hin)]]]]]];
        try done; [congruence|by apply Hk in Hin].
    + split; [intros _|done]. do 6 right. exists keywords. split; [done|]. by apply Hk.
  - destruct (as_author authorship) as [author|]; [|by split; [intros _; auto 10|]].
    destruct (as_institutions authorship) as [insts|]; [|by split; [intros _; auto 10|]].
    destruct (as_countries authorship) as [cs|]; [|by split; [intros _; auto 10|]].
    destruct (w_keywords item) as [keywords|]; simpl; [|by split; [intros _; auto 10|]].
    specialize (Hk keywords). destruct (keyword_names keywords) as [names|].
    + split; [done|]. intros [?|[(? & ? & ?)|[?|[?|[?|[?|(? & [= <-] & Hin)]]]]]];
        try done. by apply Hk in Hin.
    + split; [intros _|done]. do 6 right. exists keywords. split; [done|]. by apply Hk.
Qed.

(** What a row that [_extract_work_data_for_author] returns holds of the
    work and of the authorship, as far as the loops of [main] look. *)
Lemma extract_Some item authorship search_work_ids row :
  _extract_work_data_for_author item authorship search_work_ids = Some row ->
  ∃ item_id author,
    w_id item = Some item_id ∧ as_author authorship = Some author ∧
    row_id row = Py.replace openalex_prefix [] item_id ∧
    row_author_id row = short_id (a_id author) ∧
    row_cited_by_count row = w_cited_by_count item ∧
    row_references_israel row
    = if bool_decide (row_id row ∈ search_work_ids) then u "Yes" else u "No".
Proof.
  unfold _extract_work_data_for_author.
  destruct (w_id item) as [item_id|]; [|done].
  destruct (match w_source item with Some _ => _ | None => _ end) as [source_id|];
    [|done].
  destruct (as_author authorship) as [author|]; [|done].
  destruct (as_institutions authorship) as [insts|]; [|done].
  destruct (as_countries authorship) as [cs|]; [|done].
  destruct (w_keywords item ≫= keyword_names) as [names|]; [|done].
  intros [= <-]. exists item_id, author. cbn [row_id row_author_id row_cited_by_count
    row_references_israel]. by rewrite extracted_author_id.
Qed.

(** *** The loops of [main] *)

Section Loops.
Variables (search_ids search_work_ids : gset str).

Lemma visit_authorship_seen work work_id out authorship author :
  as_author authorship = Some author ->
  (work_id, short_id (a_id author)) ∈ seen_work_author_pairs out ->
  visit_authorship search_ids search_work_ids work work_id out authorship = Some out.
Proof.
  intros Hau Hseen. unfold visit_authorship. rewrite Hau.
  case_bool_decide; [|done]. by rewrite bool_decide_true.
Qed.

Lemma visit_authorship_excluded work work_id out authorship author :
  as_author authorship = Some author ->
  short_id (a_id author) ∉ search_ids ->
  visit_authorship search_ids search_work_ids work work_id out authorship = Some out.
Proof.
  intros Hau Hout. unfold visit_authorship. rewrite Hau.
  by rewrite bool_decide_false.
Qed.

Lemma visit_authorship_ok work out authorship out' :
  short_id (w_id work) <> [] ->
  rows_ok search_ids out ->
  visit_authorship search_ids search_work_ids work (short_id (w_id work)) out authorship
  = Some out' ->
  rows_ok search_ids out'.
Proof.
  intros Hid Hok. pose proof Hok as [Hnd Hrows]. unfold visit_authorship.
  destruct (as_author authorship) as [author|] eqn:Hau; [|by intros [= <-]].
  case_bool_decide as Hs; [|by intros [= <-]].
  case_bool_decide as Hseen; [by intros [= <-]|].
  destruct (_extract_work_data_for_author work authorship search_work_ids)
    as [work_data|] eqn:Hex; [|done].
  intros [= <-].
  destruct (extract_Some _ _ _ _ Hex) as (item_id & author' & Hw & Hau' & Hrid & Haid & _).
  rewrite Hau in Hau'. injection Hau' as <-.
  destruct (short_id_work work Hid) as (item_id' & Hw' & Hshort).
  rewrite Hw in Hw'. injection Hw' as <-. rewrite <- Hshort in Hrid.
  assert (Hpair : pair_of work_data = (short_id (w_id work), short_id (a_id author))).
  { unfold pair_of. by rewrite Hrid, Haid. }
  destruct (row_id work_data) as [|c r] eqn:E; [congruence|].
  split; cbn [output_rows seen_work_author_pairs].
  - rewrite map_app. apply NoDup_app. split_and!; [done| |apply NoDup_singleton].
    intros p Hp Hp'. apply list_elem_of_singleton in Hp'. subst p.
    apply list_elem_of_fmap in Hp as (row & Hrow & Hin).
    apply Hseen. rewrite <- Hpair, Hrow. by apply Hrows.
  - intros row Hin. apply elem_of_app in Hin as [Hin|Hin].
    + destruct (Hrows row Hin). split; [|done]. apply elem_of_union. by right.
    + apply list_elem_of_singleton in Hin. subst row. split.
      * apply elem_of_union. left. apply elem_of_singleton. done.
      * by rewrite Haid.
Qed.

Lemma visit_work_ok out work out' :
  rows_ok search_ids out ->
  visit_work search_ids search_work_ids out work = Some out' ->
  rows_ok search_ids out'.
Proof.
  intros Hok. unfold visit_work.
  destruct (short_id (w_id work)) as [|c r] eqn:E; [by intros [= <-]|]. rewrite <- E.
  apply for_each_invariant; [|done].
  intros out1 authorship out2 _ Hok1. apply visit_authorship_ok; [|done]. by rewrite E.
Qed.

Lemma visit_author_ok all_author_works out author_id out' :
  rows_ok search_ids out ->
  visit_author all_author_works search_ids search_work_ids out author_id = Some out' ->
  rows_ok search_ids out'.
Proof.
  intros Hok. unfold visit_author.
  destruct (all_author_works !! author_id) as [works|]; [|by intros [= <-]].
  apply for_each_invariant; [|done]. intros out1 work out2 _. apply visit_work_ok.
Qed.

End Loops.

Lemma main_rows_ok all_json_data all_author_works rows :
  main all_json_data all_author_works = Some rows ->
  NoDup (map pair_of rows) ∧
  ∀ row, row ∈ rows -> row_author_id row ∈ search_author_ids all_json_data.
Proof.
  unfold main.
  destruct (_load_search_results_work_ids all_json_data) as [search_work_ids|]; [|done].
  intros (out & Hrun & ->)%fmap_Some.
  assert (Hok : rows_ok (search_author_ids all_json_data) out).
  { eapply for_each_invariant; [|
      |exact Hrun].
    - intros out1 x out2 _. apply visit_author_ok.
    - split; simpl; [apply NoDup_nil_2|]. by intros row ?%elem_of_nil. }
  destruct Hok as [Hnd Hrows]. split; [done|]. intros row Hrow. by apply Hrows.
Qed.

(** C5. In one run of [main] the rows written have pairwise distinct
    [(work_id, author_id)] pairs: at most one row per pair.  An authorship
    whose pair has been seen is passed over: the loop goes on with the rows
    and the set of pairs as they are, and nothing is raised, whatever the
    work and the authorship hold. *)
Theorem at_most_one_row_per_pair (all_json_data : list Work)
    (all_author_works : gmap str (list Work)) :
  (∀ rows, main all_json_data all_author_works = Some rows ->
           NoDup (map pair_of rows)) ∧
  (∀ search_ids search_work_ids work out authorship author,
     as_author authorship = Some author ->
     (short_id (w_id work), short_id (a_id author)) ∈ seen_work_author_pairs out ->
     visit_authorship search_ids search_work_ids work (short_id (w_id work)) out
       authorship
     = Some out).
Proof.
  split.
  - intros rows Hmain. by destruct (main_rows_ok _ _ _ Hmain).
  - intros search_ids search_work_ids work out authorship author.
    apply visit_authorship_seen.
Qed.

(** C10. Every row written has an author id found in the search results;
    an authorship of a fetched work whose author id is not among them has
    no row: it is passed over, without the rows or the set of pairs
    changing and without anything raised. *)
Theorem rows_only_for_search_authors (all_json_data : list Work)
    (all_author_works : gmap str (list Work)) :
  (∀ rows, main all_json_data all_author_works = Some rows ->
     (∀ row, row ∈ rows -> row_author_id row ∈ search_author_ids all_json_data) ∧
     (∀ work authorship author,
        authorship ∈ w_authorships work ->
        as_author authorship = Some author ->
        short_id (a_id author) ∉ search_author_ids all_json_data ->
        ∀ row, row ∈ rows ->
          pair_of row <> (short_id (w_id work), short_id (a_id author)))) ∧
  (∀ search_work_ids work work_id out authorship author,
     as_author authorship = Some author ->
     short_id (a_id author) ∉ search_author_ids all_json_data ->
     visit_authorship (search_author_ids all_json_data) search_work_ids work work_id
       out authorship
     = Some out).
Proof.
  split.
  - intros rows Hmain. destruct (main_rows_ok _ _ _ Hmain) as [_ H]. split; [done|].
    intros work authorship author _ _ Hout row Hrow [= _ Ha].
    apply Hout. rewrite <- Ha. by apply H.
  - intros search_work_ids work work_id out authorship author.
    apply visit_authorship_excluded.
Qed.

(** A run: the work fetched for A1 lists A1 twice and A9 once; one row is
    written. *)
Example main_example :
  main Examples.search_results {[u "A1" := [Examples.work_of_two]]}
  = Some [Examples.row_of_two].
Proof. by vm_compute. Qed.

(** A work whose source has a [null] id makes [main] raise, though the
    search results have been loaded. *)
Example main_raises_on_null_source_id :
  is_Some (_load_search_results_work_ids Examples.search_results) ∧
  main Examples.search_results {[u "A1" := [Examples.work_null_source_id]]} = None.
Proof. split; [by eexists|by vm_compute]. Qed.

Lemma at_most_one_row_per_pair_witness :
  NoDup (map pair_of [Examples.row_of_two]).
Proof.
  refine (proj1 (at_most_one_row_per_pair Examples.search_results
                   {[u "A1" := [Examples.work_of_two]]}) _ _).
  by vm_compute.
Defined.

Lemma rows_only_for_search_authors_witness :
  row_author_id Examples.row_of_two ∈ search_author_ids Examples.search_results.
Proof.
  refine (proj1 (proj1 (rows_only_for_search_authors Examples.search_results
                          {[u "A1" := [Examples.work_of_two]]})
                   [Examples.row_of_two] _) Examples.row_of_two _).
  - by vm_compute.
  - by left.
Defined.

End PairsTheory.

(** ** The normaliser *)

Module NormalizerTheory.
Import Normalizer.

Section Theory.
Variable U : UnicodeData.

Abbreviation normalize_name := (Normalizer.normalize_name U).
Abbreviation starter := (fun c => combining U c = 0).

(** *** Decomposition and marks *)

Lemma filter_bubble c racc :
  filter starter (Py.bubble U c racc) = filter starter (c :: racc).
Proof.
  induction racc as [|d r IH]; simpl; [done|].
  destruct (negb (combining U c =? 0)) eqn:Ec; simpl; [|done].
  destruct (negb (combining U d =? 0) && (combining U c <? combining U d)); [|done].
  apply negb_true_iff, Z.eqb_neq in Ec.
  rewrite (filter_cons_False _ c) by done. rewrite !filter_cons, IH.
  by rewrite (filter_cons_False _ c) by done.
Qed.

Lemma filter_fold_bubble l racc :
  filter starter (fold_left (fun racc c => Py.bubble U c racc) l racc)
  = rev (filter starter l) ++ filter starter racc.
Proof.
  revert racc. induction l as [|c l IH]; intros racc; simpl; [done|].
  rewrite IH, filter_bubble, !filter_cons. case_decide; simpl; [|done].
  by rewrite <- app_assoc.
Qed.

Lemma filter_rev {A} (P : A -> Prop) `{∀ x, Decision (P x)} (l : list A) :
  filter P (rev l) = rev (filter P l).
Proof.
  induction l as [|x l IH]; simpl; [done|].
  rewrite filter_app, IH, !filter_cons. case_decide; simpl; [done|].
  by rewrite filter_nil, app_nil_r.
Qed.

(** Canonical ordering moves marks only: it is lost on the text without
    its marks. *)
Lemma strip_combining_canonical_order l :
  strip_combining U (Py.canonical_order U l) = strip_combining U l.
Proof.
  unfold strip_combining, Py.canonical_order.
  rewrite filter_rev, filter_fold_bubble, filter_nil, app_nil_r.
  apply rev_involutive.
Qed.

Lemma letters_flat s :
  letters U s = filter starter (flat_map (decomposition U) s).
Proof. unfold letters, Py.nfkd. apply strip_combining_canonical_order. Qed.

Lemma letters_app s t : letters U (s ++ t) = letters U s ++ letters U t.
Proof. by rewrite !letters_flat, flat_map_app, filter_app. Qed.

Lemma elem_of_flat_map {A B} (f : A -> list B) (l : list A) (y : B) :
  y ∈ flat_map f l <-> ∃ x, x ∈ l ∧ y ∈ f x.
Proof.
  rewrite list_elem_of_In, in_flat_map. setoid_rewrite list_elem_of_In. done.
Qed.

Lemma elem_of_letters s b :
  b ∈ letters U s <-> combining U b = 0 ∧ ∃ c, c ∈ s ∧ b ∈ decomposition U c.
Proof. by rewrite letters_flat, list_elem_of_filter, elem_of_flat_map. Qed.

Lemma normalize_name_finish s : normalize_name s = finish U (letters U s).
Proof. by destruct s. Qed.

(** *** Code points that are not told apart *)

Lemma is_sep_kept c : is_sep U c = true -> kept U c = true.
Proof.
  unfold is_sep, kept. intros [->%Z.eqb_eq| ->]%orb_true_iff.
  - by rewrite orb_true_r.
  - by rewrite orb_true_r.
Qed.

Lemma same_letter_kept a b : same_letter U a b -> kept U a = kept U b.
Proof.
  intros [->|[[Ha Hb]|Hv]]; [done| |by destruct Hv as (_ & _ & _ & ? & _)].
  by rewrite !is_sep_kept.
Qed.

Lemma same_letter_sep a b : same_letter U a b -> is_sep U a = is_sep U b.
Proof.
  intros [->|[[Ha Hb]|Hv]]; [done|congruence|].
  destruct Hv as (_ & _ & _ & _ & ? & ? & _). congruence.
Qed.

Lemma strip_punctuation_related l1 l2 :
  Forall2 (same_letter U) l1 l2 ->
  Forall2 (same_letter U) (strip_punctuation U l1) (strip_punctuation U l2).
Proof.
  unfold strip_punctuation. induction 1 as [|a b l1 l2 Hab _ IH]; [constructor|].
  rewrite !filter_cons. rewrite (same_letter_kept _ _ Hab).
  case_decide; [by constructor|done].
Qed.

Lemma collapse_related in_run l1 l2 :
  Forall2 (same_letter U) l1 l2 ->
  Forall2 (fun a b => a = b ∨ case_variant U a b)
    (collapse_from U in_run l1) (collapse_from U in_run l2).
Proof.
  intros H. revert in_run. induction H as [|a b l1 l2 Hab _ IH]; intros in_run;
    simpl; [constructor|].
  rewrite <- (same_letter_sep _ _ Hab). destruct (is_sep U a) eqn:Ea.
  - destruct in_run; [apply IH|]. constructor; [by left|apply IH].
  - constructor; [|apply IH]. destruct Hab as [->|[[Ha _]|Hv]]; [by left| |by right].
    congruence.
Qed.

Lemma skip_ignorable_related l1 l2 :
  Forall2 (fun a b => a = b ∨ case_variant U a b) l1 l2 ->
  option_Forall2 (fun c d => cased U c = cased U d)
    (Py.skip_ignorable U l1) (Py.skip_ignorable U l2).
Proof.
  induction 1 as [|a b l1 l2 Hab _ IH]; simpl; [constructor|].
  assert (case_ignorable U a = case_ignorable U b ∧ cased U a = cased U b) as [<- Hc].
  { destruct Hab as [->|Hv]; [done|]. by destruct Hv as (_ & _ & _ & _ & _ & _ & ? & ?). }
  destruct (case_ignorable U a); [done|by constructor].
Qed.

Lemma final_sigma_related b1 b2 a1 a2 :
  Forall2 (fun a b => a = b ∨ case_variant U a b) b1 b2 ->
  Forall2 (fun a b => a = b ∨ case_variant U a b) a1 a2 ->
  Py.final_sigma U b1 a1 = Py.final_sigma U b2 a2.
Proof.
  intros Hb Ha. unfold Py.final_sigma.
  destruct (skip_ignorable_related _ _ Hb) as [c d ->|]; [|done].
  by destruct (skip_ignorable_related _ _ Ha) as [c' d' ->|].
Qed.

Lemma lower_from_related b1 b2 l1 l2 :
  Forall2 (fun a b => a = b ∨ case_variant U a b) b1 b2 ->
  Forall2 (fun a b => a = b ∨ case_variant U a b) l1 l2 ->
  Py.lower_from U b1 l1 = Py.lower_from U b2 l2.
Proof.
  intros Hb Hl. revert b1 b2 Hb. induction Hl as [|a b l1 l2 Hab Hl IH];
    intros b1 b2 Hb; simpl; [done|].
  rewrite (IH (a :: b1) (b :: b2)) by by constructor. f_equal.
  unfold Py.lower_at. destruct Hab as [->|Hv].
  - by rewrite (final_sigma_related b1 b2 l1 l2).
  - destruct Hv as (Ha & Hb' & Hlow & _).
    apply Z.eqb_neq in Ha, Hb'. by rewrite Ha, Hb'.
Qed.

(** Names whose decomposed texts without marks agree, code point by code
    point, up to separators and case variants have one normal form. *)
Lemma normalize_name_same_letters s t :
  Forall2 (same_letter U) (letters U s) (letters U t) ->
  normalize_name s = normalize_name t.
Proof.
  intros H. rewrite !normalize_name_finish. unfold finish, Py.lower, collapse.
  f_equal. apply lower_from_related; [constructor|].
  by apply collapse_related, strip_punctuation_related.
Qed.

(** *** White space at the ends *)

Lemma rstrip_snoc z c :
  Py.rstrip U (z ++ [c]) = if isspace U c then Py.rstrip U z else z ++ [c].
Proof.
  unfold Py.rstrip. rewrite rev_app_distr. simpl.
  destruct (isspace U c); [done|]. simpl. by rewrite rev_involutive.
Qed.

Lemma rstrip_cons c z :
  Py.rstrip U (c :: z)
  = match Py.rstrip U z with
    | [] => if isspace U c then [] else [c]
    | r => c :: r
    end.
Proof.
  induction z as [|d z IH] using rev_ind.
  - change [c] with ([] ++ [c]). rewrite rstrip_snoc. by destruct (isspace U c).
  - rewrite app_comm_cons, !rstrip_snoc. destruct (isspace U d); [done|].
    by destruct z.
Qed.

Lemma lstrip_idempotent s : Py.lstrip U (Py.lstrip U s) = Py.lstrip U s.
Proof.
  induction s as [|c s IH]; simpl; [done|].
  destruct (isspace U c) eqn:E; [done|]. simpl. by rewrite E.
Qed.

Lemma rstrip_idempotent s : Py.rstrip U (Py.rstrip U s) = Py.rstrip U s.
Proof. unfold Py.rstrip. by rewrite rev_involutive, lstrip_idempotent. Qed.

(** *** Texts in normal form *)

Lemma spaced_weaken P b x : spaced P b x -> spaced P true x.
Proof. destruct 1; by constructor. Qed.

Lemma spaced_app_letters P outs y b :
  outs <> [] -> Forall P outs -> spaced P true y -> spaced P b (outs ++ y).
Proof.
  intros Hne HP Hy. revert b. induction HP as [|d outs Hd HP IH]; intros b; [done|].
  simpl. constructor; [done|]. destruct outs; [done|]. by apply IH.
Qed.

Lemma spaced_Forall P b x : spaced P b x -> Forall (fun c => c = Py.space ∨ P c) x.
Proof. induction 1; constructor; auto. Qed.

Lemma spaced_lstrip P b x :
  (∀ c, P c -> isspace U c = false) -> isspace U Py.space = true ->
  spaced P b x -> spaced P false (Py.lstrip U x).
Proof.
  intros HP Hsp. destruct 1 as [b|x Hx|b c x Hc Hx]; simpl.
  - constructor.
  - rewrite Hsp. inversion Hx as [b'|?|b' c x' Hc Hx']; subst; simpl.
    + constructor.
    + rewrite (HP c Hc). by constructor.
  - rewrite (HP c Hc). by constructor.
Qed.

Lemma spaced_rstrip P b x :
  (∀ c, P c -> isspace U c = false) -> isspace U Py.space = true ->
  spaced P b x -> spaced P b (Py.rstrip U x).
Proof.
  intros HP Hsp. induction 1 as [b|x Hx IH|b c x Hc Hx IH]; rewrite ?rstrip_cons.
  - constructor.
  - rewrite Hsp. destruct (Py.rstrip U x); constructor. done.
  - rewrite (HP c Hc). destruct (Py.rstrip U x); constructor; done || constructor.
Qed.

Lemma filter_all {A} (P : A -> Prop) `{∀ x, Decision (P x)} (l : list A) :
  Forall P l -> filter P l = l.
Proof.
  induction 1 as [|x l Hx _ IH]; [done|]. by rewrite filter_cons_True, IH.
Qed.

Lemma fold_bubble_starters l racc :
  Forall starter l ->
  fold_left (fun racc c => Py.bubble U c racc) l racc = rev l ++ racc.
Proof.
  intros H. revert racc. induction H as [|c l Hc _ IH]; intros racc; simpl; [done|].
  rewrite IH, <- app_assoc. f_equal. simpl.
  destruct racc as [|d r]; simpl; [done|]. by rewrite Hc.
Qed.

Lemma canonical_order_starters l :
  Forall starter l -> Py.canonical_order U l = l.
Proof.
  intros H. unfold Py.canonical_order.
  by rewrite fold_bubble_starters, app_nil_r, rev_involutive.
Qed.

Lemma flat_map_singletons {A} (f : A -> list A) (l : list A) :
  Forall (fun x => f x = [x]) l -> flat_map f l = l.
Proof. induction 1 as [|x l Hx _ IH]; simpl; [done|]. by rewrite Hx, IH. Qed.

Lemma lower_from_fixed before x :
  Forall (fun c => tolower U c = [c] ∧ c <> Py.capital_sigma) x ->
  Py.lower_from U before x = x.
Proof.
  intros H. revert before. induction H as [|c x [Hc Hs] _ IH]; intros before;
    simpl; [done|].
  unfold Py.lower_at. apply Z.eqb_neq in Hs. by rewrite Hs, Hc, IH.
Qed.

Lemma collapse_spaced P b x :
  (∀ c, P c -> is_sep U c = false) -> is_sep U Py.space = true ->
  spaced P b x ->
  collapse_from U false x = x ∧ (b = false -> collapse_from U true x = x).
Proof.
  intros HP Hsp. induction 1 as [b|x Hx [IH1 IH2]|b c x Hc Hx [IH1 IH2]]; simpl.
  - done.
  - rewrite Hsp. split; [|done]. by rewrite IH2.
  - rewrite (HP c Hc). by rewrite IH1.
Qed.

Section Laws.
Hypothesis Laws : UnicodeLaws U.

Lemma isspace_space : isspace U Py.space = true.
Proof. by destruct (law_space U Laws) as (_ & _ & ? & _). Qed.

Lemma is_sep_space : is_sep U Py.space = true.
Proof. unfold is_sep. by rewrite isspace_space, orb_true_r. Qed.

Lemma stable_not_space d : stable U d -> isspace U d = false.
Proof.
  intros (_ & _ & _ & Hs & _). unfold is_sep in Hs. by apply orb_false_iff in Hs as [_ ?].
Qed.

Lemma stable_not_sep d : stable U d -> is_sep U d = false.
Proof. by intros (_ & _ & _ & Hs & _). Qed.

Lemma kept_word c : kept U c = true -> is_sep U c = false -> Py.is_word U c = true.
Proof.
  unfold kept, is_sep. intros Hk [H1 H2]%orb_false_iff. rewrite H1, H2 in Hk.
  by rewrite !orb_false_r in Hk.
Qed.

(** The text after the punctuation step is made of separators and of word
    characters without a decomposition. *)
Lemma strip_punctuation_letters s :
  Forall (fun b => decomposition U b = [b] ∧ combining U b = 0 ∧ kept U b = true)
    (strip_punctuation U (letters U s)).
Proof.
  apply Forall_forall. intros b [Hk (Hc & c & _ & Hd)%elem_of_letters]%list_elem_of_filter.
  split_and!; [|done|done]. by apply (law_decomposition U Laws c).
Qed.

Lemma collapse_is_spaced in_run t :
  Forall (fun b => decomposition U b = [b] ∧ combining U b = 0 ∧ kept U b = true) t ->
  spaced (fun c => decomposition U c = [c] ∧ combining U c = 0 ∧
                   Py.is_word U c = true)
    (negb in_run) (collapse_from U in_run t).
Proof.
  intros H. revert in_run. induction H as [|c t (Hd & Hc & Hk) _ IH]; intros in_run;
    simpl; [constructor|].
  destruct (is_sep U c) eqn:Es.
  - destruct in_run; [apply (IH true)|]. constructor. apply (IH true).
  - constructor; [|apply (IH false)]. split_and!; try done. by apply kept_word.
Qed.

Lemma lower_at_stable before c after :
  decomposition U c = [c] -> combining U c = 0 -> Py.is_word U c = true ->
  Py.lower_at U before c after <> [] ∧ Forall (stable U) (Py.lower_at U before c after).
Proof.
  intros Hd Hc Hw. unfold Py.lower_at.
  pose proof (law_lower U Laws c) as Hl. unfold lower_out in Hl.
  destruct (c =? Py.capital_sigma).
  - split; [done|]. constructor; [|constructor]. apply Hl; try done.
    destruct (Py.final_sigma U before after); set_solver.
  - split; [by apply (law_lower_nonempty U Laws)|].
    apply Forall_forall. intros d Hin. by apply Hl.
Qed.

Lemma lower_at_space before after : Py.lower_at U before Py.space after = [Py.space].
Proof. unfold Py.lower_at. simpl. by destruct (law_space U Laws) as (_ & _ & _ & ? & _). Qed.

Lemma lower_is_spaced b x :
  spaced (fun c => decomposition U c = [c] ∧ combining U c = 0 ∧
                   Py.is_word U c = true) b x ->
  ∀ before, spaced (stable U) b (Py.lower_from U before x).
Proof.
  induction 1 as [b|x Hx IH|b c x (Hd & Hc & Hw) Hx IH]; intros before; simpl.
  - constructor.
  - rewrite lower_at_space. simpl. constructor. apply IH.
  - destruct (lower_at_stable before c x Hd Hc Hw) as [Hne Hst].
    by apply spaced_app_letters.
Qed.

(** The output of [normalize_name]: stable word characters and single
    blanks, no blank at either end. *)
Lemma normalize_name_normal s :
  spaced (stable U) false (normalize_name s) ∧
  Py.rstrip U (normalize_name s) = normalize_name s.
Proof.
  rewrite normalize_name_finish. unfold finish, Py.strip. split.
  - apply spaced_rstrip; [apply stable_not_space|apply isspace_space|].
    eapply spaced_lstrip; [apply stable_not_space|apply isspace_space|].
    apply lower_is_spaced. apply (collapse_is_spaced false).
    apply strip_punctuation_letters.
  - apply rstrip_idempotent.
Qed.

(** A text in normal form is its own normal form. *)
Lemma normalize_name_of_normal x :
  spaced (stable U) false x -> Py.rstrip U x = x -> normalize_name x = x.
Proof.
  intros Hx Hr. pose proof (spaced_Forall _ _ _ Hx) as Hall.
  destruct (law_space U Laws) as (Hsd & Hsc & Hss & Hsl & _).
  assert (Hl : letters U x = x).
  { rewrite letters_flat, flat_map_singletons, filter_all; [done| |].
    - eapply Forall_impl; [exact Hall|]. intros c [->|Hc]; [done|]. apply Hc.
    - eapply Forall_impl; [exact Hall|]. intros c [->|Hc]; [done|]. apply Hc. }
  rewrite normalize_name_finish, Hl. unfold finish, strip_punctuation.
  rewrite filter_all.
  2:{ eapply Forall_impl; [exact Hall|]. intros c [->|Hc].
      - apply is_sep_kept, is_sep_space.
      - unfold kept. destruct Hc as (_ & _ & -> & _). done. }
  unfold collapse.
  rewrite (proj1 (collapse_spaced _ _ _ stable_not_sep is_sep_space Hx)).
  unfold Py.lower. rewrite lower_from_fixed.
  2:{ eapply Forall_impl; [exact Hall|]. intros c [->|Hc]; [done|].
      by destruct Hc as (_ & _ & _ & _ & ? & ?). }
  unfold Py.strip. replace (Py.lstrip U x) with x; [done|].
  inversion Hx as [b'|?|b' c x' Hc Hx']; subst; [done|]. simpl.
  by rewrite (stable_not_space c Hc).
Qed.

Lemma normalize_name_idempotent s :
  normalize_name (normalize_name s) = normalize_name s.
Proof.
  destruct (normalize_name_normal s). by apply normalize_name_of_normal.
Qed.

(** *** White space around a name *)

Lemma cased_space : cased U Py.space = false.
Proof. by destruct (law_space U Laws) as (_ & _ & _ & _ & ?). Qed.

Lemma skip_ignorable_snoc l c :
  Py.skip_ignorable U (l ++ [c])
  = match Py.skip_ignorable U l with
    | Some d => Some d
    | None => if case_ignorable U c then None else Some c
    end.
Proof.
  induction l as [|d l IH]; simpl; [done|]. by destruct (case_ignorable U d).
Qed.

Lemma final_sigma_before_space before after :
  Py.final_sigma U (before ++ [Py.space]) after = Py.final_sigma U before after.
Proof.
  unfold Py.final_sigma. rewrite skip_ignorable_snoc.
  destruct (Py.skip_ignorable U before); [done|].
  destruct (case_ignorable U Py.space); [done|]. by rewrite cased_space.
Qed.

Lemma final_sigma_after_space before after :
  Py.final_sigma U before (after ++ [Py.space]) = Py.final_sigma U before after.
Proof.
  unfold Py.final_sigma. rewrite skip_ignorable_snoc.
  destruct (Py.skip_ignorable U before); [|done].
  destruct (Py.skip_ignorable U after); [done|].
  destruct (case_ignorable U Py.space); [done|]. by rewrite cased_space.
Qed.

Lemma lower_from_before_space before x :
  Py.lower_from U (before ++ [Py.space]) x = Py.lower_from U before x.
Proof.
  revert before. induction x as [|c x IH]; intros before; simpl; [done|].
  rewrite app_comm_cons, IH. f_equal. unfold Py.lower_at.
  by rewrite final_sigma_before_space.
Qed.

Lemma lower_from_snoc_space before x :
  Py.lower_from U before (x ++ [Py.space]) = Py.lower_from U before x ++ [Py.space].
Proof.
  revert before. induction x as [|c x IH]; intros before; simpl.
  - by rewrite lower_at_space.
  - rewrite IH, app_assoc. f_equal. f_equal. unfold Py.lower_at.
    by rewrite final_sigma_after_space.
Qed.

Lemma lower_cons_space x :
  Py.lower U (Py.space :: x) = Py.space :: Py.lower U x.
Proof.
  unfold Py.lower. simpl. rewrite lower_at_space. simpl. f_equal.
  apply (lower_from_before_space []).
Qed.

Lemma strip_cons_space x : Py.strip U (Py.space :: x) = Py.strip U x.
Proof. unfold Py.strip. simpl. by rewrite isspace_space. Qed.

Lemma strip_snoc_space x : Py.strip U (x ++ [Py.space]) = Py.strip U x.
Proof.
  unfold Py.strip. induction x as [|c x IH]; simpl.
  - by rewrite isspace_space.
  - destruct (isspace U c); [done|].
    by rewrite app_comm_cons, rstrip_snoc, isspace_space.
Qed.

Lemma collapse_from_false_cases y :
  collapse_from U false y = collapse_from U true y ∨
  collapse_from U false y = Py.space :: collapse_from U true y.
Proof. destruct y as [|c y]; simpl; [by left|]. destruct (is_sep U c); auto. Qed.

Lemma collapse_from_snoc_sep in_run y c :
  is_sep U c = true ->
  collapse_from U in_run (y ++ [c]) = collapse_from U in_run y ∨
  collapse_from U in_run (y ++ [c]) = collapse_from U in_run y ++ [Py.space].
Proof.
  intros Hc. revert in_run. induction y as [|d y IH]; intros in_run; simpl.
  - rewrite Hc. destruct in_run; auto.
  - destruct (is_sep U d).
    + destruct in_run; [apply IH|]. destruct (IH true) as [-> | ->]; auto.
    + destruct (IH false) as [-> | ->]; auto.
Qed.

Lemma finish_cons_sep c x : is_sep U c = true -> finish U (c :: x) = finish U x.
Proof.
  intros Hc. unfold finish, strip_punctuation.
  rewrite filter_cons_True by by apply is_sep_kept.
  unfold collapse. simpl. rewrite Hc, lower_cons_space, strip_cons_space.
  destruct (collapse_from_false_cases (filter (fun c => kept U c = true) x)) as [-> | ->];
    [done|].
  by rewrite lower_cons_space, strip_cons_space.
Qed.

Lemma finish_snoc_sep c x : is_sep U c = true -> finish U (x ++ [c]) = finish U x.
Proof.
  intros Hc. unfold finish, strip_punctuation.
  rewrite filter_app, filter_cons_True, filter_nil by by apply is_sep_kept.
  unfold collapse.
  destruct (collapse_from_snoc_sep false (filter (fun c => kept U c = true) x) c Hc)
    as [-> | ->]; [done|].
  unfold Py.lower. by rewrite lower_from_snoc_space, strip_snoc_space.
Qed.

Lemma finish_padded w1 x w2 :
  Forall (fun c => is_sep U c = true) w1 ->
  Forall (fun c => is_sep U c = true) w2 ->
  finish U (w1 ++ x ++ w2) = finish U x.
Proof.
  intros H1 H2. induction H1 as [|c w1 Hc _ IH]; simpl.
  - induction w2 as [|c w2 IH] using rev_ind.
    + by rewrite app_nil_r.
    + apply Forall_app in H2 as [H2 Hc%Forall_inv].
      rewrite app_assoc, finish_snoc_sep by done. by apply IH.
  - by rewrite finish_cons_sep.
Qed.

Lemma letters_blank w :
  Forall (fun c => isspace U c = true) w ->
  Forall (fun c => is_sep U c = true) (letters U w).
Proof.
  intros Hw. apply Forall_forall. intros b (_ & c & Hc & Hb)%elem_of_letters.
  rewrite Forall_forall in Hw.
  destruct (law_isspace_decomposition U Laws c b (Hw c Hc) Hb) as [_ Hs].
  unfold is_sep. by rewrite Hs, orb_true_r.
Qed.

Lemma normalize_name_padded w1 s w2 :
  Forall (fun c => isspace U c = true) w1 ->
  Forall (fun c => isspace U c = true) w2 ->
  normalize_name (w1 ++ s ++ w2) = normalize_name s.
Proof.
  intros H1 H2. rewrite !normalize_name_finish, !letters_app.
  by apply finish_padded; apply letters_blank.
Qed.

(** *** Diacritics, hyphens and ASCII capitals *)

Lemma letters_letters s : letters U (letters U s) = letters U s.
Proof.
  rewrite (letters_flat (letters U s)), flat_map_singletons, filter_all; [done| |].
  - apply Forall_forall. by intros b [? _]%elem_of_letters.
  - apply Forall_forall. intros b (_ & c & _ & Hb)%elem_of_letters.
    by apply (law_decomposition U Laws c).
Qed.

Lemma normalize_name_letters s : normalize_name (letters U s) = normalize_name s.
Proof. by rewrite !normalize_name_finish, letters_letters. Qed.

Lemma letters_cons c s :
  letters U (c :: s) = filter starter (decomposition U c) ++ letters U s.
Proof. rewrite !letters_flat. simpl. by rewrite filter_app. Qed.

Lemma Forall2_same_letter_refl l : Forall2 (same_letter U) l l.
Proof. induction l; constructor; [by left|done]. Qed.

Lemma normalize_name_hyphen s :
  normalize_name (map hyphen_to_space s) = normalize_name s.
Proof.
  apply normalize_name_same_letters.
  destruct (law_space U Laws) as (Hsd & Hsc & _).
  destruct (law_hyphen U Laws) as (Hhd & Hhc & _).
  induction s as [|c s IH]; [constructor|].
  rewrite map_cons, !letters_cons. apply Forall2_app; [|done].
  unfold hyphen_to_space. destruct (c =? Py.hyphen) eqn:E.
  - apply Z.eqb_eq in E as ->. rewrite Hsd, Hhd.
    rewrite !filter_cons_True, filter_nil by done.
    constructor; [|constructor]. right. left. split; [apply is_sep_space|done].
  - apply Forall2_same_letter_refl.
Qed.

Lemma normalize_name_ascii_case s :
  normalize_name (map ascii_lower s) = normalize_name s.
Proof.
  apply normalize_name_same_letters.
  induction s as [|c s IH]; [constructor|].
  rewrite map_cons, !letters_cons. apply Forall2_app; [|done].
  unfold ascii_lower. destruct ((65 <=? c) && (c <=? 90)) eqn:E.
  - destruct (law_ascii_case U Laws c) as (Hd & Hc & Hd' & Hc' & Hv); [lia|].
    rewrite Hd, Hd'. rewrite !filter_cons_True, filter_nil by done.
    constructor; [|constructor]. right. right.
    destruct Hv as (H1 & H2 & H3 & H4 & H5 & H6 & H7 & H8).
    by split_and!.
  - apply Forall2_same_letter_refl.
Qed.

(** *** The characters of the output *)

Lemma elem_of_lstrip d x : d ∈ Py.lstrip U x -> d ∈ x.
Proof.
  induction x as [|c x IH]; simpl; [done|].
  destruct (isspace U c); [|done]. intros H. right. by apply IH.
Qed.

Lemma elem_of_rev_1 {A} (d : A) (x : list A) : d ∈ rev x <-> d ∈ x.
Proof. rewrite !list_elem_of_In. symmetry. apply in_rev. Qed.

Lemma elem_of_strip d x : d ∈ Py.strip U x -> d ∈ x.
Proof.
  unfold Py.strip, Py.rstrip. rewrite elem_of_rev_1.
  intros H%elem_of_lstrip. rewrite elem_of_rev_1 in H. by apply elem_of_lstrip.
Qed.

Lemma elem_of_lstrip_2 d x : d ∈ x -> isspace U d = false -> d ∈ Py.lstrip U x.
Proof.
  intros Hin Hd. induction x as [|c x IH]; simpl; [done|].
  destruct (isspace U c) eqn:E; [|done].
  apply elem_of_cons in Hin as [->|Hin]; [congruence|by apply IH].
Qed.

Lemma elem_of_strip_2 d x : d ∈ x -> isspace U d = false -> d ∈ Py.strip U x.
Proof.
  intros Hin Hd. unfold Py.strip, Py.rstrip. rewrite elem_of_rev_1.
  apply elem_of_lstrip_2; [|done]. rewrite elem_of_rev_1. by apply elem_of_lstrip_2.
Qed.

Lemma lower_at_out before c after d :
  d ∈ Py.lower_at U before c after -> d ∈ lower_out U c.
Proof.
  unfold Py.lower_at, lower_out. destruct (c =? Py.capital_sigma); [|done].
  destruct (Py.final_sigma U before after); set_solver.
Qed.

Lemma elem_of_lower_from before x d :
  d ∈ Py.lower_from U before x -> ∃ c, c ∈ x ∧ d ∈ lower_out U c.
Proof.
  revert before. induction x as [|c x IH]; intros before; simpl; [by intros ?%elem_of_nil|].
  intros [H|H]%elem_of_app.
  - exists c. split; [by left|]. by eapply lower_at_out.
  - destruct (IH _ H) as (c' & Hc' & Hd). exists c'. split; [by right|done].
Qed.

Lemma elem_of_collapse_from in_run t c :
  c ∈ collapse_from U in_run t -> c = Py.space ∨ (c ∈ t ∧ is_sep U c = false).
Proof.
  revert in_run. induction t as [|a t IH]; intros in_run; simpl; [by intros ?%elem_of_nil|].
  destruct (is_sep U a) eqn:Ea.
  - destruct in_run.
    + intros H. destruct (IH _ H) as [?|[? ?]]; [by left|right]. split; [by right|done].
    + intros [->|H]%elem_of_cons; [by left|].
      destruct (IH _ H) as [?|[? ?]]; [by left|right]. split; [by right|done].
  - intros [->|H]%elem_of_cons; [right; split; [by left|done]|].
    destruct (IH _ H) as [?|[? ?]]; [by left|right]. split; [by right|done].
Qed.

Lemma elem_of_collapse_from_2 in_run t c :
  c ∈ t -> is_sep U c = false -> c ∈ collapse_from U in_run t.
Proof.
  intros Hin Hc. revert in_run. induction t as [|a t IH]; intros in_run; simpl; [done|].
  apply elem_of_cons in Hin as [<-|Hin].
  - rewrite Hc. by left.
  - destruct (is_sep U a); [destruct in_run|]; try right; by apply IH.
Qed.

Lemma lower_out_space : lower_out U Py.space = [Py.space].
Proof. unfold lower_out. simpl. by destruct (law_space U Laws) as (_ & _ & _ & ? & _). Qed.

Lemma word_not_sep b : Py.is_word U b = true -> is_sep U b = false.
Proof.
  intros Hw. unfold is_sep. apply orb_false_iff. split.
  - apply Z.eqb_neq. intros ->.
    destruct (law_hyphen U Laws) as (_ & _ & Hh). congruence.
  - destruct (isspace U b) eqn:E; [|done].
    rewrite (law_isspace_word U Laws b E) in Hw. done.
Qed.

(** Every code point of the output is a blank or the lower case of a word
    character of the decomposed input. *)
Lemma normalize_name_chars s d :
  d ∈ normalize_name s ->
  d = Py.space ∨
  (stable U d ∧
   ∃ c b, c ∈ s ∧ b ∈ decomposition U c ∧ combining U b = 0 ∧
          Py.is_word U b = true ∧ d ∈ lower_out U b).
Proof.
  rewrite normalize_name_finish. unfold finish, Py.lower, collapse.
  intros (a & Ha & Hd)%elem_of_strip%elem_of_lower_from.
  apply elem_of_collapse_from in Ha as [->|[Ha Hsep]].
  - left. rewrite lower_out_space in Hd. by apply list_elem_of_singleton in Hd.
  - right. apply list_elem_of_filter in Ha as [Hk Ha].
    pose proof (kept_word a Hk Hsep) as Hw.
    apply elem_of_letters in Ha as (Hc & c & Hcs & Hb).
    split; [|by exists c, a].
    apply (law_lower U Laws a d); try done. by apply (law_decomposition U Laws c).
Qed.

Lemma some_lower_from before x c :
  c ∈ x -> decomposition U c = [c] -> combining U c = 0 -> Py.is_word U c = true ->
  ∃ d, d ∈ Py.lower_from U before x ∧ stable U d.
Proof.
  intros Hin Hd Hc Hw. revert before. induction x as [|a x IH]; intros before;
    [by apply elem_of_nil in Hin|].
  simpl. apply elem_of_cons in Hin as [<-|Hin].
  - destruct (lower_at_stable before c x Hd Hc Hw) as [Hne Hst].
    destruct (Py.lower_at U before c x) as [|d l]; [done|].
    exists d. split; [by left|]. by apply Forall_inv in Hst.
  - destruct (IH Hin (a :: before)) as (d & Hd' & Hs). exists d.
    split; [|done]. apply elem_of_app. by right.
Qed.

Lemma collapse_all_sep t :
  Forall (fun c => is_sep U c = true) t ->
  collapse_from U true t = [] ∧
  (collapse_from U false t = [] ∨ collapse_from U false t = [Py.space]).
Proof.
  induction 1 as [|c t Hc _ [IH _]]; simpl; [auto|]. rewrite Hc, IH. auto.
Qed.

(** The output is empty exactly when the decomposed input has no word
    character. *)
Lemma normalize_name_empty s :
  normalize_name s = [] <->
  ∀ c b, c ∈ s -> b ∈ decomposition U c -> combining U b = 0 ->
         Py.is_word U b = false.
Proof.
  split.
  - intros Hn c b Hc Hb Hcomb. destruct (Py.is_word U b) eqn:Hw; [exfalso|done].
    assert (Hl : b ∈ letters U s) by (apply elem_of_letters; eauto).
    pose proof (word_not_sep b Hw) as Hsep.
    assert (Hk : kept U b = true) by (unfold kept; by rewrite Hw).
    destruct (some_lower_from [] (collapse U (strip_punctuation U (letters U s))) b)
      as (d & Hd & Hst); try done.
    + apply elem_of_collapse_from_2; [|done]. by apply list_elem_of_filter.
    + by apply (law_decomposition U Laws c).
    + rewrite normalize_name_finish in Hn. unfold finish in Hn.
      apply (elem_of_strip_2 d) in Hd; [|by apply stable_not_space].
      unfold Py.lower in Hn. rewrite Hn in Hd. by apply elem_of_nil in Hd.
  - intros Hall. rewrite normalize_name_finish. unfold finish, collapse.
    destruct (collapse_all_sep (strip_punctuation U (letters U s))) as [_ [-> | ->]].
    + apply Forall_forall. intros b [Hk (Hc & c & Hcs & Hb)%elem_of_letters]%list_elem_of_filter.
      pose proof (Hall c b Hcs Hb Hc) as Hw. unfold kept in Hk. rewrite Hw in Hk.
      unfold is_sep. simpl in Hk. by rewrite orb_comm.
    + done.
    + by rewrite lower_cons_space, strip_cons_space.
Qed.

Lemma normalize_name_fixed s :
  collapse U (normalize_name s) = normalize_name s ∧
  Py.lower U (normalize_name s) = normalize_name s ∧
  Py.strip U (normalize_name s) = normalize_name s.
Proof.
  destruct (normalize_name_normal s) as [Hx Hr].
  pose proof (spaced_Forall _ _ _ Hx) as Hall.
  split_and!.
  - apply (collapse_spaced _ _ _ stable_not_sep is_sep_space Hx).
  - apply lower_from_fixed. eapply Forall_impl; [exact Hall|].
    intros c [->|Hc].
    + by destruct (law_space U Laws) as (_ & _ & _ & ? & _).
    + by destruct Hc as (_ & _ & _ & _ & ? & ?).
  - unfold Py.strip. replace (Py.lstrip U (normalize_name s)) with (normalize_name s);
      [done|].
    inversion Hx as [b'|?|b' c x' Hc Hx' Heq]; [done|]. simpl.
    by rewrite (stable_not_space c Hc).
Qed.

End Laws.

(** C6 (amended). Given the stated properties of the character database,
    [normalize_name] is idempotent, and gives one output for names that
    differ in diacritics which decomposition turns into combining marks (a
    name and its text without marks), in hyphens against blanks, in the case
    of ASCII letters, or in white space at the ends; more generally for names
    whose decomposed texts without marks agree, code point by code point, up
    to separators and to case variants with one lower-case mapping. *)
Theorem normalize_name_idempotent_insensitive :
  UnicodeLaws U ->
  (∀ s, normalize_name (normalize_name s) = normalize_name s) ∧
  (∀ s, normalize_name (letters U s) = normalize_name s) ∧
  (∀ s, normalize_name (map hyphen_to_space s) = normalize_name s) ∧
  (∀ s, normalize_name (map ascii_lower s) = normalize_name s) ∧
  (∀ w1 s w2,
     Forall (fun c => isspace U c = true) w1 ->
     Forall (fun c => isspace U c = true) w2 ->
     normalize_name (w1 ++ s ++ w2) = normalize_name s) ∧
  (∀ s t,
     Forall2 (same_letter U) (letters U s) (letters U t) ->
     normalize_name s = normalize_name t).
Proof.
  intros Laws. split_and!.
  - by apply normalize_name_idempotent.
  - by apply normalize_name_letters.
  - by apply normalize_name_hyphen.
  - by apply normalize_name_ascii_case.
  - by apply normalize_name_padded.
  - apply normalize_name_same_letters.
Qed.

(** C7 (amended). [normalize_name] is total, and, given the stated
    properties of the character database, every code point of its output
    is a blank or a word character (letter, digit or underscore) that is the
    lower case of a word character of the decomposed input without its
    marks; the output has no run left to collapse, is in lower case and has
    no white space at its ends; it is empty exactly when the decomposed
    input has no word character outside its marks. *)
Theorem normalize_name_output :
  UnicodeLaws U ->
  ∀ s,
    (∀ d, d ∈ normalize_name s ->
       d = Py.space ∨
       (Py.is_word U d = true ∧
        ∃ c b, c ∈ s ∧ b ∈ decomposition U c ∧ combining U b = 0 ∧
               Py.is_word U b = true ∧ d ∈ lower_out U b)) ∧
    (collapse U (normalize_name s) = normalize_name s ∧
     Py.lower U (normalize_name s) = normalize_name s ∧
     Py.strip U (normalize_name s) = normalize_name s) ∧
    (normalize_name s = [] <->
     ∀ c b, c ∈ s -> b ∈ decomposition U c -> combining U b = 0 ->
            Py.is_word U b = false).
Proof.
  intros Laws s. split; [|split].
  - intros d Hd. destruct (normalize_name_chars Laws s d Hd) as [?|[Hst ?]]; [by left|].
    right. split; [|done]. by destruct Hst as (_ & _ & ? & _).
  - by apply normalize_name_fixed.
  - by apply normalize_name_empty.
Qed.

End Theory.

(** *** The laws on the table of this file *)

Lemma find_entry_elem_of c t e : Latin1.find_entry c t = Some e -> (c, e) ∈ t.
Proof.
  induction t as [|[k e'] t IH]; simpl; [done|].
  destruct (k =? c) eqn:E.
  - intros [= ->]. apply Z.eqb_eq in E as ->. by left.
  - intros H. right. by apply IH.
Qed.

Lemma entry_of_cases (P : Z -> Latin1.entry -> Prop) :
  Forall (fun ce => P ce.1 ce.2) Latin1.table ->
  (∀ c, Latin1.find_entry c Latin1.table = None -> P c (Latin1.unassigned c)) ->
  ∀ c, P c (Latin1.entry_of c).
Proof.
  intros Htable Hother c. unfold Latin1.entry_of.
  destruct (Latin1.find_entry c Latin1.table) as [e|] eqn:E; [|by apply Hother].
  apply find_entry_elem_of in E. rewrite Forall_forall in Htable.
  apply (Htable (c, e) E).
Qed.

Lemma entry_of_unassigned c :
  Latin1.find_entry c Latin1.table = None -> Latin1.entry_of c = Latin1.unassigned c.
Proof. intros H. unfold Latin1.entry_of. by rewrite H. Qed.

Ltac decide_by_computation :=
  lazymatch goal with
  | |- ?P =>
      let d := constr:(_ : Decision P) in
      apply (@bool_decide_unpack P d); vm_compute; exact I
  end.

Lemma latin1_law_decomposition c :
  Forall (fun d => decomposition Latin1.data d = [d]) (decomposition Latin1.data c).
Proof.
  apply (entry_of_cases (fun c e =>
    Forall (fun d => decomposition Latin1.data d = [d]) (Latin1.e_decomposition e))).
  - decide_by_computation.
  - intros c' H. constructor; [|constructor]. simpl. by rewrite entry_of_unassigned.
Qed.

Lemma latin1_law_lower c :
  decomposition Latin1.data c = [c] -> combining Latin1.data c = 0 ->
  Py.is_word Latin1.data c = true ->
  Forall (stable Latin1.data) (lower_out Latin1.data c).
Proof.
  apply (entry_of_cases (fun c e =>
    Latin1.e_decomposition e = [c] -> Latin1.e_combining e = 0 ->
    Latin1.e_isalnum e || (c =? Py.underscore) = true ->
    Forall (stable Latin1.data)
      (if c =? Py.capital_sigma then [Py.small_sigma; Py.small_final_sigma]
       else Latin1.e_tolower e))).
  - decide_by_computation.
  - intros c' _ _ _ Hw. simpl in Hw. apply Z.eqb_eq in Hw as ->. decide_by_computation.
Qed.

Lemma latin1_law_lower_nonempty c : tolower Latin1.data c <> [].
Proof.
  apply (entry_of_cases (fun c e => Latin1.e_tolower e <> [])).
  - decide_by_computation.
  - done.
Qed.

Lemma latin1_law_isspace c :
  isspace Latin1.data c = true ->
  Py.is_word Latin1.data c = false ∧
  Forall (fun d => combining Latin1.data d = 0 ∧ isspace Latin1.data d = true)
    (decomposition Latin1.data c).
Proof.
  apply (entry_of_cases (fun c e =>
    Latin1.e_isspace e = true ->
    Latin1.e_isalnum e || (c =? Py.underscore) = false ∧
    Forall (fun d => combining Latin1.data d = 0 ∧ isspace Latin1.data d = true)
      (Latin1.e_decomposition e))).
  - decide_by_computation.
  - done.
Qed.

Lemma latin1_law_ascii_case c :
  65 <= c <= 90 ->
  decomposition Latin1.data c = [c] ∧ combining Latin1.data c = 0 ∧
  decomposition Latin1.data (c + 32) = [c + 32] ∧ combining Latin1.data (c + 32) = 0 ∧
  case_variant Latin1.data c (c + 32).
Proof.
  intros Hc.
  assert (Hall : Forall (fun c =>
    decomposition Latin1.data c = [c] ∧ combining Latin1.data c = 0 ∧
    decomposition Latin1.data (c + 32) = [c + 32] ∧
    combining Latin1.data (c + 32) = 0 ∧
    case_variant Latin1.data c (c + 32)) (map Z.of_nat (seq 65 26))).
  { decide_by_computation. }
  rewrite Forall_forall in Hall. apply Hall.
  apply list_elem_of_fmap. exists (Z.to_nat c). split; [lia|].
  apply list_elem_of_In, in_seq. lia.
Qed.

(** The table of this file has the properties relied on. *)
Lemma latin1_laws : UnicodeLaws Latin1.data.
Proof.
  split.
  - intros c d Hd. pose proof (latin1_law_decomposition c) as H.
    rewrite Forall_forall in H. by apply H.
  - intros c d Hd Hc Hw Hin. pose proof (latin1_law_lower c Hd Hc Hw) as H.
    rewrite Forall_forall in H. by apply H.
  - intros c _ _ _. apply latin1_law_lower_nonempty.
  - by vm_compute.
  - intros c Hc. by apply latin1_law_isspace.
  - by vm_compute.
  - intros c d Hc Hd. destruct (latin1_law_isspace c Hc) as [_ H].
    rewrite Forall_forall in H. by apply H.
  - apply latin1_law_ascii_case.
Qed.

(** The example of the design document. *)
Example jose_garcia :
  let jose := u "Jos" ++ [233] ++ u " Garc" ++ [237] ++ u "a" in
  Normalizer.normalize_name Latin1.data jose = u "jose garcia" ∧
  Normalizer.normalize_name Latin1.data (u "jose garcia") = u "jose garcia" ∧
  Normalizer.normalize_name Latin1.data (u "JOSE-GARCIA") = u "jose garcia".
Proof. by vm_compute. Qed.

(** C6, as stated, fails: the upper case of "Weiß" is "WEISS", and the two
    have different normal forms. *)
Lemma sharp_s_case_variants_differ :
  let weiss := u "Wei" ++ [223] in
  Py.upper Latin1.data weiss = u "WEISS" ∧
  Normalizer.normalize_name Latin1.data weiss = u "wei" ++ [223] ∧
  Normalizer.normalize_name Latin1.data (u "WEISS") = u "weiss" ∧
  Normalizer.normalize_name Latin1.data weiss
  <> Normalizer.normalize_name Latin1.data (Py.upper Latin1.data weiss).
Proof. split_and!; by vm_compute. Qed.

Lemma normalize_name_idempotent_insensitive_witness :
  let jose := u "  Jos" ++ [233] ++ u "-Garc" ++ [237] ++ u "a " in
  Normalizer.normalize_name Latin1.data (Normalizer.normalize_name Latin1.data jose)
  = Normalizer.normalize_name Latin1.data jose.
Proof.
  intros jose.
  exact (proj1 (normalize_name_idempotent_insensitive Latin1.data latin1_laws) jose).
Defined.

(** C7, as stated, fails: the underscore is no letter, digit, white space
    or hyphen, and it is kept. *)
Lemma underscore_is_kept :
  Normalizer.normalize_name Latin1.data (u "a_b") = u "a_b" ∧
  Py.underscore ∈ Normalizer.normalize_name Latin1.data (u "a_b") ∧
  isalnum Latin1.data Py.underscore = false ∧
  isspace Latin1.data Py.underscore = false ∧
  Py.underscore <> Py.hyphen.
Proof. split_and!; try by vm_compute. vm_compute. set_solver. Qed.

Lemma normalize_name_output_witness :
  Normalizer.normalize_name Latin1.data (u "?! ") = [] <->
  ∀ c b, c ∈ u "?! " -> b ∈ decomposition Latin1.data c ->
         combining Latin1.data b = 0 -> Py.is_word Latin1.data b = false.
Proof.
  exact (proj2 (proj2 (normalize_name_output Latin1.data latin1_laws (u "?! ")))).
Defined.

End NormalizerTheory.

(** ** The groups and their display names *)

Module GroupTheory.
Import Normalizer Aggregate AggregateTheory.

Section Theory.
Variable U : UnicodeData.

Abbreviation normalize_name := (Normalizer.normalize_name U).

(** [word.capitalize()], written out: the first code point in title case,
    the others lowered. *)
Abbreviation capitalized := (fun word : str =>
  match word with
  | c :: r => totitle U c ++ Py.lower_from U [c] r
  | [] => []
  end).

(** A word with its first code point in title case and the others as they
    are. *)
Abbreviation initial_in_title_case := (fun word : str =>
  match word with
  | c :: r => totitle U c ++ r
  | [] => []
  end).

Lemma title_case_name_words k :
  title_case_name U k
  = Py.join [Py.space] (map capitalized (Py.split_ws U k)).
Proof. unfold title_case_name. by destruct k. Qed.

(** *** The words of a text in normal form *)

Lemma join_cons_word (c : Z) (w : str) (ws : list str) :
  c :: Py.join [Py.space] (w :: ws) = Py.join [Py.space] ((c :: w) :: ws).
Proof. by destruct ws. Qed.

Lemma join_words_nil (words : list str) :
  Forall (fun w => w <> []) words -> Py.join [Py.space] words = [] -> words = [].
Proof.
  intros Hall. destruct Hall as [|p parts Hp Hall]; [done|].
  destruct parts; simpl; [done|]. by destruct p.
Qed.

Lemma split_ws_from_word cur w rest :
  Forall (fun c => isspace U c = false) w ->
  Py.split_ws_from U cur (w ++ rest) = Py.split_ws_from U (rev w ++ cur) rest.
Proof.
  intros Hw. revert cur. induction Hw as [|c w Hc Hw IH]; intros cur; [done|].
  simpl. rewrite Hc, IH. by rewrite <- app_assoc.
Qed.

Lemma split_ws_join (words : list str) :
  isspace U Py.space = true ->
  Forall (fun w => w <> [] ∧ Forall (fun c => isspace U c = false) w) words ->
  Py.split_ws U (Py.join [Py.space] words) = words.
Proof.
  intros Hsp Hall. unfold Py.split_ws.
  induction Hall as [|w words [Hne Hw] Hall IH]; [done|].
  assert (Hrev : rev w <> []).
  { intros Hnil. apply Hne. by rewrite <- (rev_involutive w), Hnil. }
  destruct words as [|w' words].
  - simpl. rewrite <- (app_nil_r w) at 1. rewrite split_ws_from_word by done.
    simpl. rewrite app_nil_r. destruct (rev w) eqn:E; [done|].
    by rewrite <- E, rev_involutive.
  - change (Py.join [Py.space] (w :: w' :: words))
      with (w ++ Py.space :: Py.join [Py.space] (w' :: words)).
    rewrite split_ws_from_word by done. cbn [Py.split_ws_from]. rewrite Hsp, app_nil_r.
    destruct (rev w) eqn:E; [done|]. by rewrite <- E, rev_involutive, IH.
Qed.

Lemma length_lstrip x : (length (Py.lstrip U x) <= length x)%nat.
Proof.
  induction x as [|c x IH]; simpl; [done|]. destruct (isspace U c); simpl; lia.
Qed.

Lemma rstrip_fixed_last x :
  isspace U Py.space = true -> Py.rstrip U x = x -> last x <> Some Py.space.
Proof.
  intros Hsp Hfix Hlast. apply last_Some in Hlast as [y ->].
  rewrite NormalizerTheory.rstrip_snoc, Hsp in Hfix.
  assert (Hlen : (length (Py.rstrip U y) <= length y)%nat).
  { unfold Py.rstrip. rewrite length_rev.
    etrans; [apply length_lstrip|]. by rewrite length_rev. }
  rewrite Hfix, length_app in Hlen. simpl in Hlen. lia.
Qed.

Section Words.
Variable P : Z -> Prop.
Hypothesis P_not_space : ∀ c, P c -> c <> Py.space.

Lemma spaced_words b x :
  spaced P b x -> last x <> Some Py.space ->
  ∃ words,
    Forall (fun w => w <> [] ∧ Forall P w) words ∧
    match x with
    | c :: _ =>
        if decide (c = Py.space)
        then x = Py.space :: Py.join [Py.space] words ∧ words <> []
        else x = Py.join [Py.space] words
    | [] => words = []
    end.
Proof.
  induction 1 as [b|x Hx IH|b c x Hc Hx IH]; intros Hlast.
  - by exists [].
  - destruct x as [|d x]; [done|].
    destruct IH as (words & Hgood & Hwords); [done|].
    assert (Hd : d <> Py.space).
    { inversion Hx; subst. by apply P_not_space. }
    rewrite decide_False in Hwords by done.
    exists words. rewrite decide_True by done. split; [done|].
    split; [by rewrite Hwords|]. intros ->. done.
  - pose proof (P_not_space c Hc) as Hne.
    destruct x as [|d x].
    { exists [[c]]. rewrite decide_False by done. split; [|done].
      constructor; [|done]. split; [done|]. by constructor. }
    destruct IH as (words & Hgood & Hwords); [done|].
    destruct (decide (d = Py.space)) as [->|Hd].
    + destruct Hwords as [-> Hnil]. exists ([c] :: words).
      rewrite decide_False by done. split.
      * constructor; [|done]. split; [done|]. by constructor.
      * by destruct words.
    + destruct words as [|w words]; [done|]. rewrite Hwords.
      exists ((c :: w) :: words). rewrite decide_False by done.
      split; [|apply join_cons_word].
      apply Forall_cons in Hgood as [[Hw1 Hw2] Hgood].
      constructor; [|done]. split; [done|]. by constructor.
Qed.

End Words.

(** The display name of a canonical key: the words of the key, each with
    its first code point in title case. *)
Lemma title_case_name_normal (Laws : UnicodeLaws U) (name : str) :
  let k := normalize_name name in
  ∃ words,
    k = Py.join [Py.space] words ∧
    Forall (fun w => w <> [] ∧ Py.space ∉ w) words ∧
    title_case_name U k = Py.join [Py.space] (map initial_in_title_case words).
Proof.
  intros k. destruct (NormalizerTheory.normalize_name_normal U Laws name) as [Hsp Hr].
  fold k in Hsp, Hr.
  pose proof (NormalizerTheory.isspace_space U Laws) as Hspace.
  assert (Hstable : ∀ c, stable U c -> c <> Py.space).
  { intros c Hc ->. apply NormalizerTheory.stable_not_space in Hc. congruence. }
  destruct (spaced_words (stable U) Hstable false k Hsp) as (words & Hgood & Hwords).
  { by apply rstrip_fixed_last. }
  assert (Hk : k = Py.join [Py.space] words).
  { destruct k as [|c k']; [by subst|].
    destruct (decide (c = Py.space)) as [->|Hc]; [|done].
    inversion Hsp; subst. by destruct (Hstable Py.space). }
  exists words. split; [done|]. split.
  - eapply Forall_impl; [exact Hgood|]. intros w [Hne Hw]. split; [done|].
    intros Hin. rewrite Forall_forall in Hw. by apply (Hstable Py.space); [apply Hw|].
  - rewrite title_case_name_words, Hk, split_ws_join; [|done|].
    + f_equal. apply Forall_fmap_ext_1. eapply Forall_impl; [exact Hgood|].
      intros [|c r] [_ Hw]; [done|]. apply Forall_cons in Hw as [_ Hr'].
      cbv beta. f_equal. apply NormalizerTheory.lower_from_fixed.
      eapply Forall_impl; [exact Hr'|]. intros d (_ & _ & _ & _ & Hl & Hs). done.
    + eapply Forall_impl; [exact Hgood|]. intros w [Hne Hw]. split; [done|].
      eapply Forall_impl; [exact Hw|]. intros c.
      apply NormalizerTheory.stable_not_space.
Qed.

(** C4. Within one run the same canonical key always resolves to the same
    group id, and different keys to different ids (no id is used twice);
    the ids come from a counter that starts at 0 and grows by one with each
    new key: a key sighted for the first time gets the number of the keys
    sighted before it, and the counter ends at the number of keys; the
    normalised name recorded for a group id is the one normalised name of
    all its rows, and the output row of the group shows it title-cased: its
    words, single blanks between them, each with its first code point in
    title case and the others lowered.  Over a character database with the
    properties of Unicode's, the words are those of the normalised name
    itself and only their first code points differ from it. *)
Theorem group_ids_stable_and_monotonic (rows : list Row) :
  let tr := sightings U rows in
  let st := process_rows U rows in
  (∀ s1 s2, s1 ∈ tr -> s2 ∈ tr ->
     (normalize_name (s_name s1) = normalize_name (s_name s2)
      <-> s_group s1 = s_group s2)) ∧
  (∀ tr1 s tr2, tr = tr1 ++ s :: tr2 ->
     normalize_name (s_name s) ∉ keys_of U tr1 ->
     s_group s = size (keys_of U tr1)) ∧
  group_id_counter st = size (keys_of U tr) ∧
  (∀ s, s ∈ tr ->
     group_normalized_names st !! s_group s = Some (normalize_name (s_name s)) ∧
     ∃ data, author_data st !! s_group s = Some data ∧
       output_row U st (s_group s) data ∈ output_rows U st ∧
       out_author_name (output_row U st (s_group s) data)
       = Py.join [Py.space]
           (map (fun word => match word with
                             | c :: r => totitle U c ++ Py.lower_from U [c] r
                             | [] => []
                             end)
                (Py.split_ws U (normalize_name (s_name s)))) ∧
       (UnicodeLaws U ->
        ∃ words,
          normalize_name (s_name s) = Py.join [Py.space] words ∧
          Forall (fun word => word <> [] ∧ Py.space ∉ word) words ∧
          out_author_name (output_row U st (s_group s) data)
          = Py.join [Py.space]
              (map (fun word => match word with
                                | c :: r => totitle U c ++ r
                                | [] => []
                                end)
                   words))).
Proof.
  intros tr st. pose proof (invariant_rows U rows) as Inv. fold tr st in Inv.
  split_and!.
  - intros s1 s2 H1 H2.
    apply (inv_trace _ _ _ Inv) in H1, H2. split.
    + intros E. rewrite E in H1. congruence.
    + intros E. rewrite E in H1.
      apply (inv_names _ _ _ Inv) in H1, H2. congruence.
  - apply first_sighting_numbered.
  - apply (inv_counter _ _ _ Inv).
  - intros s Hs.
    assert (Hn : group_normalized_names st !! s_group s
                 = Some (normalize_name (s_name s))).
    { apply (inv_names _ _ _ Inv). by apply (inv_trace _ _ _ Inv). }
    split; [done|].
    destruct (proj2 (inv_data _ _ _ Inv (s_group s))) as [data Hd]; [by exists s|].
    assert (Hname : out_author_name (output_row U st (s_group s) data)
                    = title_case_name U (normalize_name (s_name s))).
    { unfold output_row. simpl. by rewrite Hn. }
    exists data. split_and!; [done| | |].
    + unfold output_rows. apply elem_of_sort_by_works_count.
      apply list_elem_of_omap. exists (s_group s). split.
      * apply (inv_order _ _ _ Inv). by rewrite Hd.
      * by rewrite Hd.
    + rewrite Hname. apply title_case_name_words.
    + intros Laws. rewrite Hname. apply (title_case_name_normal Laws).
Qed.

End Theory.

Lemma group_ids_stable_and_monotonic_witness :
  let rows := Examples.rows_two_spellings in
  let st := process_rows Latin1.data rows in
  ∃ data, author_data st !! 0%nat = Some data ∧
          out_author_name (output_row Latin1.data st 0 data) = u "J Smith".
Proof.
  intros rows st. subst st.
  destruct (proj2 (proj2 (proj2 (group_ids_stable_and_monotonic Latin1.data rows)))
              {| s_group := 0; s_name := u "j smith"; s_work_id := u "W2";
                 s_row := Examples.row "j smith" "W2" "A1" "4" "MIT" |})
    as (_ & data & Hdata & _ & Hname & _).
  - vm_compute. right. left.
  - exists data. split; [exact Hdata|]. cbn [s_group] in Hname. rewrite Hname.
    by vm_compute.
Defined.

End GroupTheory.

(** ** More on the aggregator *)

Module AggregateExtras.
Import Aggregate AggregateTheory.

Section Extras.
Variable U : UnicodeData.

Abbreviation normalize_name := (Normalizer.normalize_name U).

(** *** The order of the output *)

Lemma insert_by_works_count_sorted x l :
  StronglySorted by_works_count l ->
  StronglySorted by_works_count (insert_by_works_count x l).
Proof.
  induction 1 as [|y l Hl IH Hy]; simpl; [repeat constructor|].
  destruct (out_works_count y <=? out_works_count x)%nat eqn:E.
  - apply Nat.leb_le in E. constructor; [by constructor|].
    constructor; [done|]. eapply Forall_impl; [exact Hy|].
    unfold by_works_count. intros z Hz. lia.
  - apply Nat.leb_gt in E. constructor; [done|].
    apply Forall_forall. intros z [->|Hz]%elem_of_insert_by_works_count.
    + unfold by_works_count. lia.
    + rewrite Forall_forall in Hy. by apply Hy.
Qed.

Lemma sort_by_works_count_sorted l :
  StronglySorted by_works_count (sort_by_works_count l).
Proof.
  induction l as [|x l IH]; simpl; [constructor|].
  by apply insert_by_works_count_sorted.
Qed.

Lemma filter_insert_by_works_count n x l :
  filter (fun r => out_works_count r = n) (insert_by_works_count x l)
  = filter (fun r => out_works_count r = n) (x :: l).
Proof.
  induction l as [|y l IH]; simpl; [done|].
  destruct (out_works_count y <=? out_works_count x)%nat eqn:E; [done|].
  apply Nat.leb_gt in E. rewrite (filter_cons _ y), IH, !filter_cons.
  repeat case_decide; try done. lia.
Qed.

Lemma filter_sort_by_works_count n l :
  filter (fun r => out_works_count r = n) (sort_by_works_count l)
  = filter (fun r => out_works_count r = n) l.
Proof.
  induction l as [|x l IH]; simpl; [done|].
  by rewrite filter_insert_by_works_count, !filter_cons, IH.
Qed.

Lemma insert_by_works_count_Permutation x l : insert_by_works_count x l ≡ₚ x :: l.
Proof.
  induction l as [|y l IH]; simpl; [done|].
  destruct (_ <=? _)%nat; [done|]. rewrite IH. apply Permutation_swap.
Qed.

Lemma sort_by_works_count_Permutation l : sort_by_works_count l ≡ₚ l.
Proof.
  induction l as [|x l IH]; simpl; [done|].
  by rewrite insert_by_works_count_Permutation, IH.
Qed.

(** X1. The output holds the rows of the groups, each once, with the
    greatest [works_count] first; rows with the same [works_count] keep the
    order of their groups. *)
Theorem output_sorted_stable (rows : list Row) :
  let out := aggregate_authors U rows in
  let groups := rows_in_group_order U (process_rows U rows) in
  out ≡ₚ groups ∧
  StronglySorted by_works_count out ∧
  ∀ n, filter (fun r => out_works_count r = n) out
       = filter (fun r => out_works_count r = n) groups.
Proof.
  split_and!.
  - apply sort_by_works_count_Permutation.
  - apply sort_by_works_count_sorted.
  - intros n. apply filter_sort_by_works_count.
Qed.

(** *** One row for each group *)

Lemma group_order_step st tr row :
  invariant U st tr ->
  author_data_keys st = seq 0 (group_id_counter st) ->
  (∀ g, is_Some (author_data st !! g) <-> (g < group_id_counter st)%nat) ->
  let st' := process_row U st row in
  author_data_keys st' = seq 0 (group_id_counter st') ∧
  (∀ g, is_Some (author_data st' !! g) <-> (g < group_id_counter st')%nat).
Proof.
  intros Inv Hkeys Hdom. cbv zeta.
  destruct (sighting U st row) as [s|] eqn:Hs.
  2:{ rewrite process_row_skipped; [done|by apply (sighting_None U st)]. }
  rewrite (process_row_sighted U _ _ _ Hs). cbv zeta. simpl.
  destruct (sighting_Some U _ _ _ Hs) as (_ & _ & _ & _ & _ & Hg).
  destruct (resolve_spec U st tr (s_name s) Inv) as (Hcase & _).
  destruct (resolve_author_data U st (s_name s)) as [Hd Ho].
  rewrite <- Hg in Hcase. rewrite Hd, Ho.
  destruct Hcase as [(Hk & _ & _ & ->)|(Hk & Hgc & _ & _ & ->)].
  - apply (inv_below _ _ _ Inv) in Hk.
    destruct (proj2 (Hdom (s_group s)) Hk) as [d Hdg]. rewrite Hdg.
    split; [done|]. intros g. rewrite lookup_insert. case_decide; [subst|apply Hdom].
    split; [done|by eauto].
  - destruct (author_data st !! s_group s) as [d|] eqn:Hdg.
    { assert (s_group s < group_id_counter st)%nat; [|lia]. apply Hdom. by eauto. }
    split.
    + rewrite Hkeys, Hgc. by rewrite seq_S.
    + intros g. rewrite lookup_insert. case_decide.
      * subst g. split; [lia|by eauto].
      * rewrite Hdom. lia.
Qed.

Lemma group_order_rows rows :
  let st := process_rows U rows in
  author_data_keys st = seq 0 (group_id_counter st) ∧
  (∀ g, is_Some (author_data st !! g) <-> (g < group_id_counter st)%nat).
Proof.
  induction rows as [|row rows IH] using rev_ind.
  - cbv zeta. unfold process_rows. simpl. split; [done|].
    intros g. rewrite lookup_empty. split; [by intros [? ?]|lia].
  - rewrite process_rows_snoc. destruct IH as [IH1 IH2].
    by apply (group_order_step _ (sightings U rows) row (invariant_rows U rows)).
Qed.

Lemma length_omap_total {A B} (f : A -> option B) (l : list A) :
  (∀ x, x ∈ l -> is_Some (f x)) -> length (omap f l) = length l.
Proof.
  induction l as [|x l IH]; intros H; [done|].
  destruct (H x) as [y Hy]; [by left|].
  cbn [omap list_omap]. rewrite Hy. cbn [length]. f_equal.
  apply IH. intros z Hz. apply H. by right.
Qed.

(** X2. The output has one row for each canonical key among the rows that
    pass the guards: its length is the number of distinct normalised author
    names, which is also where the counter of group ids ends. *)
Theorem one_output_row_per_key (rows : list Row) :
  length (aggregate_authors U rows) = size (keys_of U (sightings U rows)) ∧
  group_id_counter (process_rows U rows) = size (keys_of U (sightings U rows)).
Proof.
  destruct (group_order_rows rows) as [Hkeys Hdom].
  pose proof (inv_counter _ _ _ (invariant_rows U rows)) as Hc.
  split; [|done]. unfold aggregate_authors, output_rows.
  rewrite (Permutation_length (sort_by_works_count_Permutation _)).
  rewrite length_omap_total.
  - by rewrite Hkeys, length_seq.
  - intros g Hg. rewrite Hkeys in Hg. apply list_elem_of_In, in_seq in Hg.
    destruct (proj2 (Hdom g)) as [d ->]; [lia|]. by eauto.
Qed.

(** *** Rows that do not pass the guards *)

Lemma process_row_not_passing st row :
  ¬ passes_guards U row -> process_row U st row = st.
Proof.
  intros H. apply process_row_skipped.
  destruct (decide (Py.strip U (row_author_name row) = [])); [by left|].
  destruct (decide (Py.strip U (row_id row) = [])); [by right|].
  exfalso. by apply H.
Qed.

Lemma fold_filter_passing rows st :
  fold_left (process_row U) (filter (passes_guards U) rows) st
  = fold_left (process_row U) rows st.
Proof.
  revert st. induction rows as [|row rows IH]; intros st; [done|].
  rewrite filter_cons. case_decide; simpl; [apply IH|].
  by rewrite process_row_not_passing.
Qed.

(** X5. The rows whose author name or whose work id is empty after
    stripping take no part: the output is that of the other rows. *)
Theorem rows_without_name_or_id_ignored (rows : list Row) :
  aggregate_authors U rows = aggregate_authors U (filter (passes_guards U) rows) ∧
  sightings U rows = sightings U (filter (passes_guards U) rows).
Proof.
  split.
  - unfold aggregate_authors, process_rows. by rewrite fold_filter_passing.
  - unfold sightings. generalize initial. induction rows as [|row rows IH]; intros st;
      [done|].
    rewrite filter_cons. simpl. case_decide as Hp.
    + simpl. rewrite !IH. done.
    + rewrite process_row_not_passing by done.
      destruct (sighting U st row) as [s|] eqn:Hs; [|apply IH].
      exfalso. apply Hp. destruct (sighting_Some U _ _ _ Hs) as (Hn & Hw & _ & ? & ? & _).
      split; congruence.
Qed.

(** *** Bounds on the columns *)

Lemma year_of_range row year : year_of U row = Some year -> 1900 <= year <= 2100.
Proof.
  unfold year_of. destruct (4 <=? _)%nat; [|done].
  destruct (Py.int U _) as [y|]; [|done].
  destruct ((1900 <=? y) && (y <=? 2100)) eqn:E; [|done].
  intros [= <-]. lia.
Qed.

Abbreviation bounded := (fun data : AuthorData =>
  work_ids data <> ∅ ∧ specific_work_ids data ⊆ work_ids data ∧
  ∀ y, y ∈ years data -> 1900 <= y <= 2100).

Lemma accumulate_bounded row w data :
  data = new_author_data ∨ bounded data -> bounded (accumulate U row w data).
Proof.
  intros H.
  assert (Hs : specific_work_ids data ⊆ work_ids data) by (destruct H as [->|H]; set_solver).
  assert (Hy : ∀ y, y ∈ years data -> 1900 <= y <= 2100).
  { destruct H as [->|H]; [set_solver|apply H]. }
  unfold accumulate. simpl. split_and!.
  - set_solver.
  - destruct (is_relevant U row); set_solver.
  - intros y. destruct (year_of U row) as [year|] eqn:E; [|apply Hy].
    intros [->%elem_of_singleton|Hin]%elem_of_union; [by eapply year_of_range|by apply Hy].
Qed.

Lemma bounded_rows rows g data :
  author_data (process_rows U rows) !! g = Some data -> bounded data.
Proof.
  revert g data. induction rows as [|row rows IH] using rev_ind; intros g data.
  { unfold process_rows. simpl. by rewrite lookup_empty. }
  rewrite process_rows_snoc.
  destruct (sighting U (process_rows U rows) row) as [s|] eqn:Hs.
  2:{ rewrite process_row_skipped; [apply IH|by apply (sighting_None U (process_rows U rows))]. }
  rewrite (process_row_sighted U _ _ _ Hs). cbv zeta. simpl.
  destruct (resolve_author_data U (process_rows U rows) (s_name s)) as [Hd _]. rewrite Hd.
  rewrite lookup_insert. case_decide; [|apply IH].
  intros [= <-]. apply accumulate_bounded.
  destruct (author_data (process_rows U rows) !! s_group s) eqn:E; simpl; [|by left].
  right. by eapply IH.
Qed.

Lemma elem_of_aggregate_authors rows r :
  r ∈ aggregate_authors U rows <->
  ∃ g data, author_data (process_rows U rows) !! g = Some data ∧
            r = output_row U (process_rows U rows) g data.
Proof.
  unfold aggregate_authors, output_rows.
  rewrite elem_of_sort_by_works_count, list_elem_of_omap.
  destruct (group_order_rows rows) as [Hkeys Hdom]. split.
  - intros (g & _ & Hr). destruct (author_data _ !! g) as [data|] eqn:E; [|done].
    injection Hr as <-. by exists g, data.
  - intros (g & data & Hd & ->). exists g. rewrite Hd. split; [|done].
    rewrite Hkeys. apply list_elem_of_In, in_seq.
    assert (g < group_id_counter (process_rows U rows))%nat; [|lia].
    apply Hdom. by eauto.
Qed.

(** X3. Every output row counts at least one work, and at most as many
    works of the search results as works. *)
Theorem works_count_bounds (rows : list Row) (r : OutputRow) :
  r ∈ aggregate_authors U rows ->
  (1 <= out_works_count r)%nat ∧
  (out_specific_works_count r <= out_works_count r)%nat.
Proof.
  intros (g & data & Hd & ->)%elem_of_aggregate_authors.
  destruct (bounded_rows _ _ _ Hd) as (Hne & Hsub & _). simpl. split.
  - destruct (size (work_ids data)) eqn:E; [|lia].
    apply size_empty_inv in E. by apply leibniz_equiv in E.
  - by apply subseteq_size.
Qed.

Lemma sorted_head_last (l : list Z) a b :
  StronglySorted Z.le l -> head l = Some a -> last l = Some b -> a <= b.
Proof.
  intros Hs Ha Hb. destruct l as [|x l]; [done|]. injection Ha as ->.
  apply StronglySorted_inv in Hs as [_ Hall].
  destruct l as [|y l]; [injection Hb as ->; lia|].
  rewrite Forall_forall in Hall. apply Hall.
  change (last (a :: y :: l)) with (last (y :: l)) in Hb. by apply last_Some_elem_of.
Qed.

(** X4. The years of an output row are both absent or both present, and
    then between 1900 and 2100 with [min_year] at most [max_year]. *)
Theorem years_bounds (rows : list Row) (r : OutputRow) :
  r ∈ aggregate_authors U rows ->
  match out_min_year r, out_max_year r with
  | Some a, Some b => 1900 <= a ∧ a <= b ∧ b <= 2100
  | None, None => True
  | _, _ => False
  end.
Proof.
  intros (g & data & Hd & ->)%elem_of_aggregate_authors.
  destruct (bounded_rows _ _ _ Hd) as (_ & _ & Hy). simpl.
  set (l := merge_sort Z.le (elements (years data))).
  assert (Hin : ∀ y, y ∈ l -> 1900 <= y <= 2100).
  { intros y Hl. apply Hy. apply elem_of_elements.
    by rewrite <- (merge_sort_Permutation Z.le (elements (years data))). }
  assert (Hs : StronglySorted Z.le l) by apply (StronglySorted_merge_sort Z.le).
  destruct (head l) as [a|] eqn:Ha, (last l) as [b|] eqn:Hb.
  - pose proof (sorted_head_last l a b Hs Ha Hb).
    assert (a ∈ l) by (destruct l; [done|]; injection Ha as ->; by left).
    assert (b ∈ l) by by apply last_Some_elem_of.
    pose proof (Hin a ltac:(done)). pose proof (Hin b ltac:(done)). lia.
  - destruct l; [done|]. by apply last_None in Hb.
  - destruct l; [|done]. done.
  - done.
Qed.

(** *** The statistics of a canonical key *)

(** X6. For each row that passes the guards, the output has a row whose
    name is the capitalised normalised name and whose [works_count] is the
    number of distinct work ids among all the rows with that normalised
    name. *)
Theorem works_count_of_key (rows : list Row) (s : Sighting) :
  s ∈ sightings U rows ->
  let k := normalize_name (s_name s) in
  ∃ r, r ∈ aggregate_authors U rows ∧
       out_author_name r = title_case_name U k ∧
       out_works_count r
       = size (list_to_set (map s_work_id (filter (of_key U k) (sightings U rows)))
                 : gset str).
Proof.
  intros Hs k. pose proof (invariant_rows U rows) as Inv.
  pose proof (data_invariant_rows U rows) as DI.
  destruct (proj2 (inv_data _ _ _ Inv (s_group s))) as [data Hd]; [by exists s|].
  exists (output_row U (process_rows U rows) (s_group s) data). split_and!.
  - apply elem_of_aggregate_authors. by exists (s_group s), data.
  - simpl. apply (inv_trace _ _ _ Inv) in Hs. apply (inv_names _ _ _ Inv) in Hs.
    by rewrite Hs.
  - simpl. f_equal. apply set_eq. intros w.
    rewrite (di_work_ids _ _ _ DI _ _ w Hd), elem_of_list_to_set, list_elem_of_fmap.
    split.
    + intros (s' & Hin & Hg & Hw). exists s'. split; [done|].
      apply list_elem_of_filter. split; [|done]. unfold of_key.
      pose proof (inv_trace _ _ _ Inv _ Hin) as H1.
      pose proof (inv_trace _ _ _ Inv _ Hs) as H2. rewrite Hg in H1.
      apply (inv_names _ _ _ Inv) in H1, H2. subst k. congruence.
    + intros (s' & -> & [Hk Hin]%list_elem_of_filter). exists s'. split; [done|].
      split; [|done]. unfold of_key in Hk.
      pose proof (inv_trace _ _ _ Inv _ Hin) as H1.
      pose proof (inv_trace _ _ _ Inv _ Hs) as H2. fold k in H2. rewrite Hk in H1.
      congruence.
Qed.

End Extras.

(** *** The sets of a group

    Each set of an author group is a union over the rows of the group: a
    row adds to the set what it contributes and takes nothing away. *)

Section Sets.
Variable U : UnicodeData.
Context {A : Type} `{Countable A}.
Variable field : AuthorData -> gset A.
Variable contribution : Row -> str -> gset A.
Hypothesis field_new : field new_author_data = ∅.
Hypothesis field_accumulate : ∀ row w data,
  field (accumulate U row w data) = contribution row w ∪ field data.

Lemma field_rows rows g data x :
  author_data (process_rows U rows) !! g = Some data ->
  x ∈ field data <->
  ∃ s, s ∈ sightings U rows ∧ s_group s = g ∧
       x ∈ contribution (s_row s) (s_work_id s).
Proof.
  revert g data. induction rows as [|row rows IH] using rev_ind; intros g data.
  { unfold process_rows. simpl. by rewrite lookup_empty. }
  rewrite process_rows_snoc, sightings_snoc.
  destruct (sighting U (process_rows U rows) row) as [s|] eqn:Hs; simpl.
  2:{ rewrite app_nil_r, process_row_skipped;
        [apply IH|by apply (sighting_None U (process_rows U rows))]. }
  rewrite (process_row_sighted U _ _ _ Hs). cbv zeta. simpl.
  destruct (resolve_author_data U (process_rows U rows) (s_name s)) as [Hd _]. rewrite Hd.
  destruct (sighting_Some U _ _ _ Hs) as (_ & _ & Hrow & _).
  pose proof (invariant_rows U rows) as Inv.
  rewrite lookup_insert. case_decide as Hg.
  - subst g. intros [= <-]. rewrite field_accumulate, elem_of_union.
    destruct (author_data (process_rows U rows) !! s_group s) as [d|] eqn:Hdg; simpl.
    + rewrite (IH _ _ Hdg). split.
      * intros [Hx|(s' & Hin & Hg' & Hx)].
        -- exists s. rewrite elem_of_app, list_elem_of_singleton, Hrow. by auto.
        -- exists s'. rewrite elem_of_app. by auto.
      * intros (s' & [Hin| ->%list_elem_of_singleton]%elem_of_app & Hg' & Hx).
        -- right. by exists s'.
        -- left. by rewrite <- Hrow.
    + rewrite field_new. split.
      * intros [Hx|?%elem_of_empty]; [|done].
        exists s. rewrite elem_of_app, list_elem_of_singleton, Hrow. by auto.
      * intros (s' & [Hin| ->%list_elem_of_singleton]%elem_of_app & Hg' & Hx).
        -- assert (Hsome : is_Some (author_data (process_rows U rows) !! s_group s)).
           { apply (inv_data _ _ _ Inv). by exists s'. }
           rewrite Hdg in Hsome. by destruct Hsome.
        -- left. by rewrite <- Hrow.
  - intros Hdata. rewrite (IH _ _ Hdata). split.
    + intros (s' & Hin & Hg' & Hx). exists s'. rewrite elem_of_app. by auto.
    + intros (s' & [Hin| ->%list_elem_of_singleton]%elem_of_app & Hg' & Hx);
        [by exists s'|congruence].
Qed.

End Sets.

Section Columns.
Variable U : UnicodeData.

Lemma elem_of_add_split (field : str) (x : str) :
  x ∈ add_split U field ∅ <->
  x <> [] ∧ ∃ piece, piece ∈ Py.split_on 59 field ∧ Py.strip U piece = x.
Proof.
  assert (Hfold : ∀ l (X : gset str),
    x ∈ fold_left
          (fun acc x => match Py.strip U x with [] => acc | x' => {[x']} ∪ acc end) l X
    <-> x ∈ X ∨ (x <> [] ∧ ∃ piece, piece ∈ l ∧ Py.strip U piece = x)).
  { induction l as [|p l IH]; intros X; simpl.
    - split; [by left|]. by intros [?|(_ & piece & ?%elem_of_nil & _)].
    - rewrite IH. destruct (Py.strip U p) as [|c r] eqn:E.
      + split.
        * intros [?|(Hne & piece & Hin & Hx)]; [by left|].
          right. split; [done|]. exists piece. split; [by right|done].
        * intros [?|(Hne & piece & [->|Hin]%elem_of_cons & Hx)]; [by left|congruence|].
          right. split; [done|]. by exists piece.
      + rewrite elem_of_union, elem_of_singleton. split.
        * intros [[->|?]|(Hne & piece & Hin & Hx)]; [|by left|].
          -- right. split; [done|]. exists p. split; [by left|done].
          -- right. split; [done|]. exists piece. split; [by right|done].
        * intros [?|(Hne & piece & [->|Hin]%elem_of_cons & Hx)].
          -- left. by right.
          -- left. left. congruence.
          -- right. split; [done|]. by exists piece. }
  unfold add_split. destruct field as [|c r].
  - split; [by intros ?%elem_of_empty|].
    intros (Hne & piece & Hin & Hx). unfold Py.split_on in Hin. simpl in Hin.
    apply list_elem_of_singleton in Hin. subst piece.
    destruct Hne. rewrite <- Hx. apply strip_blank. done.
  - rewrite Hfold. split; [intros [?%elem_of_empty|?]; done|by right].
Qed.

Lemma group_sets_of_rows (rows : list Row) (g : nat) (data : AuthorData) :
  author_data (process_rows U rows) !! g = Some data ->
  let of_group := fun P : Sighting -> Prop =>
    ∃ s, s ∈ sightings U rows ∧ s_group s = g ∧ P s in
  let pieces := fun (column : Row -> str) (x : str) =>
    x <> [] ∧
    of_group (fun s => ∃ piece, piece ∈ Py.split_on 59 (column (s_row s)) ∧
                                Py.strip U piece = x) in
  (∀ w, w ∈ specific_work_ids data <->
        of_group (fun s => s_work_id s = w ∧ is_relevant U (s_row s) = true)) ∧
  (∀ x, x ∈ author_ids data <->
        x <> [] ∧ of_group (fun s => Py.strip U (row_author_id (s_row s)) = x)) ∧
  (∀ x, x ∈ source_ids data <->
        x <> [] ∧ of_group (fun s => Py.strip U (row_source_id (s_row s)) = x)) ∧
  (∀ y, y ∈ years data <-> of_group (fun s => year_of U (s_row s) = Some y)) ∧
  (∀ x, x ∈ institutions data <-> pieces row_institutions x) ∧
  (∀ x, x ∈ countries data <-> pieces row_countries x) ∧
  (∀ x, x ∈ affiliations data <-> pieces row_affiliations_comment x).
Proof.
  intros Hdata of_group pieces. subst of_group pieces. cbv beta. split_and!.
  - intros w.
    rewrite (field_rows U specific_work_ids
               (fun row w => if is_relevant U row then {[w]} else ∅) eq_refl
               ltac:(intros row w0 d; simpl; destruct (is_relevant U row); set_solver)
               rows g data w Hdata).
    split; intros (s & Hin & Hg & Hx); exists s; (split; [done|]); (split; [done|]).
    + destruct (is_relevant U (s_row s)); [|by apply elem_of_empty in Hx].
      apply elem_of_singleton in Hx. done.
    + destruct Hx as [-> ->]. by apply elem_of_singleton.
  - intros x.
    rewrite (field_rows U author_ids
               (fun row _ => match Py.strip U (row_author_id row) with
                             | [] => ∅ | a => {[a]} end) eq_refl
               ltac:(intros row w0 d; simpl;
                     destruct (Py.strip U (row_author_id row)); set_solver)
               rows g data x Hdata).
    split.
    + intros (s & Hin & Hg & Hx).
      destruct (Py.strip U (row_author_id (s_row s))) as [|c r] eqn:E;
        [by apply elem_of_empty in Hx|].
      apply elem_of_singleton in Hx. subst x. split; [done|]. by exists s.
    + intros (Hne & s & Hin & Hg & <-). exists s. split; [done|]. split; [done|].
      destruct (Py.strip U (row_author_id (s_row s))); [done|]. by apply elem_of_singleton.
  - intros x.
    rewrite (field_rows U source_ids
               (fun row _ => match Py.strip U (row_source_id row) with
                             | [] => ∅ | a => {[a]} end) eq_refl
               ltac:(intros row w0 d; simpl;
                     destruct (Py.strip U (row_source_id row)); set_solver)
               rows g data x Hdata).
    split.
    + intros (s & Hin & Hg & Hx).
      destruct (Py.strip U (row_source_id (s_row s))) as [|c r] eqn:E;
        [by apply elem_of_empty in Hx|].
      apply elem_of_singleton in Hx. subst x. split; [done|]. by exists s.
    + intros (Hne & s & Hin & Hg & <-). exists s. split; [done|]. split; [done|].
      destruct (Py.strip U (row_source_id (s_row s))); [done|]. by apply elem_of_singleton.
  - intros y.
    rewrite (field_rows U years
               (fun row _ => match year_of U row with Some y => {[y]} | None => ∅ end)
               eq_refl
               ltac:(intros row w0 d; simpl; destruct (year_of U row); set_solver)
               rows g data y Hdata).
    split; intros (s & Hin & Hg & Hx); exists s; (split; [done|]); (split; [done|]).
    + destruct (year_of U (s_row s)); [|by apply elem_of_empty in Hx].
      apply elem_of_singleton in Hx. by subst.
    + rewrite Hx. by apply elem_of_singleton.
  - intros x.
    rewrite (field_rows U institutions
               (fun row _ => add_split U (row_institutions row) ∅) eq_refl
               ltac:(intros row w0 d; simpl; apply add_split_union)
               rows g data x Hdata).
    setoid_rewrite elem_of_add_split. naive_solver.
  - intros x.
    rewrite (field_rows U countries
               (fun row _ => add_split U (row_countries row) ∅) eq_refl
               ltac:(intros row w0 d; simpl; apply add_split_union)
               rows g data x Hdata).
    setoid_rewrite elem_of_add_split. naive_solver.
  - intros x.
    rewrite (field_rows U affiliations
               (fun row _ => add_split U (row_affiliations_comment row) ∅) eq_refl
               ltac:(intros row w0 d; simpl; apply add_split_union)
               rows g data x Hdata).
    setoid_rewrite elem_of_add_split. naive_solver.
Qed.

(** X16. The sets of an author group hold what the rows of the group
    contribute, and nothing else: the work ids of the rows marked as
    referring to the search, the non-empty author ids and source ids, the
    years read, and the non-empty pieces between semicolons of the three
    affiliation columns, all without surrounding white space. *)
Theorem group_sets (rows : list Row) (g : nat) (data : AuthorData) :
  author_data (process_rows U rows) !! g = Some data ->
  let of_group := fun P : Sighting -> Prop =>
    ∃ s, s ∈ sightings U rows ∧ s_group s = g ∧ P s in
  let pieces := fun (column : Row -> str) (x : str) =>
    x <> [] ∧
    of_group (fun s => ∃ piece, piece ∈ Py.split_on 59 (column (s_row s)) ∧
                                Py.strip U piece = x) in
  (∀ w, w ∈ specific_work_ids data <->
        of_group (fun s => s_work_id s = w ∧ is_relevant U (s_row s) = true)) ∧
  (∀ x, x ∈ author_ids data <->
        x <> [] ∧ of_group (fun s => Py.strip U (row_author_id (s_row s)) = x)) ∧
  (∀ x, x ∈ source_ids data <->
        x <> [] ∧ of_group (fun s => Py.strip U (row_source_id (s_row s)) = x)) ∧
  (∀ y, y ∈ years data <-> of_group (fun s => year_of U (s_row s) = Some y)) ∧
  (∀ x, x ∈ institutions data <-> pieces row_institutions x) ∧
  (∀ x, x ∈ countries data <-> pieces row_countries x) ∧
  (∀ x, x ∈ affiliations data <-> pieces row_affiliations_comment x).
Proof. exact (group_sets_of_rows rows g data). Qed.

End Columns.

Lemma works_count_bounds_witness :
  let rows := Examples.rows_two_spellings in
  let st := process_rows Latin1.data rows in
  let data := default new_author_data (author_data st !! 0%nat) in
  let r := output_row Latin1.data st 0 data in
  (1 <= out_works_count r)%nat ∧
  (out_specific_works_count r <= out_works_count r)%nat.
Proof.
  intros rows st data r.
  refine (works_count_bounds Latin1.data rows r _).
  vm_compute. repeat constructor.
Defined.

Lemma years_bounds_witness :
  let rows := Examples.rows_two_spellings in
  let st := process_rows Latin1.data rows in
  let data := default new_author_data (author_data st !! 0%nat) in
  let r := output_row Latin1.data st 0 data in
  match out_min_year r, out_max_year r with
  | Some a, Some b => 1900 <= a ∧ a <= b ∧ b <= 2100
  | None, None => True
  | _, _ => False
  end.
Proof.
  intros rows st data r.
  refine (years_bounds Latin1.data rows r _).
  vm_compute. repeat constructor.
Defined.

Lemma works_count_of_key_witness :
  ∃ r, r ∈ aggregate_authors Latin1.data Examples.rows_two_spellings ∧
       out_author_name r = u "J Smith" ∧ out_works_count r = 2%nat.
Proof.
  destruct (works_count_of_key Latin1.data Examples.rows_two_spellings
              {| s_group := 0; s_name := u "J. Smith"; s_work_id := u "W1";
                 s_row := Examples.row "J. Smith" "W1" "A1" "3" "MIT" |})
    as (r & Hr & Hn & Hw).
  - vm_compute. left.
  - exists r. split; [done|]. split; [rewrite Hn; by vm_compute|].
    rewrite Hw. by vm_compute.
Defined.

Lemma group_sets_witness :
  let rows := Examples.rows_two_spellings in
  let data := default new_author_data (author_data (process_rows Latin1.data rows) !! 0%nat) in
  2020 ∈ years data <->
  ∃ s, s ∈ sightings Latin1.data rows ∧ s_group s = 0%nat ∧
       year_of Latin1.data (s_row s) = Some 2020.
Proof.
  intros rows data.
  destruct (group_sets Latin1.data rows 0 data) as (_ & _ & _ & H & _).
  - by vm_compute.
  - exact (H 2020).
Defined.

End AggregateExtras.

(** ** The fetch engine, further *)

Module FetchExtras.
Import Json Fetch FetchTheory.

Section Extras.
Variable server : Server.

(** *** The permits of the two semaphores *)

Lemma holders_insert (p : Task -> bool) (l : list Task) i x y :
  l !! i = Some x ->
  (length (filter (fun t => p t = true) (<[i := y]> l)) + Nat.b2n (p x)
   = length (filter (fun t => p t = true) l) + Nat.b2n (p y))%nat.
Proof.
  revert i. induction l as [|t l IH]; intros i Hi; [done|].
  destruct i as [|i]; simpl in Hi.
  - injection Hi as ->. simpl. rewrite !filter_cons.
    destruct (p x), (p y); simpl; repeat case_decide; simpl; try done; lia.
  - simpl. rewrite !filter_cons. specialize (IH i Hi).
    case_decide; simpl; lia.
Qed.

Lemma holders_start (p : Task -> bool) (author_ids : list str) :
  p WaitSemaphore = false -> holders p (start author_ids) = 0%nat.
Proof.
  intros Hp. unfold holders, start. simpl.
  induction author_ids as [|a l IH]; [done|]. simpl.
  rewrite filter_cons. case_decide; [congruence|done].
Qed.

Lemma permits_step author_ids i m :
  permits_accounted m -> permits_accounted (step server author_ids i m).
Proof.
  intros H. pose proof H as [Hs Hr]. unfold step.
  destruct (tasks m !! i) as [t|] eqn:Ht; [|done].
  destruct (author_ids !! i) as [a|]; [|done].
  pose proof (fun y => holders_insert holds_semaphore (tasks m) i t y Ht) as Is.
  pose proof (fun y => holders_insert holds_rate_limiter (tasks m) i t y Ht) as Ir.
  destruct t as [| |[c|] w page|w]; [| | | |done].
  - destruct (semaphore m) as [|n] eqn:E; [done|].
    unfold permits_accounted, holders in *. simpl.
    specialize (Is WaitRateLimiter). specialize (Ir WaitRateLimiter).
    simpl in Is, Ir. lia.
  - destruct (rate_limiter m) as [|n] eqn:E; [done|].
    unfold permits_accounted, holders in *. simpl.
    specialize (Is (Paginating (Some (u "*")) [] 0)).
    specialize (Ir (Paginating (Some (u "*")) [] 0)).
    simpl in Is, Ir. lia.
  - unfold permits_accounted, holders in *.
    destruct (iteration server a page c w) as [[cursor' w'|w'] ev]; simpl.
    + specialize (Is (Paginating cursor' w' (S page))).
      specialize (Ir (Paginating cursor' w' (S page))). simpl in Is, Ir. lia.
    + specialize (Is (Returned w')). specialize (Ir (Returned w')).
      simpl in Is, Ir. lia.
  - unfold permits_accounted, holders in *. simpl.
    specialize (Is (Returned w)). specialize (Ir (Returned w)).
    simpl in Is, Ir. lia.
Qed.

Lemma permits_run author_ids schedule m :
  permits_accounted m -> permits_accounted (run server author_ids schedule m).
Proof.
  revert m. induction schedule as [|i schedule IH]; intros m H; [done|].
  rewrite run_cons. apply IH. by apply permits_step.
Qed.

Lemma holders_le (m : Machine) :
  (holders holds_rate_limiter m <= holders holds_semaphore m)%nat.
Proof.
  unfold holders. induction (tasks m) as [|t l IH]; [done|].
  rewrite !filter_cons.
  destruct t; simpl; repeat case_decide; simpl; try done; lia.
Qed.

(** X7. Under every schedule the permits of the two semaphores are
    accounted for: those left and the coroutines inside make [CONCURRENCY],
    respectively [RATE_LIMIT].  So at most [CONCURRENCY] fetches are under
    way at a time, and since a coroutine enters the rate limiter only inside
    the semaphore, the rate limiter always has [RATE_LIMIT - CONCURRENCY]
    permits left: it never makes a coroutine wait. *)
Theorem permits_never_run_out (author_ids : list str) (schedule : list nat) :
  let m := run server author_ids schedule (start author_ids) in
  (semaphore m + holders holds_semaphore m = CONCURRENCY)%nat ∧
  (rate_limiter m + holders holds_rate_limiter m = RATE_LIMIT)%nat ∧
  (holders holds_rate_limiter m <= holders holds_semaphore m <= CONCURRENCY)%nat ∧
  (RATE_LIMIT - CONCURRENCY <= rate_limiter m)%nat.
Proof.
  intros m.
  assert (H : permits_accounted m).
  { apply permits_run. split; rewrite holders_start by done; simpl; unfold CONCURRENCY, RATE_LIMIT; lia. }
  destruct H as [Hs Hr]. pose proof (holders_le m).
  unfold CONCURRENCY, RATE_LIMIT in *. lia.
Qed.

(** *** The pages of one fetch *)

Lemma goes_on_true r :
  goes_on r = true ->
  status r = 200 ∧ (200 <= length (results r))%nat ∧
  ∃ c, truthy (next_cursor r) = Some c.
Proof.
  unfold goes_on. intros [[H1 H2]%andb_prop H3%bool_decide_eq_true]%andb_prop.
  apply Z.eqb_eq in H1. apply Nat.leb_le in H2. by destruct H3 as [c Hc]; eauto.
Qed.

Lemma response_at_Some a page c :
  cursor_at server a page = Some c ->
  response_at server a page = Some (server a page c).
Proof. unfold response_at. by intros ->. Qed.

Lemma flat_map_seq_S {A} (f : nat -> list A) page n :
  flat_map f (seq page (S n)) = f page ++ flat_map f (seq (S page) n).
Proof. done. Qed.

(** The loop, entered at the request [page] with its cursor, when the
    request [page + n] is the last. *)
Lemma paginate_pages a n page c acc :
  cursor_at server a page = Some c ->
  (∀ i, (page <= i < page + n)%nat ->
        goes_on <$> response_at server a i = Some true) ->
  goes_on <$> response_at server a (page + n) = Some false ->
  ∃ events,
    paginate (S n) server a page (Some c) acc
    = Some (acc ++ flat_map (fun page => from_option kept_results []
                                           (response_at server a page))
                            (seq page (S n)), events) ∧
    requests events = S n.
Proof.
  revert page c acc. induction n as [|n IH]; intros page c acc Hc Hgo Hlast.
  - rewrite Nat.add_0_r in Hlast. rewrite (response_at_Some _ _ _ Hc) in Hlast.
    injection Hlast as Hlast. cbn [seq flat_map]. rewrite (response_at_Some _ _ _ Hc).
    cbn [from_option]. rewrite app_nil_r. unfold kept_results.
    cbn [paginate]. unfold iteration. unfold goes_on in Hlast.
    destruct (status (server a page c) =? 200) eqn:Es.
    + destruct (length (results (server a page c)) <? 200)%nat eqn:El; [by eauto|].
      apply Nat.ltb_ge in El. apply Nat.leb_le in El. rewrite El in Hlast.
      simpl in Hlast. apply bool_decide_eq_false in Hlast.
      destruct (truthy (next_cursor (server a page c))) as [c'|] eqn:Et.
      { destruct Hlast. by eauto. }
      by eauto.
    + rewrite app_nil_r. by eauto.
  - pose proof (Hgo page ltac:(lia)) as Hp.
    rewrite (response_at_Some _ _ _ Hc) in Hp. injection Hp as Hp.
    apply goes_on_true in Hp as (Hs & Hl & c' & Hc').
    destruct (IH (S page) c' (acc ++ results (server a page c))) as (ev & Hpag & Hreq).
    + simpl. by rewrite Hc.
    + intros i Hi. apply Hgo. lia.
    + by replace (S page + n)%nat with (page + S n)%nat by lia.
    + rewrite flat_map_seq_S, (response_at_Some _ _ _ Hc). cbn [from_option].
      unfold kept_results at 1. rewrite Hs. cbn [Z.eqb Pos.eqb].
      change (paginate (S (S n)) server a page (Some c) acc)
        with (match iteration server a page c acc with
              | (Break all_works', events) => Some (all_works', events)
              | (Continue cursor' all_works', events) =>
                  match paginate (S n) server a (S page) cursor' all_works' with
                  | Some (w, events') => Some (w, events ++ events')
                  | None => None
                  end
              end).
      unfold iteration. rewrite Hs, Hc'. cbn [Z.eqb Pos.eqb].
      destruct (length (results (server a page c)) <? 200)%nat eqn:El;
        [apply Nat.ltb_lt in El; lia|].
      rewrite Hpag. eexists. split; [by rewrite app_assoc|].
      unfold requests in *. change (count is_request ([Request c 200] ++ ev) = S (S n)).
      rewrite count_app, Hreq. done.
Qed.

(** A loop whose next [fuel] answers all go on does not end within [fuel]
    turns. *)
Lemma paginate_goes_on a fuel page c acc :
  cursor_at server a page = Some c ->
  (∀ i, (page <= i < page + fuel)%nat ->
        goes_on <$> response_at server a i = Some true) ->
  paginate fuel server a page (Some c) acc = None.
Proof.
  revert page c acc. induction fuel as [|fuel IH]; intros page c acc Hc Hgo; [done|].
  pose proof (Hgo page ltac:(lia)) as Hp.
  rewrite (response_at_Some _ _ _ Hc) in Hp. injection Hp as Hp.
  apply goes_on_true in Hp as (Hs & Hl & c' & Hc').
  cbn [paginate]. unfold iteration. rewrite Hs, Hc'. cbn [Z.eqb Pos.eqb].
  destruct (length (results (server a page c)) <? 200)%nat eqn:El;
    [apply Nat.ltb_lt in El; lia|].
  rewrite (IH (S page) c'); [done|by simpl; rewrite Hc|].
  intros i Hi. apply Hgo. lia.
Qed.

Lemma cursor_at_goes_on a n :
  (∀ i, (i < n)%nat -> goes_on <$> response_at server a i = Some true) ->
  is_Some (cursor_at server a n).
Proof.
  intros Hgo. destruct n as [|n]; [by eexists|].
  pose proof (Hgo n ltac:(lia)) as Hn. unfold response_at in Hn. simpl.
  destruct (cursor_at server a n) as [c|]; [|done]. injection Hn as Hn.
  by apply goes_on_true in Hn as (_ & _ & c' & ->).
Qed.

(** Among the first [k] requests, all go on or one is the last. *)
Lemma first_last_page a k :
  (∀ i, (i < k)%nat -> goes_on <$> response_at server a i = Some true) ∨
  ∃ n, (n < k)%nat ∧ last_page server a n.
Proof.
  induction k as [|k [IH|(n & Hn & Hlast)]].
  - left. intros i Hi. lia.
  - destruct (cursor_at_goes_on a k IH) as [c Hc].
    destruct (goes_on (server a k c)) eqn:E.
    + left. intros i Hi. destruct (decide (i = k)) as [->|Hne].
      * by rewrite (response_at_Some _ _ _ Hc), <- E.
      * apply IH. lia.
    + right. exists k. split; [lia|]. split; [done|].
      by rewrite (response_at_Some _ _ _ Hc), <- E.
  - right. exists n. split; [lia|done].
Qed.

Lemma fetch_last_page a n :
  last_page server a n ->
  ∃ events,
    fetch_author_works (S n) server a = Some (works_through server a n, events) ∧
    requests events = S n.
Proof.
  intros [Hgo Hlast].
  destruct (paginate_pages a n 0 (u "*") []) as (ev & Hp & Hreq); [done| |done|].
  { intros i Hi. apply Hgo. lia. }
  unfold fetch_author_works. rewrite Hp. eexists. split; [done|].
  unfold requests in *. change (count is_request ([Acquire] ++ ev ++ [Release]) = S n).
  rewrite !count_app, Hreq. simpl. unfold count. simpl. lia.
Qed.

(** X8. A fetch returns exactly when some request is the last one: the
    first whose answer has another status than 200, fewer than 200 results
    or no cursor.  It then has made the requests up to that one, each with
    the cursor of the answer before, and returns the results of those
    answered with status 200, in order. *)
Theorem fetch_author_works_pages (a : str) :
  (∀ n, last_page server a n ->
     ∃ events,
       fetch_author_works (S n) server a = Some (works_through server a n, events) ∧
       requests events = S n) ∧
  (∀ fuel works events,
     fetch_author_works fuel server a = Some (works, events) ->
     ∃ n, (n < fuel)%nat ∧ last_page server a n ∧
          works = works_through server a n ∧ requests events = S n).
Proof.
  split; [apply fetch_last_page|].
  intros fuel works events Hf.
  destruct (first_last_page a fuel) as [Hgo|(n & Hn & Hlast)].
  - unfold fetch_author_works in Hf.
    rewrite (paginate_goes_on a fuel 0 (u "*") []) in Hf; [done|done|].
    intros i Hi. apply Hgo. lia.
  - exists n. split; [done|]. split; [done|].
    destruct (fetch_last_page a n Hlast) as (ev & Hf' & Hreq).
    pose proof (fetch_author_works_deterministic server _ _ _ _ _ Hf Hf') as [= -> ->].
    done.
Qed.

(** *** The batch *)

Section Batch.
Variable author_ids : list str.

Lemma gather_fetched schedule rs :
  gather (run server author_ids schedule (start author_ids)) = Some rs ->
  Forall2 (fun a w => ∃ fuel ev, fetch_author_works fuel server a = Some (w, ev))
          author_ids rs.
Proof.
  unfold gather. intros Hrs. apply mapM_Some in Hrs.
  set (mf := run server author_ids schedule (start author_ids)) in *.
  assert (Hok : machine_ok server author_ids mf) by apply machine_ok_run, machine_ok_start.
  apply Forall2_same_length_lookup. split.
  - apply Forall2_length in Hrs. rewrite <- Hrs. subst mf.
    by rewrite length_tasks_run_start.
  - intros i a' w' Ha' Hw'.
    destruct (Forall2_lookup_r _ _ _ _ _ Hrs Hw') as (t & Ht & Hret).
    destruct t; try done. injection Hret as ->.
    destruct (Hok i _ a' Ht Ha') as [fuel' Hf']. eauto.
Qed.

Lemma enrich_lookup_iff schedule m a works :
  enrich_authors_with_all_works server author_ids schedule = Some m ->
  m !! a = Some works <->
  a ∈ author_ids ∧ works <> [] ∧
  ∃ fuel events, fetch_author_works fuel server a = Some (works, events).
Proof.
  intros Hm. pose proof Hm as Hm'. unfold enrich_authors_with_all_works in Hm'.
  apply fmap_Some in Hm' as (rs & Hrs & ->).
  pose proof (gather_fetched _ _ Hrs) as HR. split.
  - intros Hl. destruct (decide (a ∈ author_ids)) as [Hin|Hout].
    + apply list_elem_of_lookup in Hin as Hi. destruct Hi as [i Hi].
      destruct (Forall2_lookup_l _ _ _ _ _ HR Hi) as (w & _ & fuel & ev & Hf).
      rewrite (enrich_lookup server author_ids _ _ _ _ _ _ Hm Hin Hf) in Hl.
      destruct w; [done|]. injection Hl as <-. split; [done|]. split; [done|]. eauto.
    + assert (HR' : Forall2 (fun x _ => x ∈ author_ids) author_ids rs).
      { apply Forall2_same_length_lookup. split; [by eapply Forall2_length|].
        intros i x w Hx _. by eapply list_elem_of_lookup_2. }
      unfold collect in Hl.
      destruct (collect_fold_lookup _ a [] _ _ ∅ HR') as [_ Hnot]; [done|].
      rewrite (Hnot Hout), lookup_empty in Hl. done.
  - intros (Hin & Hne & fuel & ev & Hf).
    rewrite (enrich_lookup server author_ids _ _ _ _ _ _ Hm Hin Hf).
    by destruct works.
Qed.

(** X9. The dictionary of a batch that completes holds exactly the authors
    of the batch whose own fetch returns at least one work, each with the
    works of that fetch. *)
Theorem enrich_entries (schedule : list nat) (m : gmap str (list Work)) :
  enrich_authors_with_all_works server author_ids schedule = Some m ->
  ∀ a works,
    m !! a = Some works <->
    a ∈ author_ids ∧ works <> [] ∧
    ∃ fuel events, fetch_author_works fuel server a = Some (works, events).
Proof. intros Hm a works. exact (enrich_lookup_iff schedule m a works Hm). Qed.

(** X10. The dictionary returned does not depend on the order in which the
    event loop runs the coroutines. *)
Theorem enrich_schedule_independent (schedule schedule' : list nat)
    (m m' : gmap str (list Work)) :
  enrich_authors_with_all_works server author_ids schedule = Some m ->
  enrich_authors_with_all_works server author_ids schedule' = Some m' ->
  m = m'.
Proof.
  intros Hm Hm'. apply map_eq. intros a. apply option_eq. intros works.
  by rewrite (enrich_lookup_iff _ _ a works Hm), (enrich_lookup_iff _ _ a works Hm').
Qed.

(** X11. The loop has no bound on the pages: when every answer to an author
    is a full page with a cursor, the fetch of the author does not return,
    and no batch with that author completes, under any schedule. *)
Theorem endless_pagination_blocks_batch (a : str) :
  (∀ page, goes_on <$> response_at server a page = Some true) ->
  (∀ fuel, fetch_author_works fuel server a = None) ∧
  (a ∈ author_ids ->
   ∀ schedule, enrich_authors_with_all_works server author_ids schedule = None).
Proof.
  intros Hgo.
  assert (Hnone : ∀ fuel, fetch_author_works fuel server a = None).
  { intros fuel. unfold fetch_author_works.
    by rewrite (paginate_goes_on a fuel 0 (u "*") []). }
  split; [done|]. intros Hin schedule.
  destruct (enrich_authors_with_all_works server author_ids schedule) as [m|] eqn:Hm;
    [|done].
  unfold enrich_authors_with_all_works in Hm.
  apply fmap_Some in Hm as (rs & Hrs & _).
  pose proof (gather_fetched _ _ Hrs) as HR.
  apply list_elem_of_lookup in Hin as [i Hi].
  destruct (Forall2_lookup_l _ _ _ _ _ HR Hi) as (w & _ & fuel & ev & Hf).
  by rewrite Hnone in Hf.
Qed.

(** *** No schedule gets the batch stuck *)

Lemma reaches_terminates a page cursor w events :
  reaches server a page cursor w events ->
  (∃ fuel r, paginate fuel server a 0 (Some (u "*")) [] = Some r) ->
  ∃ fuel r, paginate fuel server a page cursor w = Some r.
Proof.
  induction 1 as [|page c all_works events cursor' all_works' ev Hr IH Hit]; [done|].
  intros Hend. destruct (IH Hend) as ([|fuel] & r & Hp); [done|].
  simpl in Hp. rewrite Hit in Hp.
  destruct (paginate fuel server a (S page) cursor' all_works') as [[w' ev']|] eqn:E;
    [|done].
  by eauto.
Qed.

Lemma fetch_terminates_paginate a :
  (∃ fuel r, fetch_author_works fuel server a = Some r) ->
  ∃ fuel w events, paginate fuel server a 0 (Some (u "*")) [] = Some (w, events).
Proof.
  intros (fuel & r & Hf). unfold fetch_author_works in Hf.
  destruct (paginate fuel server a 0 (Some (u "*")) []) as [[w ev]|] eqn:E; [|done].
  by eauto.
Qed.

(** What every reachable state of the event loop satisfies. *)
Abbreviation sound := (fun m : Machine =>
  machine_ok server author_ids m ∧ permits_accounted m ∧
  length (tasks m) = length author_ids).

Lemma sound_run schedule m : sound m -> sound (run server author_ids schedule m).
Proof.
  intros (Hok & Hp & Hlen). split; [by apply machine_ok_run|].
  split; [by apply permits_run|]. by rewrite length_tasks_run.
Qed.

Lemma sound_start : sound (start author_ids).
Proof.
  split; [apply machine_ok_start|]. split.
  - split; rewrite holders_start by done; simpl; unfold CONCURRENCY, RATE_LIMIT; lia.
  - unfold start. simpl. by rewrite length_map.
Qed.

(** A coroutine that has not returned can be run until it returns, unless
    it waits for a semaphore without permits. *)
Lemma finish_one m i t a :
  sound m -> tasks m !! i = Some t -> author_ids !! i = Some a ->
  unreturned t = true ->
  (∃ fuel r, fetch_author_works fuel server a = Some r) ->
  (t = WaitSemaphore -> (0 < semaphore m)%nat) ->
  ∃ schedule w,
    tasks (run server author_ids schedule m) = <[i := Returned w]> (tasks m).
Proof.
  intros (Hok & [Hs Hr] & Hlen) Ht Ha Hun Hend Hsem.
  assert (Hrate : (0 < rate_limiter m)%nat).
  { pose proof (holders_le m). unfold CONCURRENCY, RATE_LIMIT in *. lia. }
  destruct t as [| |cursor w0 page|w0]; [| | |done].
  - destruct Hend as (fuel & [w events] & Hf).
    destruct (run_task server author_ids fuel i a m w events Ht Ha (Hsem eq_refl) Hrate Hf)
      as (Htasks & _).
    by eauto.
  - destruct (fetch_terminates_paginate a Hend) as (fuel & w & events & Hp).
    destruct (rate_limiter m) as [|n] eqn:E; [lia|].
    pose proof (step_wait_rate_limiter server author_ids i a m n Ht Ha E) as Hstep.
    set (m1 := step server author_ids i m) in *.
    destruct (run_paginating server author_ids fuel i a m1 0 (Some (u "*")) [] w events)
      as (Htasks & _); [|done|done|].
    { rewrite Hstep. simpl. apply list_lookup_insert_eq. by eapply lookup_lt_Some. }
    exists (i :: replicate (S fuel) i), w. rewrite run_cons. fold m1.
    rewrite Htasks, Hstep. simpl. by rewrite list_insert_insert_eq.
  - destruct (Hok i _ a Ht Ha) as (ev & _ & Hreach).
    destruct (reaches_terminates a page cursor w0 ev Hreach) as (fuel & [w events] & Hp).
    { destruct (fetch_terminates_paginate a Hend) as (fuel & w & events & Hp). by eauto. }
    destruct (run_paginating server author_ids fuel i a m page cursor w0 w events Ht Ha Hp)
      as (Htasks & _).
    by eauto.
Qed.

Lemma holders_pos (p : Task -> bool) (m : Machine) :
  (0 < holders p m)%nat -> ∃ i t, tasks m !! i = Some t ∧ p t = true.
Proof.
  unfold holders. intros Hpos.
  destruct (filter (fun t => p t = true) (tasks m)) as [|t l] eqn:E; [simpl in Hpos; lia|].
  assert (Hin : t ∈ filter (fun t => p t = true) (tasks m)) by (rewrite E; by left).
  apply list_elem_of_filter in Hin as [Hp Hin].
  apply list_elem_of_lookup in Hin as [i Hi]. by eauto.
Qed.

Lemma holders_none (p : Task -> bool) (m : Machine) t :
  holders p m = 0%nat -> t ∈ tasks m -> p t = false.
Proof.
  unfold holders. intros Hnil%length_zero_iff_nil Hin.
  destruct (p t) eqn:E; [|done].
  assert (Hf : t ∈ filter (fun t => p t = true) (tasks m))
    by (by apply list_elem_of_filter).
  rewrite Hnil in Hf. by apply elem_of_nil in Hf.
Qed.

Lemma finish_all n m :
  (∀ a, a ∈ author_ids -> ∃ fuel r, fetch_author_works fuel server a = Some r) ->
  sound m -> holders unreturned m = n ->
  ∃ schedule, holders unreturned (run server author_ids schedule m) = 0%nat.
Proof.
  intros Hend. revert m. induction n as [|n IH]; intros m Hsound Hn.
  { by exists []. }
  assert (Hstep : ∃ schedule i t w,
    tasks m !! i = Some t ∧ unreturned t = true ∧
    tasks (run server author_ids schedule m) = <[i := Returned w]> (tasks m)).
  { pose proof Hsound as (Hok & [Hs Hr] & Hlen).
    assert (Hget : ∀ i t, tasks m !! i = Some t -> ∃ a, author_ids !! i = Some a ∧
              ∃ fuel r, fetch_author_works fuel server a = Some r).
    { intros i t Hi. destruct (lookup_lt_is_Some_2 author_ids i) as [a Ha].
      { rewrite <- Hlen. by eapply lookup_lt_Some. }
      exists a. split; [done|]. apply Hend. by eapply list_elem_of_lookup_2. }
    destruct (holders holds_semaphore m) as [|k] eqn:Ek.
    - destruct (holders_pos unreturned m) as (i & t & Hi & Hun); [lia|].
      destruct (Hget i t Hi) as (a & Ha & Hfa).
      destruct (finish_one m i t a Hsound Hi Ha Hun Hfa) as (schedule & w & Htasks).
      { intros _. unfold CONCURRENCY in Hs. lia. }
      by exists schedule, i, t, w.
    - destruct (holders_pos holds_semaphore m) as (i & t & Hi & Hhold); [lia|].
      destruct (Hget i t Hi) as (a & Ha & Hfa).
      assert (Hun : unreturned t = true) by (by destruct t).
      destruct (finish_one m i t a Hsound Hi Ha Hun Hfa) as (schedule & w & Htasks).
      { by intros ->. }
      by exists schedule, i, t, w. }
  destruct Hstep as (schedule & i & t & w & Hi & Hun & Htasks).
  destruct (IH (run server author_ids schedule m)) as [schedule' Hdone].
  - by apply sound_run.
  - pose proof (holders_insert unreturned (tasks m) i t (Returned w) Hi) as Hins.
    unfold holders in *. rewrite Htasks. rewrite Hun in Hins. simpl in Hins. lia.
  - exists (schedule ++ schedule'). by rewrite run_app.
Qed.

(** X21. No schedule gets the batch stuck: when the fetch of every author
    of the batch returns, the event loop can always go on, from wherever a
    schedule has taken it, to the point where all coroutines have returned
    and the dictionary is built. *)
Theorem batch_never_stuck (schedule : list nat) :
  (∀ a, a ∈ author_ids -> ∃ fuel r, fetch_author_works fuel server a = Some r) ->
  ∃ schedule',
    is_Some (enrich_authors_with_all_works server author_ids (schedule ++ schedule')).
Proof.
  intros Hend.
  destruct (finish_all (holders unreturned (run server author_ids schedule
                                              (start author_ids)))
              (run server author_ids schedule (start author_ids)) Hend)
    as [schedule' Hdone]; [apply sound_run, sound_start|done|].
  exists schedule'. unfold enrich_authors_with_all_works, gather.
  rewrite run_app. apply fmap_is_Some, mapM_is_Some, Forall_forall.
  intros t Ht. apply (holders_none unreturned _ t Hdone) in Ht.
  destruct t; try done. simpl. by eexists.
Qed.

End Batch.
End Extras.

Lemma batch_never_stuck_witness :
  ∃ schedule',
    is_Some (enrich_authors_with_all_works Examples.server_two_pages
               [u "A1"; u "B2"] ([0; 1; 1; 0; 1]%nat ++ schedule')).
Proof.
  apply (batch_never_stuck Examples.server_two_pages [u "A1"; u "B2"] [0; 1; 1; 0; 1]%nat).
  intros a _. exists 2%nat. eexists. by vm_compute.
Defined.

Lemma enrich_entries_witness :
  let ids := [u "A1"; u "B2"] in
  ∃ m, enrich_authors_with_all_works (Examples.server_failing []) ids
         [0; 1; 0; 1; 0; 1; 0]%nat = Some m ∧
       (m !! u "B2" = Some [] <->
        u "B2" ∈ ids ∧ [] <> @nil Work ∧
        ∃ fuel events,
          fetch_author_works fuel (Examples.server_failing []) (u "B2")
          = Some ([], events)).
Proof.
  intros ids.
  destruct (enrich_authors_with_all_works (Examples.server_failing []) ids
              [0; 1; 0; 1; 0; 1; 0]%nat) as [m|] eqn:Hm; [|by vm_compute in Hm].
  exists m. split; [done|].
  exact (enrich_entries (Examples.server_failing []) ids _ m Hm (u "B2") []).
Defined.

Lemma enrich_schedule_independent_witness :
  enrich_authors_with_all_works Examples.server_two_pages [u "A1"; u "B2"]
    [0; 1; 0; 0; 1; 0; 1; 1]%nat
  = enrich_authors_with_all_works Examples.server_two_pages [u "A1"; u "B2"]
      [1; 1; 1; 1; 0; 0; 0; 0]%nat.
Proof.
  destruct (enrich_authors_with_all_works Examples.server_two_pages [u "A1"; u "B2"]
              [0; 1; 0; 0; 1; 0; 1; 1]%nat) as [m|] eqn:Hm; [|by vm_compute in Hm].
  destruct (enrich_authors_with_all_works Examples.server_two_pages [u "A1"; u "B2"]
              [1; 1; 1; 1; 0; 0; 0; 0]%nat) as [m'|] eqn:Hm'; [|by vm_compute in Hm'].
  f_equal.
  exact (enrich_schedule_independent Examples.server_two_pages [u "A1"; u "B2"]
           _ _ m m' Hm Hm').
Defined.

Lemma endless_pagination_blocks_batch_witness :
  fetch_author_works 1000 Examples.server_endless (u "A1") = None ∧
  enrich_authors_with_all_works Examples.server_endless [u "A1"]
    (replicate 50 0%nat) = None.
Proof.
  destruct (endless_pagination_blocks_batch Examples.server_endless [u "A1"] (u "A1"))
    as [Hf He].
  - intros page. unfold response_at.
    assert (H : ∀ n, is_Some (cursor_at Examples.server_endless (u "A1") n)).
    { induction n as [|n [c IH]]; [by eexists|]. simpl. rewrite IH. by eexists. }
    destruct (H page) as [c ->]. done.
  - split; [apply Hf|]. apply He. set_solver.
Defined.

Lemma fetch_author_works_pages_witness :
  ∃ events,
    fetch_author_works 2 Examples.server_two_pages (u "A1")
    = Some (works_through Examples.server_two_pages (u "A1") 1, events) ∧
    requests events = 2%nat.
Proof.
  apply (proj1 (fetch_author_works_pages Examples.server_two_pages (u "A1")) 1%nat).
  split; [|by vm_compute].
  intros i Hi. assert (i = 0%nat) as -> by lia. by vm_compute.
Defined.

End FetchExtras.

(** ** The per-pair export, further *)

Module PairsExtras.
Import Json Pairs PairsTheory.

(** *** [_extract_author_works] *)

Abbreviation add_edge := (fun (author_works : list (str * list Work))
                              (e : Work * Authorship) =>
  match authorship_author_id (snd e) with
  | Some author_id => append_item author_id (fst e) author_works
  | None => author_works
  end).

Lemma extract_step (authorship : Authorship) (item : Work)
    (author_works : list (str * list Work)) :
  match as_author authorship with
  | Some author =>
      match a_id author with
      | Some (c :: r) =>
          match Py.replace openalex_prefix [] (c :: r) with
          | [] => author_works
          | author_id => append_item author_id item author_works
          end
      | _ => author_works
      end
  | None => author_works
  end = add_edge author_works (item, authorship).
Proof.
  unfold authorship_author_id, short_id. cbn [fst snd].
  destruct (as_author authorship) as [author|]; [|done].
  destruct (a_id author) as [[|c r]|]; [done| |done].
  change (default [] (Some (c :: r))) with (c :: r).
  by destruct (Py.replace openalex_prefix [] (c :: r)).
Qed.

Lemma extract_author_works_edges json_data :
  _extract_author_works json_data = fold_left add_edge (edges json_data) [].
Proof.
  unfold _extract_author_works, edges. generalize (@nil (str * list Work)).
  induction json_data as [|item rest IH]; intros aw; [done|].
  cbn [fold_left flat_map]. rewrite fold_left_app, IH. f_equal.
  generalize aw. induction (w_authorships item) as [|authorship l IHl]; intros aw0;
    [done|].
  cbn [fold_left map]. rewrite <- IHl. f_equal. apply extract_step.
Qed.

Lemma append_item_keys k item aw :
  map fst (append_item k item aw)
  = if decide (k ∈ map fst aw) then map fst aw else map fst aw ++ [k].
Proof.
  induction aw as [|[k' items] aw IH]; simpl.
  - done.
  - case_bool_decide as E; simpl.
    + subst k'. rewrite decide_True; [done|by left].
    + rewrite IH. destruct (decide (k ∈ map fst aw)) as [Hin|Hout].
      * rewrite decide_True; [done|by right].
      * rewrite decide_False; [done|]. intros [?|?]%elem_of_cons; [congruence|done].
Qed.

Lemma elem_of_append_item k item aw k' items' :
  NoDup (map fst aw) ->
  (k', items') ∈ append_item k item aw ↔
  (k' <> k ∧ (k', items') ∈ aw) ∨
  (k' = k ∧ ((∃ old, (k, old) ∈ aw ∧ items' = old ++ [item]) ∨
             ((k ∉ map fst aw) ∧ items' = [item]))).
Proof.
  induction aw as [|[k0 items0] aw IH]; intros Hnd; simpl.
  - rewrite list_elem_of_singleton. split.
    + intros [= -> ->]. right. split; [done|]. right. split; [|done].
      by intros ?%elem_of_nil.
    + intros [[_ ?%elem_of_nil]|[-> [(old & ?%elem_of_nil & _)|[_ ->]]]]; done.
  - apply NoDup_cons in Hnd as [Hk0 Hnd]. specialize (IH Hnd).
    assert (Hfst : ∀ x, (k0, x) ∈ aw -> False).
    { intros x Hx. apply Hk0. apply list_elem_of_fmap. by exists (k0, x). }
    case_bool_decide as E.
    + subst k0. rewrite !elem_of_cons. split.
      * intros [[= -> ->]|Hin].
        -- right. split; [done|]. left. exists items0. split; [by left|done].
        -- left. split; [|by right]. intros ->. by eapply Hfst.
      * intros [[Hne [[= ? ?]|Hin]]|[-> [(old & [[= <-]|Hin]%elem_of_cons & ->)|[Hout _]]]].
        -- done.
        -- by right.
        -- by left.
        -- by destruct (Hfst old).
        -- destruct Hout. by left.
    + rewrite !elem_of_cons, IH. split.
      * intros [[= -> ->]|[[Hne Hin]|[-> [(old & Hin & ->)|[Hout ->]]]]].
        -- left. split; [done|by left].
        -- left. split; [done|by right].
        -- right. split; [done|]. left. exists old. split; [by right|done].
        -- right. split; [done|]. right. split; [|done].
           intros [?|?]; [congruence|done].
      * intros [[Hne [[= -> ->]|Hin]]|[-> [(old & [[= ? ?]|Hin]%elem_of_cons & ->)|[Hout ->]]]].
        -- by left.
        -- right. left. done.
        -- done.
        -- right. right. split; [done|]. left. by exists old.
        -- right. right. split; [done|]. right. split; [|done].
           intros Hin. apply Hout. by right.
Qed.

Lemma filter_no_match {A} (P : A -> Prop) `{∀ x, Decision (P x)} (l : list A) :
  (∀ x, x ∈ l -> ¬ P x) -> filter P l = [].
Proof.
  induction l as [|x l IH]; intros Hl; [done|].
  rewrite filter_cons, decide_False; [|apply Hl; by left].
  apply IH. intros y Hy. apply Hl. by right.
Qed.

(** What holds of the dictionary after the edges [es]. *)
Lemma add_edges_spec (es : list (Work * Authorship)) :
  let aw := fold_left add_edge es [] in
  NoDup (map fst aw) ∧
  (∀ k, k ∈ map fst aw <-> k ∈ omap (fun e => authorship_author_id (snd e)) es) ∧
  (∀ k items, (k, items) ∈ aw ->
     items = map fst (filter (fun e => authorship_author_id (snd e) = Some k) es)).
Proof.
  induction es as [|e es IH] using rev_ind; cbv zeta.
  { simpl. split_and!; [apply NoDup_nil_2|done|by intros k items ?%elem_of_nil]. }
  rewrite fold_left_app. cbn [fold_left].
  set (aw := fold_left add_edge es []) in *. destruct IH as (Hnd & Hkeys & Hitems).
  rewrite omap_app. cbn [omap list_omap].
  destruct (authorship_author_id (snd e)) as [k|] eqn:Hk.
  - split_and!.
    + rewrite append_item_keys. case_decide; [done|].
      apply NoDup_app. split_and!; [done| |apply NoDup_singleton].
      by intros x Hx ->%list_elem_of_singleton.
    + intros k'. rewrite append_item_keys, elem_of_app, list_elem_of_singleton.
      rewrite <- Hkeys. case_decide as Hin.
      * split; [by left|]. by intros [?| ->].
      * by rewrite elem_of_app, list_elem_of_singleton.
    + intros k' items. rewrite elem_of_append_item by done.
      rewrite filter_app, map_app, filter_cons, filter_nil.
      intros [[Hne Hin]|[-> [(old & Hin & ->)|[Hout ->]]]].
      * rewrite decide_False by congruence. rewrite app_nil_r. by apply Hitems.
      * rewrite decide_True by done. simpl. f_equal. by apply Hitems.
      * rewrite decide_True by done. simpl.
        assert (Hnil : filter (fun e0 => authorship_author_id (snd e0) = Some k) es = []).
        { apply filter_no_match. intros e0 He0 Hk0.
          apply Hout, Hkeys, list_elem_of_omap. by exists e0. }
        by rewrite Hnil.
  - rewrite app_nil_r. split_and!; [done|done|].
    intros k items Hin. rewrite filter_app, map_app, filter_cons, filter_nil.
    rewrite decide_False by congruence. rewrite app_nil_r. by apply Hitems.
Qed.

Lemma omap_edges json_data :
  omap (fun e => authorship_author_id (snd e)) (edges json_data)
  = omap authorship_author_id (flat_map w_authorships json_data).
Proof.
  unfold edges. induction json_data as [|item rest IH]; [done|].
  cbn [flat_map]. rewrite !omap_app, IH. f_equal.
  induction (w_authorships item) as [|a l IHl]; [done|].
  cbn [map omap list_omap snd]. by rewrite <- IHl.
Qed.

Lemma extract_author_works_keys json_data k :
  k ∈ map fst (_extract_author_works json_data) <-> k ∈ search_author_ids json_data.
Proof.
  rewrite extract_author_works_edges.
  destruct (add_edges_spec (edges json_data)) as (_ & Hkeys & _).
  unfold search_author_ids. by rewrite Hkeys, omap_edges, elem_of_list_to_set.
Qed.

(** X12. [_extract_author_works] groups the items by author: its keys are
    pairwise distinct and are the author ids that [main] collects from the
    search results (so the two counts that [main] prints are equal), and
    the items of a key are those with an authorship of that author, in
    order, one for each such authorship. *)
Theorem extract_author_works_groups (json_data : list Work) :
  let author_works := _extract_author_works json_data in
  NoDup (map fst author_works) ∧
  (∀ k, k ∈ map fst author_works <-> k ∈ search_author_ids json_data) ∧
  length author_works = size (search_author_ids json_data) ∧
  (∀ k items, (k, items) ∈ author_works -> items = items_of k json_data).
Proof.
  cbv zeta. pose proof (extract_author_works_keys json_data) as Hk.
  rewrite extract_author_works_edges in *.
  destruct (add_edges_spec (edges json_data)) as (Hnd & _ & Hitems).
  split_and!; [done|done| |done].
  rewrite <- (length_map fst).
  rewrite <- (size_list_to_set (C := gset str) (map fst _)) by done.
  f_equal. apply set_eq. intros k. by rewrite elem_of_list_to_set, Hk.
Qed.

(** *** [_load_search_results_work_ids] *)

Lemma load_work_ids_spec (json_data : list Work) :
  match _load_search_results_work_ids json_data with
  | Some work_ids =>
      (∀ item, item ∈ json_data -> is_Some (w_id item)) ∧
      (∀ x, x ∈ work_ids <->
            x <> [] ∧ ∃ item, item ∈ json_data ∧ is_Some (w_id item) ∧
                              short_id (w_id item) = x)
  | None => ∃ item, item ∈ json_data ∧ w_id item = None
  end.
Proof.
  induction json_data as [|item rest IH]; simpl.
  { split; [by intros item ?%elem_of_nil|]. intros x. split; [set_solver|].
    by intros (_ & item & ?%elem_of_nil & _). }
  destruct (w_id item) as [item_id|] eqn:Hid.
  2:{ exists item. split; [by left|done]. }
  destruct (_load_search_results_work_ids rest) as [work_ids|].
  2:{ destruct IH as (item' & Hin & Hnull). exists item'. split; [by right|done]. }
  destruct IH as [Hall Hmem]. split.
  - intros item' [->|Hin]%elem_of_cons; [by rewrite Hid|by apply Hall].
  - intros x.
    assert (Hshort : short_id (w_id item) = Py.replace openalex_prefix [] item_id).
    { by rewrite Hid. }
    destruct (Py.replace openalex_prefix [] item_id) as [|c r] eqn:E.
    + rewrite Hmem. split.
      * intros (Hne & item' & Hin & Hsome & Hx). split; [done|].
        exists item'. split; [by right|done].
      * intros (Hne & item' & [->|Hin]%elem_of_cons & Hsome & Hx).
        -- congruence.
        -- split; [done|]. by exists item'.
    + rewrite elem_of_union, elem_of_singleton, Hmem. split.
      * intros [->|(Hne & item' & Hin & Hsome & Hx)].
        -- split; [done|]. exists item. split; [by left|]. by rewrite Hid.
        -- split; [done|]. exists item'. split; [by right|done].
      * intros (Hne & item' & [->|Hin]%elem_of_cons & Hsome & Hx).
        -- left. congruence.
        -- right. split; [done|]. by exists item'.
Qed.

(** X13. Loading the work ids of the search results fails exactly when an
    item has a [null] id; otherwise it gives the ids of the items without
    the prefix of OpenAlex, the empty ones left out. *)
Theorem load_search_results_work_ids_spec (json_data : list Work) :
  match _load_search_results_work_ids json_data with
  | Some work_ids =>
      (∀ item, item ∈ json_data -> is_Some (w_id item)) ∧
      (∀ x, x ∈ work_ids <->
            x <> [] ∧ ∃ item, item ∈ json_data ∧ is_Some (w_id item) ∧
                              short_id (w_id item) = x)
  | None => ∃ item, item ∈ json_data ∧ w_id item = None
  end.
Proof. exact (load_work_ids_spec json_data). Qed.

(** *** [main] *)

Section Loops.
Variables (search_ids search_work_ids : gset str).
Variable unique_author_ids : list str.
Variable all_author_works : gmap str (list Work).

(** What the loops keep: every pair seen has a row, and every row has its
    source. *)
Abbreviation kept := (fun out : Output =>
  covered out ∧
  ∀ row, row ∈ output_rows out ->
    source_of unique_author_ids all_author_works search_work_ids row ∧
    row_id row <> []).

Abbreviation grows := (fun out out' : Output =>
  seen_work_author_pairs out ⊆ seen_work_author_pairs out').

(** The pair of an authorship is seen, when it has an author of the search
    results. *)
Abbreviation seen_edge := (fun (work : Work) (authorship : Authorship) (out : Output) =>
  ∀ author, as_author authorship = Some author ->
    short_id (a_id author) ∈ search_ids ->
    (short_id (w_id work), short_id (a_id author)) ∈ seen_work_author_pairs out).

Lemma grows_refl (out : Output) : grows out out.
Proof. cbv beta. set_solver. Qed.

Lemma grows_trans (out1 out2 out3 : Output) :
  grows out1 out2 -> grows out2 out3 -> grows out1 out3.
Proof. cbv beta. set_solver. Qed.

Lemma seen_edge_mono work authorship (out out' : Output) :
  seen_edge work authorship out -> grows out out' -> seen_edge work authorship out'.
Proof. cbv beta. intros H Hle author Hau Hs. apply Hle. by apply H. Qed.

Lemma visit_authorship_kept author_id works work out authorship out' :
  author_id ∈ unique_author_ids ->
  all_author_works !! author_id = Some works ->
  work ∈ works -> authorship ∈ w_authorships work ->
  short_id (w_id work) <> [] ->
  kept out ->
  visit_authorship search_ids search_work_ids work (short_id (w_id work)) out authorship
  = Some out' ->
  kept out' ∧ grows out out' ∧ seen_edge work authorship out'.
Proof.
  intros Ha Hw Hwork Hauth Hid [Hcov Hsrc]. unfold visit_authorship.
  destruct (as_author authorship) as [author|] eqn:Hau.
  2:{ intros [= <-]. by split_and!. }
  case_bool_decide as Hs.
  2:{ intros [= <-]. split; [done|split; [done|]]. intros ? [= <-] ?. done. }
  case_bool_decide as Hseen.
  { intros [= <-]. split; [done|split; [done|]]. by intros ? [= <-] _. }
  destruct (_extract_work_data_for_author work authorship search_work_ids)
    as [work_data|] eqn:Hex; [|done].
  intros [= <-].
  assert (Hpair : pair_of work_data = (short_id (w_id work), short_id (a_id author))).
  { destruct (extract_Some _ _ _ _ Hex)
      as (item_id & author' & Hwid & Hau' & Hrid & Haid & _).
    rewrite Hau in Hau'. injection Hau' as <-.
    destruct (short_id_work work Hid) as (item_id' & Hwid' & Hshort).
    rewrite Hwid in Hwid'. injection Hwid' as <-.
    unfold pair_of. by rewrite Hrid, Haid, Hshort. }
  assert (Hrow : row_id work_data = short_id (w_id work)) by (by injection Hpair).
  destruct (row_id work_data) as [|c r] eqn:E; [congruence|].
  cbn [output_rows seen_work_author_pairs]. split; [|split].
  - split.
    + intros p [->%elem_of_singleton|Hp]%elem_of_union.
      * exists work_data. split; [|done]. apply elem_of_app. right. by left.
      * destruct (Hcov p Hp) as (row & Hin & Hrp). exists row. split; [|done].
        apply elem_of_app. by left.
    + intros row [Hin| ->%list_elem_of_singleton]%elem_of_app; [by apply Hsrc|].
      split; [|by rewrite E]. by exists author_id, works, work, authorship.
  - set_solver.
  - intros ? [= <-] _. set_solver.
Qed.

Lemma visit_work_kept author_id works out work out' :
  author_id ∈ unique_author_ids ->
  all_author_works !! author_id = Some works ->
  work ∈ works ->
  kept out ->
  visit_work search_ids search_work_ids out work = Some out' ->
  kept out' ∧ grows out out' ∧
  (short_id (w_id work) <> [] ->
   ∀ authorship, authorship ∈ w_authorships work -> seen_edge work authorship out').
Proof.
  intros Ha Hw Hwork Hk. unfold visit_work.
  destruct (short_id (w_id work)) as [|c r] eqn:E.
  { intros [= <-]. split; [done|split; [done|by intros ?]]. }
  rewrite <- E. intros Hrun.
  destruct (for_each_post kept grows (seen_edge work) _ _ _ _
              grows_refl grows_trans (seen_edge_mono work)
              (fun s1 x s2 Hx H1 Hb =>
                 visit_authorship_kept author_id works work s1 x s2 Ha Hw Hwork Hx
                   ltac:(by rewrite E) H1 Hb)
              Hk Hrun) as (H1 & H2 & H3).
  split; [done|split; [done|]]. intros _. exact H3.
Qed.

Lemma visit_author_kept out author_id out' :
  author_id ∈ unique_author_ids ->
  kept out ->
  visit_author all_author_works search_ids search_work_ids out author_id = Some out' ->
  kept out' ∧ grows out out' ∧
  ∀ works work authorship,
    all_author_works !! author_id = Some works -> work ∈ works ->
    short_id (w_id work) <> [] -> authorship ∈ w_authorships work ->
    seen_edge work authorship out'.
Proof.
  intros Ha Hk. unfold visit_author.
  destruct (all_author_works !! author_id) as [works|] eqn:Hw.
  2:{ intros [= <-]. split; [done|split; [done|by intros ? ? ? ?]]. }
  intros Hrun.
  destruct (for_each_post kept grows
              (fun work out => short_id (w_id work) <> [] ->
                 ∀ authorship, authorship ∈ w_authorships work ->
                               seen_edge work authorship out) _ _ _ _
              grows_refl grows_trans
              (fun x s1 s2 HQ Hle Hne au Hau =>
                 seen_edge_mono x au s1 s2 (HQ Hne au Hau) Hle)
              (fun s1 x s2 Hx H1 Hb =>
                 visit_work_kept author_id works s1 x s2 Ha Hw Hx H1 Hb)
              Hk Hrun) as (H1 & H2 & H3).
  split; [done|split; [done|]]. intros works' work authorship [= <-] Hwork Hne Hau.
  by apply H3.
Qed.

End Loops.

Lemma main_kept all_json_data all_author_works search_work_ids rows :
  _load_search_results_work_ids all_json_data = Some search_work_ids ->
  main all_json_data all_author_works = Some rows ->
  let search_ids := search_author_ids all_json_data in
  (∀ row, row ∈ rows ->
     source_of (map fst (_extract_author_works all_json_data)) all_author_works
               search_work_ids row ∧
     row_id row <> []) ∧
  (∀ author_id works work authorship author,
     author_id ∈ search_ids ->
     all_author_works !! author_id = Some works -> work ∈ works ->
     short_id (w_id work) <> [] -> authorship ∈ w_authorships work ->
     as_author authorship = Some author -> short_id (a_id author) ∈ search_ids ->
     ∃ row, row ∈ rows ∧
            pair_of row = (short_id (w_id work), short_id (a_id author))).
Proof.
  intros Hload. unfold main. rewrite Hload.
  intros Hrun. apply fmap_Some in Hrun as (out & Hrun & ->). cbv zeta.
  set (keys := map fst (_extract_author_works all_json_data)) in *.
  set (search_ids := search_author_ids all_json_data) in *.
  destruct (for_each_post
              (fun out => covered out ∧ ∀ row, row ∈ output_rows out ->
                 source_of keys all_author_works search_work_ids row ∧
                 row_id row <> [])
              (fun out out' => seen_work_author_pairs out ⊆ seen_work_author_pairs out')
              (fun author_id out =>
                 ∀ works work authorship,
                   all_author_works !! author_id = Some works -> work ∈ works ->
                   short_id (w_id work) <> [] -> authorship ∈ w_authorships work ->
                   ∀ author, as_author authorship = Some author ->
                     short_id (a_id author) ∈ search_ids ->
                     (short_id (w_id work), short_id (a_id author))
                       ∈ seen_work_author_pairs out)
              _ _ {| seen_work_author_pairs := ∅; output_rows := [] |} out
              grows_refl grows_trans
              (fun x s1 s2 HQ Hle ws w au Hws Hw Hne Hau =>
                 seen_edge_mono search_ids w au s1 s2 (HQ ws w au Hws Hw Hne Hau) Hle)
              (fun s1 x s2 Hx H1 Hb =>
                 visit_author_kept search_ids search_work_ids keys all_author_works
                   s1 x s2 Hx H1 Hb)
              ltac:(split; [by intros p ?%elem_of_empty|by intros row ?%elem_of_nil])
              Hrun) as ([Hcov Hsrc] & _ & Hseen).
  split; [done|].
  intros author_id works work authorship author Ha Hw Hwork Hne Hau Has Hs.
  apply Hcov. eapply Hseen; try done.
  subst keys. by apply extract_author_works_keys.
Qed.

(** X14. Every authorship of a work fetched for an author of the search
    results has a row, when the work has an id and the author of the
    authorship is of the search results: the row of its
    [(work_id, author_id)] pair. *)
Theorem main_row_for_every_pair (all_json_data : list Work)
    (all_author_works : gmap str (list Work)) (rows : list Row)
    (author_id : str) (works : list Work) (work : Work)
    (authorship : Authorship) (author : Author) :
  main all_json_data all_author_works = Some rows ->
  author_id ∈ search_author_ids all_json_data ->
  all_author_works !! author_id = Some works -> work ∈ works ->
  short_id (w_id work) <> [] ->
  authorship ∈ w_authorships work -> as_author authorship = Some author ->
  short_id (a_id author) ∈ search_author_ids all_json_data ->
  ∃ row, row ∈ rows ∧ pair_of row = (short_id (w_id work), short_id (a_id author)).
Proof.
  intros Hmain. pose proof Hmain as Hm. unfold main in Hm.
  destruct (_load_search_results_work_ids all_json_data) as [search_work_ids|] eqn:Hl;
    [|done].
  apply (proj2 (main_kept _ _ _ _ Hl Hmain)).
Qed.

(** X15. Every row written is made from an authorship of a work fetched
    for an author of the search results; it is marked [Yes] exactly when
    the id of that work is the id of an item of the search results. *)
Theorem main_rows_have_a_source (all_json_data : list Work)
    (all_author_works : gmap str (list Work)) (rows : list Row) (row : Row) :
  main all_json_data all_author_works = Some rows ->
  row ∈ rows ->
  ∃ search_work_ids,
    _load_search_results_work_ids all_json_data = Some search_work_ids ∧
    source_of (map fst (_extract_author_works all_json_data)) all_author_works
              search_work_ids row ∧
    row_id row <> [] ∧
    (row_references_israel row = u "Yes" ∨ row_references_israel row = u "No") ∧
    (row_references_israel row = u "Yes" <->
     ∃ item, item ∈ all_json_data ∧ short_id (w_id item) = row_id row).
Proof.
  intros Hmain Hrow. pose proof Hmain as Hm. unfold main in Hm.
  destruct (_load_search_results_work_ids all_json_data) as [search_work_ids|] eqn:Hl;
    [|done].
  clear Hm. exists search_work_ids. split; [done|].
  destruct (proj1 (main_kept _ _ _ _ Hl Hmain) row Hrow) as [Hsrc Hne].
  split; [done|]. split; [done|].
  pose proof (load_work_ids_spec all_json_data) as Hload.
  rewrite Hl in Hload. destruct Hload as [Hall Hmem].
  destruct Hsrc as (a & works & work & authorship & _ & _ & _ & _ & Hex).
  destruct (extract_Some _ _ _ _ Hex) as (_ & _ & _ & _ & _ & _ & _ & ->).
  case_bool_decide as Hin.
  - split; [by left|]. split; [intros _|done].
    apply Hmem in Hin as (_ & item & Hitem & _ & Hshort). by exists item.
  - split; [by right|]. split; [done|]. intros (item & Hitem & Hshort).
    destruct Hin. apply Hmem. split; [done|]. exists item. by auto.
Qed.

Lemma main_row_for_every_pair_witness :
  ∃ row, row ∈ [Examples.row_of_two] ∧ pair_of row = (u "W1", u "A1").
Proof.
  refine (main_row_for_every_pair Examples.search_results
            {[u "A1" := [Examples.work_of_two]]} _ (u "A1") [Examples.work_of_two]
            Examples.work_of_two
            (Examples.authorship "https://openalex.org/A1" "Author, A." "MIT")
            {| a_id := Some (u "https://openalex.org/A1") |} _ _ _ _ _ _ _ _).
  - by vm_compute.
  - apply (bool_decide_unpack _). by vm_compute.
  - by vm_compute.
  - by left.
  - by vm_compute.
  - right. right. by left.
  - done.
  - apply (bool_decide_unpack _). by vm_compute.
Defined.

Lemma main_rows_have_a_source_witness :
  let row := Examples.row_of_two in
  row_references_israel row = u "Yes" <->
  ∃ item, item ∈ Examples.search_results ∧ short_id (w_id item) = row_id row.
Proof.
  intros row.
  destruct (main_rows_have_a_source Examples.search_results
              {[u "A1" := [Examples.work_of_two]]} [row] row)
    as (search_work_ids & _ & _ & _ & _ & H).
  - by vm_compute.
  - by left.
  - exact H.
Defined.

End PairsExtras.

(** ** The affiliation columns, from the export to the aggregator *)

Module ColumnsExtras.
Import Aggregate Columns.

(** *** [split] and [join] *)

Lemma elem_of_rev {A} (x : A) (l : list A) : x ∈ rev l <-> x ∈ l.
Proof. rewrite !list_elem_of_In. symmetry. apply in_rev. Qed.

Lemma split_on_from_no_sep (sep : Z) (cur p rest : str) :
  sep ∉ p ->
  Py.split_on_from sep cur (p ++ rest) = Py.split_on_from sep (rev p ++ cur) rest.
Proof.
  revert cur. induction p as [|c p IH]; intros cur Hp; [done|].
  simpl. destruct (c =? sep) eqn:E.
  - apply Z.eqb_eq in E. subst c. destruct Hp. by left.
  - rewrite IH; [by rewrite <- app_assoc|]. intros Hin. apply Hp. by right.
Qed.

Lemma split_on_join (sep : Z) (parts : list str) :
  parts <> [] -> Forall (fun p => sep ∉ p) parts ->
  Py.split_on sep (Py.join [sep] parts) = parts.
Proof.
  intros Hne Hall. unfold Py.split_on.
  induction Hall as [|p parts Hp Hall IH]; [done|].
  destruct parts as [|q parts].
  - simpl. rewrite <- (app_nil_r p) at 1. rewrite split_on_from_no_sep by done.
    simpl. by rewrite app_nil_r, rev_involutive.
  - change (Py.join [sep] (p :: q :: parts))
      with (p ++ sep :: Py.join [sep] (q :: parts)).
    rewrite split_on_from_no_sep by done. cbn [Py.split_on_from]. rewrite Z.eqb_refl.
    by rewrite app_nil_r, rev_involutive, IH.
Qed.

Lemma split_on_from_free (sep : Z) (cur s piece : str) :
  sep ∉ cur -> piece ∈ Py.split_on_from sep cur s -> sep ∉ piece.
Proof.
  revert cur. induction s as [|c s IH]; intros cur Hcur; simpl.
  - intros ->%list_elem_of_singleton. by rewrite elem_of_rev.
  - destruct (c =? sep) eqn:E.
    + intros [->|Hin]%elem_of_cons; [by rewrite elem_of_rev|].
      apply (IH []); [by intros ?%elem_of_nil|done].
    + apply IH. apply Z.eqb_neq in E. intros [?|?]%elem_of_cons; [congruence|done].
Qed.

Lemma join_nil (sep : str) (parts : list str) :
  Forall (fun p => p <> []) parts -> Py.join sep parts = [] -> parts = [].
Proof.
  intros Hall. destruct Hall as [|p parts Hp Hall]; [done|].
  destruct parts; simpl; [done|]. by destruct p.
Qed.

(** *** [strip] *)

Section Strip.
Variable U : UnicodeData.

Lemma strip_idempotent s : Py.strip U (Py.strip U s) = Py.strip U s.
Proof.
  unfold Py.strip.
  assert (Hhead : ∀ c z, Py.lstrip U s = c :: z -> isspace U c = false).
  { induction s as [|d s IH]; intros c z; simpl; [done|].
    destruct (isspace U d) eqn:E; [apply IH|]. by intros [= <- _]. }
  destruct (Py.lstrip U s) as [|c z] eqn:E; [done|].
  pose proof (Hhead c z eq_refl) as Hc.
  assert (Hr : Py.rstrip U (c :: z) = c :: Py.rstrip U z).
  { rewrite NormalizerTheory.rstrip_cons, Hc. by destruct (Py.rstrip U z). }
  rewrite Hr. simpl. rewrite Hc. rewrite <- Hr.
  apply NormalizerTheory.rstrip_idempotent.
Qed.

Lemma add_split_sorted_join (names : list str) (target : gset str) :
  Forall (fun name => 59 ∉ name) names ->
  ∀ x, x ∈ add_split U (sorted_join names) target <->
       x ∈ target ∨ (x <> [] ∧ ∃ name, name ∈ names ∧ Py.strip U name = x).
Proof.
  intros Hall x.
  rewrite AggregateTheory.add_split_union, elem_of_union.
  rewrite AggregateExtras.elem_of_add_split. unfold sorted_join.
  assert (Hperm : merge_sort str_le names ≡ₚ names) by apply merge_sort_Permutation.
  destruct (merge_sort str_le names) as [|p ps] eqn:E.
  - apply Permutation_nil_l in Hperm. subst names. split.
    + intros [(Hne & piece & ->%list_elem_of_singleton & Hx)|?]; [|by left].
      destruct Hne. rewrite <- Hx. by apply AggregateTheory.strip_blank.
    + intros [?|(_ & name & ?%elem_of_nil & _)]; [by right|done].
  - rewrite split_on_join; [|done|by rewrite Hperm].
    setoid_rewrite Hperm. tauto.
Qed.

(** X18. The export joins the names of a column with semicolons and the
    aggregator splits the column at semicolons: when no name holds a
    semicolon, the aggregator adds to the set of the group exactly the
    names, without their surrounding white space, the blank ones left out. *)
Theorem sorted_join_add_split (names : list str) (target : gset str) :
  Forall (fun name => 59 ∉ name) names ->
  ∀ x, x ∈ add_split U (sorted_join names) target <->
       x ∈ target ∨ (x <> [] ∧ ∃ name, name ∈ names ∧ Py.strip U name = x).
Proof. exact (add_split_sorted_join names target). Qed.

(** X19. The three affiliation columns of an output row of the aggregator
    read back as the set they were written from: split at semicolons, a
    column gives the elements of the set in ascending order, each once, and
    aggregating the column again gives the set. *)
Theorem output_columns_read_back (rows : list Row) (g : nat) (data : AuthorData) :
  author_data (process_rows U rows) !! g = Some data ->
  let r := output_row U (process_rows U rows) g data in
  let read_back := fun (column : str) (X : gset str) =>
    (X = ∅ -> column = []) ∧
    (X <> ∅ -> Py.split_on 59 column = merge_sort str_le (elements X)) ∧
    add_split U column ∅ = X in
  read_back (out_institutions r) (institutions data) ∧
  read_back (out_countries r) (countries data) ∧
  read_back (out_affiliations_comment r) (affiliations data).
Proof.
  intros Hdata r read_back.
  destruct (AggregateExtras.group_sets_of_rows U rows g data Hdata)
    as (_ & _ & _ & _ & Hi & Hc & Ha).
  assert (Hback : ∀ X : gset str,
    (∀ x, x ∈ X -> x <> [] ∧ ∃ piece, (59 ∉ piece) ∧ Py.strip U piece = x) ->
    read_back (join_sorted X) X).
  { intros X HX. subst read_back. cbv beta. unfold join_sorted.
    assert (Hperm : merge_sort str_le (elements X) ≡ₚ elements X)
      by apply merge_sort_Permutation.
    assert (Hfree : Forall (fun p => 59 ∉ p) (elements X)).
    { apply Forall_forall. intros x Hx%elem_of_elements.
      destruct (HX x Hx) as (_ & piece & Hp & <-). intros Hin. apply Hp.
      by eapply NormalizerTheory.elem_of_strip. }
    split_and!.
    - intros ->. by rewrite elements_empty.
    - intros Hne. apply split_on_join; [|by rewrite Hperm].
      intros Hnil. rewrite Hnil in Hperm. apply Permutation_nil_l in Hperm.
      symmetry in Hperm. by apply elements_empty_inv, leibniz_equiv in Hperm.
    - apply set_eq. intros x.
      pose proof (add_split_sorted_join (elements X) ∅ Hfree x) as Hx.
      unfold sorted_join in Hx. rewrite Hx. split.
      + intros [?%elem_of_empty|(Hne & name & Hin%elem_of_elements & Hs)]; [done|].
        destruct (HX name Hin) as (_ & piece & _ & Hp).
        rewrite <- Hp, strip_idempotent, Hp in Hs. by subst.
      + intros Hin. right. destruct (HX x Hin) as (Hne & piece & _ & Hp).
        split; [done|]. exists x. split; [by apply elem_of_elements|].
        by rewrite <- Hp, strip_idempotent. }
  assert (Hpieces : ∀ (column : Row -> str) (X : gset str),
    (∀ x, x ∈ X <->
       x <> [] ∧ ∃ s, s ∈ sightings U rows ∧ s_group s = g ∧
         ∃ piece, piece ∈ Py.split_on 59 (column (s_row s)) ∧ Py.strip U piece = x) ->
    ∀ x, x ∈ X -> x <> [] ∧ ∃ piece, (59 ∉ piece) ∧ Py.strip U piece = x).
  { intros column X HX x Hx. apply HX in Hx as (Hne & s & _ & _ & piece & Hin & Hp).
    split; [done|]. exists piece. split; [|done].
    eapply split_on_from_free; [|exact Hin]. by intros ?%elem_of_nil. }
  split_and!; apply Hback.
  - by apply (Hpieces row_institutions).
  - by apply (Hpieces row_countries).
  - by apply (Hpieces row_affiliations_comment).
Qed.

End Strip.

(** *** The columns of the export *)

Lemma all_institutions_truthy authorship :
  Forall (fun name => name <> []) (all_institutions authorship).
Proof.
  apply Forall_forall. intros name (inst & _ & Hn)%list_elem_of_omap.
  destruct inst as [i|]; [|done]. unfold truthy_str in Hn.
  by destruct (i_display_name i) as [[|c r]|]; [| injection Hn as <- |].
Qed.

(** X17. A row of the export has institutions or an affiliation comment,
    never both: the comment is written only when no institution of the
    authorship has a name, and it never holds the placeholder text of the
    API as one of its strings. *)
Theorem institutions_or_affiliations_comment (authorship : Affiliated) :
  let columns := affiliation_columns authorship in
  (col_institutions columns = [] ↔ all_institutions authorship = []) ∧
  (col_institutions columns = [] ∨ col_affiliations_comment columns = []) ∧
  (col_affiliations_comment columns = sorted_join (all_affiliations authorship)) ∧
  (view_further ∉ all_affiliations authorship) ∧
  Forall (fun a => a <> []) (all_affiliations authorship).
Proof.
  cbv zeta. unfold affiliation_columns. cbn [col_institutions col_affiliations_comment].
  assert (Hi : sorted_join (all_institutions authorship) = []
               <-> all_institutions authorship = []).
  { unfold sorted_join. split; [|by intros ->].
    intros Hj. apply join_nil in Hj.
    - symmetry. apply Permutation_nil_l. rewrite <- Hj. apply merge_sort_Permutation.
    - rewrite merge_sort_Permutation. apply all_institutions_truthy. }
  unfold all_affiliations.
  destruct (all_institutions authorship) as [|name names] eqn:E.
  - split_and!; [done|by left; apply Hi|done| |].
    + intros (a & _ & Ha)%list_elem_of_omap.
      destruct (truthy_str a) as [x|]; [|done]. case_bool_decide; congruence.
    + apply Forall_forall. intros x (a & _ & Ha)%list_elem_of_omap.
      unfold truthy_str in Ha. destruct a as [[|c r]|]; [done| |done].
      case_bool_decide; [done|]. by injection Ha as <-.
  - split_and!; [done|by right|done|by intros ?%elem_of_nil|done].
Qed.

Lemma sorted_join_add_split_witness :
  u "MIT" ∈ add_split Latin1.data (sorted_join [u " Yale"; u "MIT "]) ∅ <->
  u "MIT" ∈ (∅ : gset str) ∨
  (u "MIT" <> [] ∧ ∃ name, name ∈ [u " Yale"; u "MIT "] ∧
                           Py.strip Latin1.data name = u "MIT").
Proof.
  refine (sorted_join_add_split Latin1.data [u " Yale"; u "MIT "] ∅ _ (u "MIT")).
  apply (bool_decide_unpack _). by vm_compute.
Defined.

Lemma output_columns_read_back_witness :
  let rows := Examples.rows_same_pair in
  let st := process_rows Latin1.data rows in
  let data := default new_author_data (author_data st !! 0%nat) in
  Py.split_on 59 (out_institutions (output_row Latin1.data st 0 data))
  = [u "MIT"; u "Yale"] ∧
  add_split Latin1.data (out_institutions (output_row Latin1.data st 0 data)) ∅
  = institutions data.
Proof.
  intros rows st data. subst st.
  destruct (output_columns_read_back Latin1.data rows 0 data) as ((_ & H1 & H2) & _).
  - by vm_compute.
  - split; [|exact H2]. rewrite H1; [by vm_compute|].
    intros Hempty. assert (Hin : u "MIT" ∈ institutions data).
    { apply (bool_decide_unpack _). by vm_compute. }
    rewrite Hempty in Hin. by apply elem_of_empty in Hin.
Defined.

End ColumnsExtras.

(** ** From the search results to the rows *)

Module PipelineExtras.
Import Json Fetch Pairs.

(** X20. [main] fetches the works of the authors of the search results and
    writes the rows from what the batch returns.  Whatever the schedule of
    the batch, the rows are the same, and every authorship of a work that
    the fetch of such an author returns has its row, when the work has an
    id and the author of the authorship is of the search results. *)
Theorem rows_of_fetched_works (server : Server) (all_json_data : list Work)
    (schedule : list nat) (all_author_works : gmap str (list Work))
    (rows : list Row) :
  let unique_author_ids := map fst (_extract_author_works all_json_data) in
  enrich_authors_with_all_works server unique_author_ids schedule
  = Some all_author_works ->
  main all_json_data all_author_works = Some rows ->
  (∀ schedule' all_author_works',
     enrich_authors_with_all_works server unique_author_ids schedule'
     = Some all_author_works' ->
     main all_json_data all_author_works' = Some rows) ∧
  (∀ author_id fuel works events work authorship author,
     author_id ∈ search_author_ids all_json_data ->
     fetch_author_works fuel server author_id = Some (works, events) ->
     work ∈ works -> short_id (w_id work) <> [] ->
     authorship ∈ w_authorships work -> as_author authorship = Some author ->
     short_id (a_id author) ∈ search_author_ids all_json_data ->
     ∃ row, row ∈ rows ∧
            pair_of row = (short_id (w_id work), short_id (a_id author))).
Proof.
  intros ids Hfetch Hmain. split.
  - intros schedule' fetched' Hfetch'. rewrite <- Hmain. f_equal.
    apply map_eq. intros a. apply option_eq. intros works.
    by rewrite (FetchExtras.enrich_lookup_iff server ids _ _ a works Hfetch),
               (FetchExtras.enrich_lookup_iff server ids _ _ a works Hfetch').
  - intros a fuel works events work authorship author Ha Hf Hwork Hid Hau Has Hs.
    pose proof Hmain as Hm. unfold main in Hm.
    destruct (_load_search_results_work_ids all_json_data) as [search_work_ids|] eqn:Hl;
      [|done].
    apply (proj2 (PairsExtras.main_kept _ _ _ _ Hl Hmain) a works work authorship author);
      try done.
    apply (FetchExtras.enrich_lookup_iff server ids _ _ a works Hfetch).
    split; [by apply PairsExtras.extract_author_works_keys|].
    split; [by intros ->; apply elem_of_nil in Hwork|by eauto].
Qed.

Lemma rows_of_fetched_works_witness :
  main Examples.search_results {[u "A1" := [Examples.work_of_two]]}
  = Some [Examples.row_of_two].
Proof.
  refine (proj1 (rows_of_fetched_works
                   (Examples.server_one_page [Examples.work_of_two])
                   Examples.search_results [0; 0; 0]%nat
                   {[u "A1" := [Examples.work_of_two]]} _ _ _)
            [0; 0; 0; 0]%nat {[u "A1" := [Examples.work_of_two]]} _);
    by vm_compute.
Defined.

End PipelineExtras.
